(** * Signals, deferred clean-up and the message loop of luban

    A shallow embedding of
    - [packages/utils/src/schedule.ts]      (the deferred cleaner),
    - [packages/signaling/src/Signal.ts]    (the connection registry),
    - [packages/messaging/src/MessageLoop.ts] (the message loop),
    followed by the properties the specification states about them.

    JavaScript objects that are compared by identity ([===]) are numbered:
    senders, receivers, slots, handlers and hooks are values of [Obj].
    Arrays that are shared and mutated in place are kept in the state and
    addressed by the key that owns them. User code (slots, handlers, hooks
    and exception handlers) is a finite tree of calls into the library that
    ends by returning or by throwing, interpreted by the library functions
    themselves, so that re-entrant calls and the exceptions that escape
    them are part of the model.
    The interpreters take a bound on the depth of re-entrant calls and
    return [None] when it is exceeded; the statements that say a call
    returns give a bound for which it does. *)

From stdpp Require Import base option list gmap strings.

(* ===================================================================== *)
(** * Part I: the program                                                 *)
(* ===================================================================== *)

(** ** packages/utils/src/schedule.ts *)
Module Schedule.

Section Host.
Context {Task : Type}.

(** The host's event loop, as far as [schedule] and [unschedule] see it: a
    counter for the handles it gives out and the callbacks that have been
    requested and have not yet run. [requestAnimationFrame] (and its
    fallbacks) hand out non-zero handles, so [0] is free to mean that no
    callback is pending, which is how [scheduleId] and [loopTaskID] use it. *)
Record Scheduler := mkScheduler {
  counter : nat;
  pending : list (nat * Task)
}.

Definition idle : Scheduler := {| counter := 0; pending := [] |}.

Definition schedule (cb : Task) (s : Scheduler) : nat * Scheduler :=
  let id := S (counter s) in
  (id, {| counter := id; pending := pending s ++ [(id, cb)] |}).

Definition unschedule (id : nat) (s : Scheduler) : Scheduler :=
  {| counter := counter s;
     pending := filter (λ p, p.1 ≠ id) (pending s) |}.

(** The next turn of the event loop: the oldest pending callback is taken
    off the list and handed to the caller to run. *)
Definition next_task (s : Scheduler) : option (Task * Scheduler) :=
  match pending s with
  | [] => None
  | (_, cb) :: rest => Some (cb, {| counter := counter s; pending := rest |})
  end.
End Host.
Arguments Scheduler : clear implicits.

Section Cleaner.
Context {A Task : Type} `{EqDecision A}.

(** [class ScheduledCleaner<T>]: [dirtySet] is a JavaScript [Set] of
    arrays, kept here as the list of its members in insertion order. The
    arrays themselves live in the state of the client and are named by a
    value of [A]. *)
Record ScheduledCleaner := mkCleaner {
  dirtySet : list A;
  scheduleId : nat;
  flushGuard : bool
}.

(** [constructor(shouldRemove)] *)
Definition new : ScheduledCleaner :=
  {| dirtySet := []; scheduleId := 0; flushGuard := false |}.

(** [Set.prototype.add] *)
Definition set_add (x : A) (s : list A) : list A :=
  if decide (x ∈ s) then s else s ++ [x].

(** [clean(items)]; [dump_cb] is the closure [() => { this.dump() }]. *)
Definition clean (dump_cb : Task) (items : A)
    (c : ScheduledCleaner) (s : Scheduler Task) : ScheduledCleaner * Scheduler Task :=
  if decide (length (dirtySet c) = 0) then
    let '(id, s') := schedule dump_cb s in
    ({| dirtySet := set_add items (dirtySet c);
        scheduleId := id;
        flushGuard := flushGuard c |}, s')
  else
    ({| dirtySet := set_add items (dirtySet c);
        scheduleId := scheduleId c;
        flushGuard := flushGuard c |}, s).

(** [cancel()] *)
Definition cancel (c : ScheduledCleaner) (s : Scheduler Task)
    : ScheduledCleaner * Scheduler Task :=
  if decide (scheduleId c ≠ 0) then
    ({| dirtySet := dirtySet c; scheduleId := 0; flushGuard := flushGuard c |},
     unschedule (scheduleId c) s)
  else (c, s).

(** [dump()]: [remove_dead a] is lodash's [remove(items, this.shouldRemove)]
    on the array named [a] of the client's store. *)
Definition dump {Store : Type} (remove_dead : A → Store → Store)
    (c : ScheduledCleaner) (st : Store) : ScheduledCleaner * Store :=
  ({| dirtySet := []; scheduleId := scheduleId c; flushGuard := flushGuard c |},
   foldl (λ acc a, remove_dead a acc) st (dirtySet c)).

(** [flush()] *)
Definition flush {Store : Type} (remove_dead : A → Store → Store)
    (c : ScheduledCleaner) (s : Scheduler Task) (st : Store)
    : ScheduledCleaner * Scheduler Task * Store :=
  if flushGuard c || bool_decide (scheduleId c = 0) then (c, s, st)
  else
    let '(c1, s1) := cancel c s in
    let c2 := {| dirtySet := dirtySet c1; scheduleId := scheduleId c1; flushGuard := true |} in
    let '(c3, st3) := dump remove_dead c2 st in
    ({| dirtySet := dirtySet c3; scheduleId := scheduleId c3; flushGuard := false |},
     s1, st3).

(** A client that only registers arrays and cancels. *)
Inductive Op := Clean (items : A) | Cancel.

Definition step (dump_cb : Task) (w : ScheduledCleaner * Scheduler Task) (o : Op)
    : ScheduledCleaner * Scheduler Task :=
  match o with
  | Clean items => clean dump_cb items w.1 w.2
  | Cancel => cancel w.1 w.2
  end.

Definition run (dump_cb : Task) (ops : list Op)
    (w : ScheduledCleaner * Scheduler Task) : ScheduledCleaner * Scheduler Task :=
  foldl (step dump_cb) w ops.

(** The callbacks of this cleaner that the host still holds. *)
Definition scheduled `{EqDecision Task} (dump_cb : Task) (s : Scheduler Task) : nat :=
  length (filter (λ p, p.2 = dump_cb) (pending s)).

(** A cleaner whose pending set is not empty while it holds no handle and
    the host holds no callback of it. *)
Definition wedged `{EqDecision Task} (dump_cb : Task)
    (w : ScheduledCleaner * Scheduler Task) : Prop :=
  dirtySet w.1 ≠ [] ∧ scheduleId w.1 = 0 ∧ scheduled dump_cb w.2 = 0.
End Cleaner.
Arguments ScheduledCleaner : clear implicits.
Arguments Op : clear implicits.

End Schedule.

(** ** packages/signaling/src/Signal.ts *)
Module Signaling.
Import Schedule.

(** Object identities, thrown values and emitted payloads. *)
Definition Obj := nat.
Definition Err := nat.
Definition Args := nat.

(** [class Signal<T, U>]: a signal is compared by identity; two signals of
    one sender differ in [sig_id]. *)
Record Signal := mkSignal { sig_id : nat; sender : Obj }.

#[global] Instance Signal_eq_dec : EqDecision Signal.
Proof. solve_decision. Defined.

(** [interface IConnection]: [signal = None] is the cleared connection. The
    [context] is [None] for [undefined]. *)
Record IConnection := mkConnection {
  signal : option Signal;
  slot : Obj;
  context : option Obj
}.

(** The arrays held by the two weak maps. An array is created once per key
    and never replaced, so the key names the array. *)
Inductive ArrayRef := ReceiversOf (o : Obj) | SendersOf (o : Obj).

#[global] Instance ArrayRef_eq_dec : EqDecision ArrayRef.
Proof. solve_decision. Defined.

(** The only callback this module hands to the host: the [dump] of
    [connectionCleaner]. *)
Inductive Task := CleanupTask.

#[global] Instance Task_eq_dec : EqDecision Task.
Proof. solve_decision. Defined.

(** What a call of user code ends with. *)
Inductive Outcome := Returned | Threw (e : Err).

Section Registry.
Context {U : Type}.

(** The state of [namespace Private]. Connection objects are shared between
    a receivers array and a senders array: they live in [connections] and
    the arrays hold their indices. [exceptionHandler] is the handler that is
    installed. [reported] lists the calls made to exception handlers, each
    with the handler called and the value passed, in the order of the calls;
    it is kept for the statements below. [user] is whatever state the user
    code keeps. *)
Record Registry := mkRegistry {
  connections : list IConnection;
  receiversForSender : gmap Obj (list nat);
  sendersForReceiver : gmap Obj (list nat);
  connectionCleaner : ScheduledCleaner ArrayRef;
  host : Scheduler Task;
  exceptionHandler : Obj;
  reported : list (Obj * Err);
  user : U
}.

(** The default handler, [console.error], is object [0]. *)
Definition initial (u : U) : Registry :=
  {| connections := []; receiversForSender := ∅; sendersForReceiver := ∅;
     connectionCleaner := new; host := idle; exceptionHandler := 0;
     reported := []; user := u |}.

Definition with_connections (h : list IConnection) (st : Registry) : Registry :=
  mkRegistry h (receiversForSender st) (sendersForReceiver st)
    (connectionCleaner st) (host st) (exceptionHandler st) (reported st) (user st).

Definition with_receivers (m : gmap Obj (list nat)) (st : Registry) : Registry :=
  mkRegistry (connections st) m (sendersForReceiver st)
    (connectionCleaner st) (host st) (exceptionHandler st) (reported st) (user st).

Definition with_senders (m : gmap Obj (list nat)) (st : Registry) : Registry :=
  mkRegistry (connections st) (receiversForSender st) m
    (connectionCleaner st) (host st) (exceptionHandler st) (reported st) (user st).

Definition with_cleaner (c : ScheduledCleaner ArrayRef) (s : Scheduler Task)
    (st : Registry) : Registry :=
  mkRegistry (connections st) (receiversForSender st) (sendersForReceiver st)
    c s (exceptionHandler st) (reported st) (user st).

Definition with_handler (h : Obj) (st : Registry) : Registry :=
  mkRegistry (connections st) (receiversForSender st) (sendersForReceiver st)
    (connectionCleaner st) (host st) h (reported st) (user st).

Definition with_reported (l : list (Obj * Err)) (st : Registry) : Registry :=
  mkRegistry (connections st) (receiversForSender st) (sendersForReceiver st)
    (connectionCleaner st) (host st) (exceptionHandler st) l (user st).

Definition with_user (u : U) (st : Registry) : Registry :=
  mkRegistry (connections st) (receiversForSender st) (sendersForReceiver st)
    (connectionCleaner st) (host st) (exceptionHandler st) (reported st) u.

(** [connection.signal === signal && connection.slot === slot &&
    connection.context === context] *)
Definition matches (s : Signal) (sl : Obj) (ctx : option Obj) (c : IConnection) : bool :=
  bool_decide (signal c = Some s) && bool_decide (slot c = sl)
    && bool_decide (context c = ctx).

(** [findConnection]: the first entry of the array that matches. *)
Fixpoint findConnection (heap : list IConnection) (conns : list nat)
    (s : Signal) (sl : Obj) (ctx : option Obj) : option nat :=
  match conns with
  | [] => None
  | r :: rest =>
      match heap !! r with
      | Some c =>
          if matches s sl ctx c then Some r
          else findConnection heap rest s sl ctx
      | None => findConnection heap rest s sl ctx
      end
  end.

(** [scheduleCleanup] *)
Definition scheduleCleanup (a : ArrayRef) (st : Registry) : Registry :=
  let '(c, s) := clean CleanupTask a (connectionCleaner st) (host st) in
  with_cleaner c s st.

(** [connection.signal = null] on the connection object [r]. *)
Definition clear (r : nat) (st : Registry) : Registry :=
  match connections st !! r with
  | Some c =>
      with_connections
        (<[r := {| signal := None; slot := slot c; context := context c |}]>
           (connections st)) st
  | None => st
  end.

(** [Private.connect]. The argument [ctx] is [context || undefined]. *)
Definition connect (s : Signal) (sl : Obj) (ctx : option Obj) (st : Registry)
    : bool * Registry :=
  let st1 :=
    match receiversForSender st !! sender s with
    | Some _ => st
    | None => with_receivers (<[sender s := []]> (receiversForSender st)) st
    end in
  let receivers := default [] (receiversForSender st1 !! sender s) in
  match findConnection (connections st1) receivers s sl ctx with
  | Some _ => (false, st1)
  | None =>
      let receiver := default sl ctx in
      let st2 :=
        match sendersForReceiver st1 !! receiver with
        | Some _ => st1
        | None => with_senders (<[receiver := []]> (sendersForReceiver st1)) st1
        end in
      let senders := default [] (sendersForReceiver st2 !! receiver) in
      let r := length (connections st2) in
      let connection := {| signal := Some s; slot := sl; context := ctx |} in
      (true,
       with_senders (<[receiver := senders ++ [r]]> (sendersForReceiver st2))
         (with_receivers (<[sender s := receivers ++ [r]]> (receiversForSender st2))
            (with_connections (connections st2 ++ [connection]) st2)))
  end.

(** [Private.disconnect] *)
Definition disconnect (s : Signal) (sl : Obj) (ctx : option Obj) (st : Registry)
    : bool * Registry :=
  match receiversForSender st !! sender s with
  | None => (false, st)
  | Some receivers =>
      if decide (length receivers = 0) then (false, st)
      else
        match findConnection (connections st) receivers s sl ctx with
        | None => (false, st)
        | Some r =>
            let receiver := default sl ctx in
            (true,
             scheduleCleanup (SendersOf receiver)
               (scheduleCleanup (ReceiversOf (sender s)) (clear r st)))
        end
  end.

(** The body of the [forEach] in [disconnectBetween]. *)
Definition clearIfFrom (sndr : Obj) (st : Registry) (r : nat) : Registry :=
  match connections st !! r with
  | Some c =>
      match signal c with
      | None => st
      | Some s => if decide (sender s = sndr) then clear r st else st
      end
  | None => st
  end.

(** [Private.disconnectBetween] *)
Definition disconnectBetween (sndr receiver : Obj) (st : Registry) : Registry :=
  match receiversForSender st !! sndr with
  | None => st
  | Some receivers =>
      if decide (length receivers = 0) then st
      else
        match sendersForReceiver st !! receiver with
        | None => st
        | Some senders =>
            if decide (length senders = 0) then st
            else
              scheduleCleanup (SendersOf receiver)
                (scheduleCleanup (ReceiversOf sndr)
                   (foldl (clearIfFrom sndr) st senders))
        end
  end.

(** The body of the [forEach] in [disconnectSender]. *)
Definition clearToReceiver (st : Registry) (r : nat) : Registry :=
  match connections st !! r with
  | Some c =>
      match signal c with
      | None => st
      | Some _ =>
          let receiver := default (slot c) (context c) in
          scheduleCleanup (SendersOf receiver) (clear r st)
      end
  | None => st
  end.

(** [Private.disconnectSender] *)
Definition disconnectSender (sndr : Obj) (st : Registry) : Registry :=
  match receiversForSender st !! sndr with
  | None => st
  | Some receivers =>
      if decide (length receivers = 0) then st
      else scheduleCleanup (ReceiversOf sndr) (foldl clearToReceiver st receivers)
  end.

(** The body of the [forEach] in [disconnectReceiver]. *)
Definition clearFromSender (st : Registry) (r : nat) : Registry :=
  match connections st !! r with
  | Some c =>
      match signal c with
      | None => st
      | Some s => scheduleCleanup (ReceiversOf (sender s)) (clear r st)
      end
  | None => st
  end.

(** [Private.disconnectReceiver] *)
Definition disconnectReceiver (receiver : Obj) (st : Registry) : Registry :=
  match sendersForReceiver st !! receiver with
  | None => st
  | Some senders =>
      if decide (length senders = 0) then st
      else scheduleCleanup (SendersOf receiver) (foldl clearFromSender st senders)
  end.

(** [Private.disconnectAll] *)
Definition disconnectAll (o : Obj) (st : Registry) : Registry :=
  let st1 :=
    match receiversForSender st !! o with
    | None => st
    | Some receivers =>
        if decide (length receivers = 0) then st
        else scheduleCleanup (ReceiversOf o)
               (foldl (λ acc r, clear r acc) st receivers)
    end in
  match sendersForReceiver st1 !! o with
  | None => st1
  | Some senders =>
      if decide (length senders = 0) then st1
      else scheduleCleanup (SendersOf o)
             (foldl (λ acc r, clear r acc) st1 senders)
  end.

(** [Signal.setExceptionHandler] *)
Definition setExceptionHandler (h : Obj) (st : Registry) : Obj * Registry :=
  (exceptionHandler st, with_handler h st).

(** [isDeadConnection] *)
Definition isDeadConnection (heap : list IConnection) (r : nat) : bool :=
  match heap !! r with
  | Some c => bool_decide (signal c = None)
  | None => false
  end.

(** lodash's [remove(items, isDeadConnection)] on one of the arrays. *)
Definition remove_dead (a : ArrayRef) (st : Registry) : Registry :=
  let live := filter (λ r, isDeadConnection (connections st) r = false) in
  match a with
  | ReceiversOf o => with_receivers (alter live o (receiversForSender st)) st
  | SendersOf o => with_senders (alter live o (sendersForReceiver st)) st
  end.

(** The deferred task of [connectionCleaner], run by the host between two
    calls of the client: the task leaves the host's list and [dump] runs. *)
Definition runCleanup (st : Registry) : Registry :=
  match next_task (host st) with
  | Some (CleanupTask, s) =>
      let '(c, st1) := dump remove_dead (connectionCleaner st) st in
      with_cleaner c s st1
  | None => st
  end.

(** User code: what a slot, or the client itself, does. Each node is one
    call into the library (or an access to the user's own state) followed
    by the rest of the code, which may depend on what the call returned. *)
Inductive Prog :=
| Return
| Throw (e : Err)
| Connect (s : Signal) (sl : Obj) (ctx : option Obj) (k : bool → Prog)
| Disconnect (s : Signal) (sl : Obj) (ctx : option Obj) (k : bool → Prog)
| Emit (s : Signal) (args : Args) (k : Prog)
| DisconnectBetween (sndr receiver : Obj) (k : Prog)
| DisconnectSender (o : Obj) (k : Prog)
| DisconnectReceiver (o : Obj) (k : Prog)
| DisconnectAll (o : Obj) (k : Prog)
| SetExceptionHandler (h : Obj) (k : Obj → Prog)
| GetUser (k : U → Prog)
| SetUser (u : U) (k : Prog).

(** The code of the slots: [slotBody sl ctx sndr args] is what
    [sl.call(ctx, sndr, args)] runs. *)
Variable slotBody : Obj → option Obj → Obj → Args → Prog.

(** The code of the exception handlers that a client installs:
    [handlerBody eh err] is what [eh(err)] runs. *)
Variable handlerBody : Obj → Err → Prog.

(** The dispatch record of one pass of [emit]: the connections whose slot
    the pass called, in the order of the calls, each with how the call of
    the slot ended. It is kept for the statements below; the source returns
    [void]. *)
Definition Dispatched := list (nat * Outcome).

(** The entry for a call of the exception handler that is installed. *)
Definition report (e : Err) (st : Registry) : Registry :=
  with_reported (reported st ++ [(exceptionHandler st, e)]) st.

Section Step.
(** [emit] as it is available to user code: how the call ended (an [emit]
    throws what an exception handler has thrown), the state it left and its
    dispatch record. *)
Variable emit_rec : Signal → Args → Registry → option (Outcome * Registry * Dispatched).

Fixpoint run (p : Prog) (st : Registry) : option (Outcome * Registry) :=
  match p with
  | Return => Some (Returned, st)
  | Throw e => Some (Threw e, st)
  | Connect s sl ctx k =>
      let '(b, st1) := connect s sl ctx st in run (k b) st1
  | Disconnect s sl ctx k =>
      let '(b, st1) := disconnect s sl ctx st in run (k b) st1
  | Emit s args k =>
      match emit_rec s args st with
      | Some (Returned, st1, _) => run k st1
      | Some (Threw e, st1, _) => Some (Threw e, st1)
      | None => None
      end
  | DisconnectBetween sndr receiver k => run k (disconnectBetween sndr receiver st)
  | DisconnectSender o k => run k (disconnectSender o st)
  | DisconnectReceiver o k => run k (disconnectReceiver o st)
  | DisconnectAll o k => run k (disconnectAll o st)
  | SetExceptionHandler h k =>
      let '(old, st1) := setExceptionHandler h st in run (k old) st1
  | GetUser k => run (k (user st)) st
  | SetUser u k => run k (with_user u st)
  end.

(** [exceptionHandler(err)]: the handler that is installed runs. The
    default handler, [console.error], is object [0]; it returns. *)
Definition handleException (e : Err) (st : Registry) : option (Outcome * Registry) :=
  if decide (exceptionHandler st = 0) then Some (Returned, report e st)
  else run (handlerBody (exceptionHandler st) e) (report e st).

(** [invokeSlot]: the slot runs; what it throws goes to the exception
    handler that is installed when the [catch] block runs. The call of the
    handler is not guarded: what the handler throws, [invokeSlot] throws.
    The result is how the call of the slot ended and how [invokeSlot]
    itself ended. *)
Definition invokeSlot (s : Signal) (c : IConnection) (args : Args) (st : Registry)
    : option (Outcome * Outcome * Registry) :=
  match run (slotBody (slot c) (context c) (sender s) args) st with
  | Some (Returned, st1) => Some (Returned, Returned, st1)
  | Some (Threw e, st1) =>
      match handleException e st1 with
      | Some (fin, st2) => Some (Threw e, fin, st2)
      | None => None
      end
  | None => None
  end.

(** [receivers.forEach(...)] of [emit], from index [k] on, for [n] more
    indices. The length of the array is read once, before the first
    call; the element at each index is read from the array as it is when
    the index is reached, and an index that is not there is passed over.
    When [invokeSlot] throws, [forEach] ends there and throws the same. *)
Fixpoint dispatch (s : Signal) (args : Args) (n k : nat) (st : Registry)
    : option (Outcome * Registry * Dispatched) :=
  match n with
  | 0 => Some (Returned, st, [])
  | S n' =>
      match receiversForSender st !! sender s ≫= (λ receivers, receivers !! k) with
      | None => dispatch s args n' (S k) st
      | Some r =>
          match connections st !! r with
          | None => dispatch s args n' (S k) st
          | Some c =>
              if decide (signal c = Some s) then
                match invokeSlot s c args st with
                | None => None
                | Some (o, Returned, st1) =>
                    match dispatch s args n' (S k) st1 with
                    | None => None
                    | Some (fin, st2, d) => Some (fin, st2, (r, o) :: d)
                    end
                | Some (o, Threw e, st1) => Some (Threw e, st1, [(r, o)])
                end
              else dispatch s args n' (S k) st
          end
      end
  end.

(** [Private.emit] *)
Definition emit_body (s : Signal) (args : Args) (st : Registry)
    : option (Outcome * Registry * Dispatched) :=
  match receiversForSender st !! sender s with
  | None => Some (Returned, st, [])
  | Some receivers =>
      if decide (length receivers = 0) then Some (Returned, st, [])
      else dispatch s args (length receivers) 0 st
  end.
End Step.

(** [emit] with a bound on how deep user code may call [emit] again;
    [None] is the run that exceeds the bound. *)
Fixpoint emit (depth : nat) (s : Signal) (args : Args) (st : Registry)
    : option (Outcome * Registry * Dispatched) :=
  match depth with
  | 0 => None
  | S d => emit_body (emit d) s args st
  end.

(** A client program, run from the top level. *)
Definition exec (depth : nat) (p : Prog) (st : Registry) : option (Outcome * Registry) :=
  run (emit depth) p st.

(** *** Notions used in the statements *)

(** Every index held by an array names a connection object. *)
Definition wf (st : Registry) : Prop :=
  map_Forall (λ _ l, Forall (λ r, r < length (connections st)) l) (receiversForSender st) ∧
  map_Forall (λ _ l, Forall (λ r, r < length (connections st)) l) (sendersForReceiver st).

#[global] Instance wf_dec (st : Registry) : Decision (wf st).
Proof. unfold wf. apply _. Defined.

(** The [signal] field of the connection object [r]. *)
Definition signalOf (st : Registry) (r : nat) : option Signal :=
  connections st !! r ≫= signal.

(** How the state may change while user code runs, that is, between two
    turns of the host's event loop: connection objects are added and
    cleared, arrays grow at the end, exception handlers are called. *)
Record evolves (st st' : Registry) : Prop := mkEvolves {
  evolves_conn : ∀ r c, connections st !! r = Some c →
    ∃ c', connections st' !! r = Some c' ∧ slot c' = slot c ∧ context c' = context c
          ∧ (signal c' = signal c ∨ signal c' = None);
  evolves_receivers : ∀ o l, receiversForSender st !! o = Some l →
    ∃ l', receiversForSender st' !! o = Some (l ++ l');
  evolves_senders : ∀ o l, sendersForReceiver st !! o = Some l →
    ∃ l', sendersForReceiver st' !! o = Some (l ++ l');
  evolves_reported : ∃ new, reported st' = reported st ++ new;
  evolves_wf : wf st → wf st'
}.

(** What is assumed of the [emit] that the code of a slot calls, and shown
    of [emit depth] for every [depth]. *)
Definition preserving
    (emit_rec : Signal → Args → Registry → option (Outcome * Registry * Dispatched))
    : Prop :=
  ∀ s args st fin st' d, emit_rec s args st = Some (fin, st', d) → evolves st st'.

(** User code that does not call [emit]. *)
Inductive quiet : Prog → Prop :=
| quiet_Return : quiet Return
| quiet_Throw e : quiet (Throw e)
| quiet_Connect s sl ctx k : (∀ b, quiet (k b)) → quiet (Connect s sl ctx k)
| quiet_Disconnect s sl ctx k : (∀ b, quiet (k b)) → quiet (Disconnect s sl ctx k)
| quiet_DisconnectBetween a b k : quiet k → quiet (DisconnectBetween a b k)
| quiet_DisconnectSender o k : quiet k → quiet (DisconnectSender o k)
| quiet_DisconnectReceiver o k : quiet k → quiet (DisconnectReceiver o k)
| quiet_DisconnectAll o k : quiet k → quiet (DisconnectAll o k)
| quiet_SetExceptionHandler h k : (∀ o, quiet (k o)) → quiet (SetExceptionHandler h k)
| quiet_GetUser k : (∀ u, quiet (k u)) → quiet (GetUser k)
| quiet_SetUser u k : quiet k → quiet (SetUser u k).

(** The values thrown by the slots of a pass, in the order of the calls. *)
Definition thrown (d : Dispatched) : list Err :=
  omap (λ x, match x.2 with Threw e => Some e | Returned => None end) d.

(** Two states that differ at most in the user's own state and in what
    was reported: user code that calls nothing of the library leads from
    the one to the other. *)
Definition same_registry (st st' : Registry) : Prop :=
  connections st' = connections st ∧
  receiversForSender st' = receiversForSender st ∧
  sendersForReceiver st' = sendersForReceiver st ∧
  connectionCleaner st' = connectionCleaner st ∧ host st' = host st ∧
  exceptionHandler st' = exceptionHandler st.

(** The pass as the specification words it, over the connections [l] of a
    signal, for slots and an exception handler of which it is known how
    they end: [slotOutcome r] for the slot of connection [r], and
    [handlerOutcome e] for the handler when it is given [e]. The slots are
    called in the order of [l]. The value that a slot throws goes to the
    handler, and the pass goes on with the next connection; only when the
    handler throws does the pass end there, throwing the same. *)
Fixpoint served (slotOutcome : nat → Outcome) (handlerOutcome : Err → Outcome)
    (l : list nat) : Outcome * Dispatched :=
  match l with
  | [] => (Returned, [])
  | r :: rest =>
      let '(fin, d) := served slotOutcome handlerOutcome rest in
      match slotOutcome r with
      | Returned => (fin, (r, Returned) :: d)
      | Threw e =>
          match handlerOutcome e with
          | Returned => (fin, (r, Threw e) :: d)
          | Threw e' => (Threw e', [(r, Threw e)])
          end
      end
  end.

(** The live connections of an array for a binding. *)
Definition binds (st : Registry) (s : Signal) (sl : Obj) (ctx : option Obj)
    (r : nat) : bool :=
  match connections st !! r with
  | Some c => matches s sl ctx c
  | None => false
  end.

Definition bindings (st : Registry) (l : list nat)
    (s : Signal) (sl : Obj) (ctx : option Obj) : list nat :=
  filter (λ r, binds st s sl ctx r = true) l.
End Registry.
Arguments Registry : clear implicits.
Arguments Prog : clear implicits.

End Signaling.

(** ** packages/messaging/src/MessageLoop.ts *)
Module Messaging.
Import Schedule.

Definition Obj := nat.

(** Thrown values: what user code throws, and the [TypeError] of reading a
    property of [undefined]. *)
Inductive Err := TypeError | UserError (n : nat).

(** Modelled from the spec: [Message.ts] is not among the sources. A message
    has a [type], says whether it [isConflatable], and has a method
    [conflate(other)]; the method belongs to the user's subclass and is the
    variable [conflate] below. [payload] stands for the other fields of a
    subclass. The base class has [isConflatable = false]. *)
Record Message := mkMessage {
  type : string;
  isConflatable : bool;
  payload : nat
}.

(** [type PostedMessage]. The objects are compared by identity in
    [runMessageLoop] ([posted === sentinel]); [ident] is that identity. Each
    object is held by the queue once. *)
Record PostedMessage := mkPosted {
  ident : nat;
  handler : option Obj;
  msg : option Message
}.

(** The callbacks handed to the host: [runMessageLoop] and the [dump] of
    [hookCleaner]. *)
Inductive Task := LoopTask | HookCleanupTask.

#[global] Instance Task_eq_dec : EqDecision Task.
Proof. solve_decision. Defined.

(** What a call ends with. *)
Inductive Result (R : Type) := Returned (r : R) | Threw (e : Err).
Arguments Returned {R} r.
Arguments Threw {R} e.

(** What one [sendMessage] did, kept for the statements below: the hooks
    for which [invokeHook] came back, in the order of the calls, each with
    the value [invokeHook] returned for it, and whether [processMessage] was
    called. *)
Record Delivery := mkDelivery {
  consulted : list (Obj * bool);
  delivered : bool
}.

Section Loop.
Context {U : Type}.

(** The module-level state of [namespace MessageLoop]. The hook arrays are
    named by their handler. *)
Record Loop := mkLoop {
  messageQueue : list PostedMessage;
  allocated : nat;
  messageHooks : gmap Obj (list (option Obj));
  hookCleaner : ScheduledCleaner Obj;
  host : Scheduler Task;
  loopTaskID : nat;
  flushGuard : bool;
  exceptionHandler : Obj;
  reported : list (Obj * Err);
  user : U
}.

Definition initial (u : U) : Loop :=
  {| messageQueue := []; allocated := 0; messageHooks := ∅; hookCleaner := new;
     host := idle; loopTaskID := 0; flushGuard := false; exceptionHandler := 0;
     reported := []; user := u |}.

Definition with_queue (q : list PostedMessage) (st : Loop) : Loop :=
  mkLoop q (allocated st) (messageHooks st) (hookCleaner st) (host st)
    (loopTaskID st) (flushGuard st) (exceptionHandler st) (reported st) (user st).

Definition with_allocated (n : nat) (st : Loop) : Loop :=
  mkLoop (messageQueue st) n (messageHooks st) (hookCleaner st) (host st)
    (loopTaskID st) (flushGuard st) (exceptionHandler st) (reported st) (user st).

Definition with_hooks (m : gmap Obj (list (option Obj))) (st : Loop) : Loop :=
  mkLoop (messageQueue st) (allocated st) m (hookCleaner st) (host st)
    (loopTaskID st) (flushGuard st) (exceptionHandler st) (reported st) (user st).

Definition with_cleaner (c : ScheduledCleaner Obj) (s : Scheduler Task) (st : Loop) : Loop :=
  mkLoop (messageQueue st) (allocated st) (messageHooks st) c s
    (loopTaskID st) (flushGuard st) (exceptionHandler st) (reported st) (user st).

Definition with_host (s : Scheduler Task) (st : Loop) : Loop :=
  mkLoop (messageQueue st) (allocated st) (messageHooks st) (hookCleaner st) s
    (loopTaskID st) (flushGuard st) (exceptionHandler st) (reported st) (user st).

Definition with_loopTaskID (n : nat) (st : Loop) : Loop :=
  mkLoop (messageQueue st) (allocated st) (messageHooks st) (hookCleaner st) (host st)
    n (flushGuard st) (exceptionHandler st) (reported st) (user st).

Definition with_flushGuard (b : bool) (st : Loop) : Loop :=
  mkLoop (messageQueue st) (allocated st) (messageHooks st) (hookCleaner st) (host st)
    (loopTaskID st) b (exceptionHandler st) (reported st) (user st).

Definition with_handler (h : Obj) (st : Loop) : Loop :=
  mkLoop (messageQueue st) (allocated st) (messageHooks st) (hookCleaner st) (host st)
    (loopTaskID st) (flushGuard st) h (reported st) (user st).

Definition with_reported (l : list (Obj * Err)) (st : Loop) : Loop :=
  mkLoop (messageQueue st) (allocated st) (messageHooks st) (hookCleaner st) (host st)
    (loopTaskID st) (flushGuard st) (exceptionHandler st) l (user st).

Definition with_user (u : U) (st : Loop) : Loop :=
  mkLoop (messageQueue st) (allocated st) (messageHooks st) (hookCleaner st) (host st)
    (loopTaskID st) (flushGuard st) (exceptionHandler st) (reported st) u.

(** The entry for a call of the exception handler that is installed. *)
Definition report (e : Err) (st : Loop) : Loop :=
  with_reported (reported st ++ [(exceptionHandler st, e)]) st.

(** [m.conflate(other)]: what the call returns and what [m] is after it.
    The method is taken to read the two messages, to change at most [m], and
    to return. *)
Variable conflate : Message → Message → bool * Message.

(** [enqueueMessage] *)
Definition enqueueMessage (h : Obj) (m : Message) (st : Loop) : Loop :=
  let posted := {| ident := allocated st; handler := Some h; msg := Some m |} in
  let st1 := with_allocated (S (allocated st)) (with_queue (messageQueue st ++ [posted]) st) in
  if decide (loopTaskID st1 ≠ 0) then st1
  else
    let '(id, s) := schedule LoopTask (host st1) in
    with_loopTaskID id (with_host s st1).

(** The [messageQueue.some(...)] of [postMessage]: the result of [some],
    the queue after the calls of [conflate], and the entries [conflate]
    was called on, in the order of the calls, with what it returned. *)
Fixpoint conflateSome (h : Obj) (m : Message) (q : list PostedMessage)
    : bool * list PostedMessage * list (nat * bool) :=
  match q with
  | [] => (false, [], [])
  | posted :: rest =>
      let skip :=
        let '(b, rest', calls) := conflateSome h m rest in
        (b, posted :: rest', calls) in
      if decide (handler posted ≠ Some h) then skip
      else
        match msg posted with
        | None => skip
        | Some pm =>
            if decide (type pm ≠ type m) then skip
            else if negb (isConflatable pm) then skip
            else
              let '(b, pm') := conflate pm m in
              let posted' := {| ident := ident posted; handler := handler posted;
                                msg := Some pm' |} in
              if b then (true, posted' :: rest, [(ident posted, true)])
              else
                let '(b', rest', calls) := conflateSome h m rest in
                (b', posted' :: rest', (ident posted, false) :: calls)
        end
  end.

(** [postMessage] *)
Definition postMessage (h : Obj) (m : Message) (st : Loop) : Loop :=
  if negb (isConflatable m) then enqueueMessage h m st
  else
    let '(conflated, q, _) := conflateSome h m (messageQueue st) in
    let st1 := with_queue q st in
    if conflated then st1 else enqueueMessage h m st1.

(** [hooks.indexOf(hook)] *)
Definition indexOf (hook : Obj) (hooks : list (option Obj)) : option nat :=
  fst <$> list_find (λ x, x = Some hook) hooks.

(** [installMessageHook] *)
Definition installMessageHook (h hook : Obj) (st : Loop) : Loop :=
  match messageHooks st !! h with
  | None => with_hooks (<[h := [Some hook]]> (messageHooks st)) st
  | Some hooks =>
      match indexOf hook hooks with
      | Some _ => st
      | None => with_hooks (<[h := hooks ++ [Some hook]]> (messageHooks st)) st
      end
  end.

(** [hookCleaner.clean(hooks)] *)
Definition cleanHooks (h : Obj) (st : Loop) : Loop :=
  let '(c, s) := clean HookCleanupTask h (hookCleaner st) (host st) in
  with_cleaner c s st.

(** [removeMessageHook] *)
Definition removeMessageHook (h hook : Obj) (st : Loop) : Loop :=
  match messageHooks st !! h with
  | None => st
  | Some hooks =>
      match indexOf hook hooks with
      | None => st
      | Some i =>
          cleanHooks h (with_hooks (<[h := <[i := None]> hooks]> (messageHooks st)) st)
      end
  end.

(** The body of the [forEach] in [clearData]. *)
Definition clearPosted (h : Obj) (posted : PostedMessage) : PostedMessage :=
  if decide (handler posted = Some h)
  then {| ident := ident posted; handler := None; msg := None |}
  else posted.

(** [clearData] *)
Definition clearData (h : Obj) (st : Loop) : Loop :=
  let st1 :=
    match messageHooks st !! h with
    | None => st
    | Some hooks =>
        if decide (length hooks = 0) then st
        else cleanHooks h
               (with_hooks (<[h := replicate (length hooks) None]> (messageHooks st)) st)
    end in
  with_queue (clearPosted h <$> messageQueue st1) st1.

(** [setExceptionHandler] *)
Definition setExceptionHandler (h : Obj) (st : Loop) : Obj * Loop :=
  (exceptionHandler st, with_handler h st).

(** lodash's [remove(hooks, isNullHook)] on the hook array of [h]. *)
Definition remove_null (h : Obj) (st : Loop) : Loop :=
  with_hooks (alter (filter (λ x : option Obj, x ≠ None)) h (messageHooks st)) st.

(** User code: what a handler, a hook or the client does; [R] is what the
    code returns when it does not throw. *)
Inductive Prog (R : Type) :=
| Ret (r : R)
| Throw (e : Err)
| SendMessage (h : Obj) (m : Message) (k : Prog R)
| PostMessage (h : Obj) (m : Message) (k : Prog R)
| InstallMessageHook (h hook : Obj) (k : Prog R)
| RemoveMessageHook (h hook : Obj) (k : Prog R)
| ClearData (h : Obj) (k : Prog R)
| Flush (k : Prog R)
| SetExceptionHandler (h : Obj) (k : Obj → Prog R)
| GetUser (k : U → Prog R)
| SetUser (u : U) (k : Prog R).
Arguments Ret {R} r.
Arguments Throw {R} e.
Arguments SendMessage {R} h m k.
Arguments PostMessage {R} h m k.
Arguments InstallMessageHook {R} h hook k.
Arguments RemoveMessageHook {R} h hook k.
Arguments ClearData {R} h k.
Arguments Flush {R} k.
Arguments SetExceptionHandler {R} h k.
Arguments GetUser {R} k.
Arguments SetUser {R} u k.

(** [handler.processMessage(msg)] *)
Variable processMessage : Obj → Message → Prog unit.

(** [hook(handler, msg)], or [hook.messageHook(handler, msg)] for a hook
    that is an object. *)
Variable messageHook : Obj → Obj → Message → Prog bool.

(** The code of the exception handlers that a client installs:
    [handlerBody eh err] is what [eh(err)] runs. *)
Variable handlerBody : Obj → Err → Prog unit.

(** The two entry points that run user code, as user code may call them. *)
Inductive Call := CallSend (h : Obj) (m : Message) | CallFlush.

(** The posted messages one run of the loop handed to [sendMessage], in
    that order, each with what came of it. *)
Definition Drained := list (PostedMessage * Delivery).

Section Step.
Variable call_rec : Call → Loop → option (Result unit * Loop).

Fixpoint run {R : Type} (p : Prog R) (st : Loop) : option (Result R * Loop) :=
  match p with
  | Ret r => Some (Returned r, st)
  | Throw e => Some (Threw e, st)
  | SendMessage h m k =>
      match call_rec (CallSend h m) st with
      | Some (Returned _, st1) => run k st1
      | Some (Threw e, st1) => Some (Threw e, st1)
      | None => None
      end
  | PostMessage h m k => run k (postMessage h m st)
  | InstallMessageHook h hook k => run k (installMessageHook h hook st)
  | RemoveMessageHook h hook k => run k (removeMessageHook h hook st)
  | ClearData h k => run k (clearData h st)
  | Flush k =>
      match call_rec CallFlush st with
      | Some (Returned _, st1) => run k st1
      | Some (Threw e, st1) => Some (Threw e, st1)
      | None => None
      end
  | SetExceptionHandler h k =>
      let '(old, st1) := setExceptionHandler h st in run (k old) st1
  | GetUser k => run (k (user st)) st
  | SetUser u k => run k (with_user u st)
  end.

(** [exceptionHandler(err)]: the handler that is installed runs. The
    default handler, [console.error], is object [0]; it returns. *)
Definition handleException (e : Err) (st : Loop) : option (Result unit * Loop) :=
  if decide (exceptionHandler st = 0) then Some (Returned (), report e st)
  else run (handlerBody (exceptionHandler st) e) (report e st).

(** [invokeHook]. The call of the exception handler is not guarded: what
    the handler throws, [invokeHook] throws. *)
Definition invokeHook (hook h : Obj) (m : Message) (st : Loop)
    : option (Result bool * Loop) :=
  match run (messageHook hook h m) st with
  | Some (Returned result, st1) => Some (Returned result, st1)
  | Some (Threw e, st1) =>
      match handleException e st1 with
      | Some (Returned _, st2) => Some (Returned true, st2)
      | Some (Threw e', st2) => Some (Threw e', st2)
      | None => None
      end
  | None => None
  end.

(** [invokeHandler], with the same unguarded call of the exception
    handler. *)
Definition invokeHandler (h : Obj) (m : Message) (st : Loop)
    : option (Result unit * Loop) :=
  match run (processMessage h m) st with
  | Some (Returned _, st1) => Some (Returned (), st1)
  | Some (Threw e, st1) => handleException e st1
  | None => None
  end.

(** The [every(...)] of [sendMessage], over the private copy of the hook
    array; [hook ? invokeHook(hook, handler, msg) : true]. When
    [invokeHook] throws, [every] ends there and throws the same. *)
Fixpoint everyHook (hooks : list (option Obj)) (h : Obj) (m : Message) (st : Loop)
    : option (Result bool * list (Obj * bool) * Loop) :=
  match hooks with
  | [] => Some (Returned true, [], st)
  | None :: rest => everyHook rest h m st
  | Some hook :: rest =>
      match invokeHook hook h m st with
      | None => None
      | Some (Threw e, st1) => Some (Threw e, [], st1)
      | Some (Returned false, st1) => Some (Returned false, [(hook, false)], st1)
      | Some (Returned true, st1) =>
          match everyHook rest h m st1 with
          | None => None
          | Some (passed, called, st2) => Some (passed, (hook, true) :: called, st2)
          end
      end
  end.

(** [sendMessage]: how the call ended (it throws what an exception handler
    has thrown), what it did, and the state it left. *)
Definition sendMessage (h : Obj) (m : Message) (st : Loop)
    : option (Result unit * Delivery * Loop) :=
  let deliver (called : list (Obj * bool)) (st0 : Loop) :=
    match invokeHandler h m st0 with
    | Some (r, st1) => Some (r, {| consulted := called; delivered := true |}, st1)
    | None => None
    end in
  match messageHooks st !! h with
  | None => deliver [] st
  | Some hooks =>
      if decide (length hooks = 0) then deliver [] st
      else
        match everyHook (reverse hooks) h m st with
        | None => None
        | Some (Returned true, called, st1) => deliver called st1
        | Some (Returned false, called, st1) =>
            Some (Returned (), {| consulted := called; delivered := false |}, st1)
        | Some (Threw e, called, st1) =>
            Some (Threw e, {| consulted := called; delivered := false |}, st1)
        end
  end.

(** The [while (true)] of [runMessageLoop], for at most [n] rounds.
    [messageQueue.shift()] on the empty queue gives [undefined], and
    reading [posted.handler] then throws. What [sendMessage] throws ends
    the loop, with the rest of the queue and the sentinel where they are. *)
Fixpoint loopBody (n : nat) (sentinel : nat) (st : Loop)
    : option (Result unit * Loop * Drained) :=
  match n with
  | 0 => None
  | S n' =>
      match messageQueue st with
      | [] => Some (Threw TypeError, st, [])
      | posted :: rest =>
          let st1 := with_queue rest st in
          if decide (ident posted = sentinel) then Some (Returned (), st1, [])
          else
            match handler posted, msg posted with
            | Some h, Some m =>
                match sendMessage h m st1 with
                | None => None
                | Some (Returned _, dl, st2) =>
                    match loopBody n' sentinel st2 with
                    | None => None
                    | Some (r, st3, ds) => Some (r, st3, (posted, dl) :: ds)
                    end
                | Some (Threw e, dl, st2) => Some (Threw e, st2, [(posted, dl)])
                end
            | _, _ => loopBody n' sentinel st1
            end
      end
  end.

(** [runMessageLoop] *)
Definition runMessageLoop (n : nat) (st : Loop) : option (Result unit * Loop * Drained) :=
  let st1 := with_loopTaskID 0 st in
  if decide (length (messageQueue st1) = 0) then Some (Returned (), st1, [])
  else
    let sentinel := {| ident := allocated st1; handler := None; msg := None |} in
    let st2 := with_allocated (S (allocated st1))
                 (with_queue (messageQueue st1 ++ [sentinel]) st1) in
    loopBody n (ident sentinel) st2.

(** [flush]. There is no [finally]: when the run of the loop throws, the
    guard stays up. *)
Definition flush (n : nat) (st : Loop) : option (Result unit * Loop * Drained) :=
  if flushGuard st || bool_decide (loopTaskID st = 0) then Some (Returned (), st, [])
  else
    let st1 := with_host (unschedule (loopTaskID st) (host st)) st in
    match runMessageLoop n (with_flushGuard true st1) with
    | None => None
    | Some (Returned _, st2, ds) => Some (Returned (), with_flushGuard false st2, ds)
    | Some (Threw e, st2, ds) => Some (Threw e, st2, ds)
    end.
End Step.

(** The entry points with a bound on the depth of re-entrant calls and on
    the rounds of each loop; [None] is the run that exceeds the bound. *)
Fixpoint call (fuel : nat) (c : Call) (st : Loop) : option (Result unit * Loop) :=
  match fuel with
  | 0 => None
  | S f =>
      match c with
      | CallSend h m =>
          match sendMessage (call f) h m st with
          | Some (r, _, st1) => Some (r, st1)
          | None => None
          end
      | CallFlush =>
          match flush (call f) fuel st with
          | Some (r, st1, _) => Some (r, st1)
          | None => None
          end
      end
  end.

(** A client program, run from the top level. *)
Definition exec {R : Type} (fuel : nat) (p : Prog R) (st : Loop) : option (Result R * Loop) :=
  run (call fuel) p st.

(** A turn of the host's event loop: the oldest pending callback runs. *)
Definition turn (fuel : nat) (st : Loop) : option (Result unit * Loop * Drained) :=
  match next_task (host st) with
  | None => Some (Returned (), st, [])
  | Some (LoopTask, s) => runMessageLoop (call fuel) fuel (with_host s st)
  | Some (HookCleanupTask, s) =>
      let '(c, st1) := dump remove_null (hookCleaner st) st in
      Some (Returned (), with_cleaner c s st1, [])
  end.

(** *** Notions used in the statements *)

(** The hooks of an array that are not cleared, newest first: the order in
    which [sendMessage] goes through them. *)
Definition chain (hooks : list (option Obj)) : list Obj :=
  omap id (reverse hooks).

(** The outcome of going through a chain [c]: either every hook was called
    and returned [true], or the hooks up to one that returned [false] were
    called and no hook after it. *)
Definition chain_outcome (c : list Obj) (passed : bool) (called : list (Obj * bool)) : Prop :=
  (passed = true ∧ called.*1 = c ∧ Forall (λ x, x.2 = true) called) ∨
  (passed = false ∧ ∃ pre hook rest,
     c = pre.*1 ++ hook :: rest ∧ called = pre ++ [(hook, false)] ∧
     Forall (λ x, x.2 = true) pre).

(** Two states of the loop that differ at most in what user code may touch
    without calling the loop: its own state, the exception handler and what
    was reported to it. *)
Definition same_loop (st st' : Loop) : Prop :=
  messageQueue st' = messageQueue st ∧ allocated st' = allocated st ∧
  messageHooks st' = messageHooks st ∧ hookCleaner st' = hookCleaner st ∧
  host st' = host st ∧ loopTaskID st' = loopTaskID st ∧ flushGuard st' = flushGuard st.

(** Two states of the loop that differ at most in the user's own state and
    in what was reported. *)
Definition same_handler (st st' : Loop) : Prop :=
  same_loop st st' ∧ exceptionHandler st' = exceptionHandler st.

(** The chain as the specification words it, over the hooks [c] of a
    handler, newest first, for hooks and an exception handler of which it is
    known how they end: [verdict hook] for a hook, and [handled e] for the
    exception handler when it is given [e]. The hooks are asked in the order
    of [c]; the first that returns [false] ends the chain. The value that a
    hook throws goes to the exception handler, and the hook counts as one
    that returned [true]; only when the exception handler throws does the
    chain end there, throwing the same. The result is how the chain ended,
    the hooks that gave an answer, and the values that went to the exception
    handler. *)
Fixpoint consult (verdict : Obj → Result bool) (handled : Err → Result unit)
    (c : list Obj) : Result bool * list (Obj * bool) * list Err :=
  match c with
  | [] => (Returned true, [], [])
  | hook :: rest =>
      let '(r, called, errs) := consult verdict handled rest in
      match verdict hook with
      | Returned false => (Returned false, [(hook, false)], [])
      | Returned true => (r, (hook, true) :: called, errs)
      | Threw e =>
          match handled e with
          | Returned _ => (r, (hook, true) :: called, e :: errs)
          | Threw e' => (Threw e', [], [e])
          end
      end
  end.

(** [sendMessage] as the specification words it: the chain, and then
    [processMessage], which ends with [outcome], unless a hook has returned
    [false]. *)
Definition sent (verdict : Obj → Result bool) (handled : Err → Result unit)
    (outcome : Result unit) (c : list Obj) : Result unit * Delivery * list Err :=
  match consult verdict handled c with
  | (Returned true, called, errs) =>
      match outcome with
      | Returned _ => (Returned (), {| consulted := called; delivered := true |}, errs)
      | Threw e => (handled e, {| consulted := called; delivered := true |}, errs ++ [e])
      end
  | (Returned false, called, errs) =>
      (Returned (), {| consulted := called; delivered := false |}, errs)
  | (Threw e', called, errs) =>
      (Threw e', {| consulted := called; delivered := false |}, errs)
  end.

(** What [conflate] answers for a queue entry that qualifies for the posted
    message: same handler, a message that is there, of the same type and
    conflatable. *)
Definition answer (h : Obj) (m : Message) (posted : PostedMessage) : option (nat * bool) :=
  match handler posted, msg posted with
  | Some h', Some pm =>
      if decide (h' = h) then
        if decide (type pm = type m) then
          if isConflatable pm then Some (ident posted, (conflate pm m).1) else None
        else None
      else None
  | _, _ => None
  end.

(** The scan as the specification words it: the candidates are asked from
    the front; the first that answers [true] ends the scan, one that answers
    [false] does not. *)
Fixpoint upto_first (answers : list (nat * bool)) : list (nat * bool) :=
  match answers with
  | [] => []
  | (i, true) :: _ => [(i, true)]
  | (i, false) :: rest => (i, false) :: upto_first rest
  end.

(** User code that makes no call into the message loop. *)
Inductive quiet {R : Type} : Prog R → Prop :=
| quiet_Ret r : quiet (Ret r)
| quiet_Throw e : quiet (Throw e)
| quiet_SetExceptionHandler h k : (∀ o, quiet (k o)) → quiet (SetExceptionHandler h k)
| quiet_GetUser k : (∀ u, quiet (k u)) → quiet (GetUser k)
| quiet_SetUser u k : quiet k → quiet (SetUser u k).

(** User code that makes no call into the message loop and does not
    throw. *)
Inductive calm {R : Type} : Prog R → Prop :=
| calm_Ret r : calm (Ret r)
| calm_SetExceptionHandler h k : (∀ o, calm (k o)) → calm (SetExceptionHandler h k)
| calm_GetUser k : (∀ u, calm (k u)) → calm (GetUser k)
| calm_SetUser u k : calm k → calm (SetUser u k).

(** User code that calls neither [sendMessage] nor [flush], the two entry
    points that run user code in their turn. *)
Inductive shallow {R : Type} : Prog R → Prop :=
| shallow_Ret r : shallow (Ret r)
| shallow_Throw e : shallow (Throw e)
| shallow_PostMessage h m k : shallow k → shallow (PostMessage h m k)
| shallow_InstallMessageHook h hook k : shallow k → shallow (InstallMessageHook h hook k)
| shallow_RemoveMessageHook h hook k : shallow k → shallow (RemoveMessageHook h hook k)
| shallow_ClearData h k : shallow k → shallow (ClearData h k)
| shallow_SetExceptionHandler h k :
    (∀ o, shallow (k o)) → shallow (SetExceptionHandler h k)
| shallow_GetUser k : (∀ u, shallow (k u)) → shallow (GetUser k)
| shallow_SetUser u k : shallow k → shallow (SetUser u k).

(** User code that does not call [flush]. *)
Inductive flush_free {R : Type} : Prog R → Prop :=
| ff_Ret r : flush_free (Ret r)
| ff_Throw e : flush_free (Throw e)
| ff_SendMessage h m k : flush_free k → flush_free (SendMessage h m k)
| ff_PostMessage h m k : flush_free k → flush_free (PostMessage h m k)
| ff_InstallMessageHook h hook k : flush_free k → flush_free (InstallMessageHook h hook k)
| ff_RemoveMessageHook h hook k : flush_free k → flush_free (RemoveMessageHook h hook k)
| ff_ClearData h k : flush_free k → flush_free (ClearData h k)
| ff_SetExceptionHandler h k :
    (∀ o, flush_free (k o)) → flush_free (SetExceptionHandler h k)
| ff_GetUser k : (∀ u, flush_free (k u)) → flush_free (GetUser k)
| ff_SetUser u k : flush_free k → flush_free (SetUser u k).

(** No handler, no hook and no exception handler calls [flush]. *)
Definition never_flushes : Prop :=
  (∀ h m, flush_free (processMessage h m)) ∧
  (∀ hook h m, flush_free (messageHook hook h m)) ∧
  (∀ eh e, flush_free (handlerBody eh e)).

(** User code that has no [throw] of its own. *)
Inductive throwless {R : Type} : Prog R → Prop :=
| tl_Ret r : throwless (Ret r)
| tl_SendMessage h m k : throwless k → throwless (SendMessage h m k)
| tl_PostMessage h m k : throwless k → throwless (PostMessage h m k)
| tl_InstallMessageHook h hook k : throwless k → throwless (InstallMessageHook h hook k)
| tl_RemoveMessageHook h hook k : throwless k → throwless (RemoveMessageHook h hook k)
| tl_ClearData h k : throwless k → throwless (ClearData h k)
| tl_Flush k : throwless k → throwless (Flush k)
| tl_SetExceptionHandler h k :
    (∀ o, throwless (k o)) → throwless (SetExceptionHandler h k)
| tl_GetUser k : (∀ u, throwless (k u)) → throwless (GetUser k)
| tl_SetUser u k : throwless k → throwless (SetUser u k).

(** No exception handler throws. *)
Definition never_rethrows : Prop := ∀ eh e, throwless (handlerBody eh e).

(** How the state of the loop changes while user code runs and no run of
    the loop starts: the guard stays as it is, and the queue keeps its
    entries, as the objects they are, and gets new objects at its end. *)
Record grows (st st' : Loop) : Prop := mkGrows {
  grows_guard : flushGuard st' = flushGuard st;
  grows_allocated : allocated st ≤ allocated st';
  grows_queue : ∃ added,
    ident <$> messageQueue st' = (ident <$> messageQueue st) ++ added ∧
    Forall (λ i, allocated st ≤ i < allocated st') added
}.

(** What is assumed of the entry points that user code calls, and shown of
    [call fuel] for every [fuel]: under the guard of [flush], or for a
    [sendMessage] when no user code calls [flush], the state grows, and the
    call returns when no exception handler throws. *)
Definition tame (call_rec : Call → Loop → option (Result unit * Loop)) : Prop :=
  ∀ c st r st',
    flushGuard st = true ∨ (never_flushes ∧ c ≠ CallFlush) →
    call_rec c st = Some (r, st') →
    grows st st' ∧ (never_rethrows → r = Returned ()).

(** The client posts the messages of a list, in the order of the list. *)
Definition postAll (ps : list (Obj * Message)) (st : Loop) : Loop :=
  foldl (λ acc p, postMessage p.1 p.2 acc) st ps.

(** The queue entries for a list of posts, the first of them being the
    [n]-th [PostedMessage] object that is created. *)
Fixpoint postedEntries (n : nat) (ps : list (Obj * Message)) : list PostedMessage :=
  match ps with
  | [] => []
  | p :: rest =>
      {| ident := n; handler := Some p.1; msg := Some p.2 |} :: postedEntries (S n) rest
  end.

(** [posted.handler && posted.msg] *)
Definition uncleared (posted : PostedMessage) : bool :=
  match handler posted, msg posted with
  | Some _, Some _ => true
  | _, _ => false
  end.

(** What [conflate] may not change of a queue entry: which object it is,
    whose it is, and whether it is cleared. *)
Definition shape (posted : PostedMessage) : nat * option Obj * bool :=
  (ident posted, handler posted, uncleared posted).

(** None of the posts of a list is conflated with an entry of the queue as
    it is when the post is made. *)
Fixpoint never_conflated (ps : list (Obj * Message)) (st : Loop) : Prop :=
  match ps with
  | [] => True
  | p :: rest =>
      (isConflatable p.2 = false ∨ (conflateSome p.1 p.2 (messageQueue st)).1.1 = false) ∧
      never_conflated rest (postMessage p.1 p.2 st)
  end.

(** Every entry of the queue was created before the next object to be. *)
Definition fresh (st : Loop) : Prop :=
  Forall (λ posted, ident posted < allocated st) (messageQueue st).
End Loop.
Arguments Loop : clear implicits.
Arguments Prog : clear implicits.
Arguments Ret {U R} r.
Arguments Throw {U R} e.
Arguments SendMessage {U R} h m k.
Arguments PostMessage {U R} h m k.
Arguments InstallMessageHook {U R} h hook k.
Arguments RemoveMessageHook {U R} h hook k.
Arguments ClearData {U R} h k.
Arguments Flush {U R} k.
Arguments SetExceptionHandler {U R} h k.
Arguments GetUser {U R} k.
Arguments SetUser {U R} u k.

End Messaging.


(* ===================================================================== *)
(** * Part II: the scenarios of the test suites                           *)
(* ===================================================================== *)

(** ** packages/signaling/test/index.spec.ts *)
Module SignalingTests.
Import Signaling.

(** [TestObject], its signals [one] and [three], three [TestHandler]s, and
    the objects [adder] and [remover] of the tests on [emit]. *)
Definition obj : Obj := 1.
Definition handler1 : Obj := 11.
Definition handler2 : Obj := 12.
Definition handler3 : Obj := 13.
Definition adder : Obj := 14.
Definition remover : Obj := 15.

Definition one : Signal := {| sig_id := 1; sender := obj |}.
Definition three : Signal := {| sig_id := 3; sender := obj |}.

(** The slots. *)
Definition onOne : Obj := 21.
Definition onThree : Obj := 23.
Definition onThrow : Obj := 24.
Definition add : Obj := 25.
Definition remove : Obj := 26.

(** The user's state is the array [names] that [onThree] pushes to; a
    handler's name stands for the handler. *)
Definition Names := list Obj.

Definition body (sl : Obj) (ctx : option Obj) (sndr : Obj) (args : Args) : Prog Names :=
  if decide (sl = onThree) then
    GetUser (λ names, SetUser (names ++ [default 0 ctx]) Return)
  else if decide (sl = onThrow) then Throw 0
  else if decide (sl = add) then Connect three onThree (Some handler3) (λ _, Return)
  else if decide (sl = remove) then Disconnect three onThree (Some handler3) (λ _, Return)
  else Return.

(** The exception handlers: the default one, [logger], which returns as
    the default one does, and [rethrower], which throws what it is given. *)
Definition rethrower : Obj := 31.
Definition logger : Obj := 32.

Definition onError (eh : Obj) (e : Err) : Prog Names :=
  if decide (eh = rethrower) then Throw e else Return.

Definition after (p : Prog Names) : Registry Names :=
  match exec body onError 1 p (initial []) with
  | Some (_, st) => st
  | None => initial []
  end.

(** 'should catch any exceptions in handlers' *)
Definition connected_with_throw : Registry Names := Eval vm_compute in
  after (Connect three onThree (Some handler1) (λ _,
         Connect three onThrow (Some handler2) (λ _,
         Connect three onThree (Some handler3) (λ _, Return)))).

(** The same connections, with the handler [logger] installed. *)
Definition connected_with_logger : Registry Names := Eval vm_compute in
  after (Connect three onThree (Some handler1) (λ _,
         Connect three onThrow (Some handler2) (λ _,
         Connect three onThree (Some handler3) (λ _,
         SetExceptionHandler logger (λ _, Return))))).

(** The same connections, with the handler [rethrower] installed. *)
Definition connected_with_rethrower : Registry Names := Eval vm_compute in
  after (Connect three onThree (Some handler1) (λ _,
         Connect three onThrow (Some handler2) (λ _,
         Connect three onThree (Some handler3) (λ _,
         SetExceptionHandler rethrower (λ _, Return))))).

(** 'should not invoke signals added during emission' *)
Definition connected_with_adder : Registry Names := Eval vm_compute in
  after (Connect three onThree (Some handler1) (λ _,
         Connect three onThree (Some handler2) (λ _,
         Connect three add (Some adder) (λ _, Return)))).

(** 'should not invoke signals removed during emission' *)
Definition connected_with_remover : Registry Names := Eval vm_compute in
  after (Connect three onThree (Some handler1) (λ _,
         Connect three onThree (Some handler2) (λ _,
         Connect three remove (Some remover) (λ _,
         Connect three onThree (Some handler3) (λ _, Return))))).

(** 'should return false on failure' *)
Definition connected_once : Registry Names := Eval vm_compute in
  after (Connect one onOne (Some handler1) (λ _, Return)).

End SignalingTests.

(** ** packages/messaging/test/index.spec.ts *)
Module MessagingTests.
Import Messaging.

(** What the handlers and hooks of the tests record: who saw which type of
    message, in the order of the calls. *)
Definition Log := list (Obj * string).

Definition handler1 : Obj := 1.
Definition handler2 : Obj := 2.
Definition handler3 : Obj := 3.

Definition logHook1 : Obj := 31.
Definition logHook2 : Obj := 32.
Definition logHook3 : Obj := 33.

(** [new Message(type)] and [new ConflatableMessage(type)] *)
Definition plain (t : string) : Message :=
  {| type := t; isConflatable := false; payload := 0 |}.
Definition conflatable (t : string) : Message :=
  {| type := t; isConflatable := true; payload := 0 |}.

(** A conflatable message of a subclass that conflates with a message of
    the same revision only. *)
Definition revised (t : string) (revision : nat) : Message :=
  {| type := t; isConflatable := true; payload := revision |}.

(** [conflate] of the classes above: [false] for [Message], [true] for
    [ConflatableMessage], the comparison of the revisions for the subclass. *)
Definition conflate (pm m : Message) : bool * Message :=
  (isConflatable pm && bool_decide (payload pm = payload m), pm).

Definition record {R : Type} (who : Obj) (m : Message) (k : Prog Log R) : Prog Log R :=
  GetUser (λ log, SetUser (log ++ [(who, type m)]) k).

(** [Handler.processMessage] *)
Definition logMessage (h : Obj) (m : Message) : Prog Log unit :=
  record h m (Ret ()).

(** [LogHook.messageHook] with [preventTypes = ['one']] *)
Definition logHook (hook h : Obj) (m : Message) : Prog Log bool :=
  record hook m (Ret (negb (String.eqb (type m) "one"))).

(** Hooks that change the hook array of the handler while they run:
    [pruner] removes the hook [spy] and installs the hook [latecomer];
    [thrower] throws. *)
Definition pruner : Obj := 34.
Definition spy : Obj := 35.
Definition latecomer : Obj := 36.
Definition thrower : Obj := 37.

Definition meddlingHook (hook h : Obj) (m : Message) : Prog Log bool :=
  record hook m
    (if decide (hook = pruner) then
       RemoveMessageHook h spy (InstallMessageHook h latecomer (Ret true))
     else if decide (hook = thrower) then Throw (UserError 0)
     else Ret true).

(** A handler that, on a message, posts a message to [handler2] and calls
    [flush]. *)
Definition eager : Obj := 7.

Definition eagerMessage (h : Obj) (m : Message) : Prog Log unit :=
  record h m
    (if decide (h = eager) then PostMessage handler2 (plain "late") (Flush (Ret ()))
     else Ret ()).

(** The exception handlers: handlers that return, as the default one does,
    and handlers among which [rethrower] throws what it is given. *)
Definition rethrower : Obj := 41.

Definition onError (eh : Obj) (e : Err) : Prog Log unit := Ret ().

Definition rethrow (eh : Obj) (e : Err) : Prog Log unit :=
  if decide (eh = rethrower) then Throw e else Ret ().

Definition after (p : Prog Log unit) : Loop Log :=
  match exec conflate logMessage logHook onError 1 p (initial []) with
  | Some (_, st) => st
  | None => initial []
  end.

(** 'should obey global order of posted messages' *)
Definition six_posts : list (Obj * Message) :=
  [(handler3, plain "one"); (handler1, plain "two"); (handler2, plain "three");
   (handler1, plain "A"); (handler2, plain "B"); (handler3, plain "C")].

(** 'should stop dispatching on the first `false` hook result' *)
Definition three_hooks : Loop Log := Eval vm_compute in
  after (InstallMessageHook handler1 logHook1
        (InstallMessageHook handler1 logHook2
        (InstallMessageHook handler1 logHook3 (Ret ())))).

(** A handler with the hooks [spy] and [pruner], installed in that order,
    and a cleared entry left by a hook removed before them. *)
Definition meddled : Loop Log := Eval vm_compute in
  after (InstallMessageHook handler1 logHook1
        (InstallMessageHook handler1 spy
        (InstallMessageHook handler1 pruner
        (RemoveMessageHook handler1 logHook1 (Ret ()))))).

(** A queue with two conflatable messages of one type for [handler1], of
    revisions 1 and 2, behind a plain message of that type. *)
Definition revisions : Loop Log := Eval vm_compute in
  after (PostMessage handler1 (plain "update")
        (PostMessage handler1 (revised "update" 1)
        (PostMessage handler1 (revised "update" 2) (Ret ())))).

(** A handler with the hooks [logHook1] and [thrower], installed in that
    order, and the exception handler [rethrower] installed. *)
Definition thrower_installed : Prog Log unit :=
  InstallMessageHook handler1 logHook1 (InstallMessageHook handler1 thrower (Ret ())).

Definition thrower_hooked : Loop Log := Eval vm_compute in after thrower_installed.

Definition thrower_rethrown : Loop Log := Eval vm_compute in
  after (InstallMessageHook handler1 logHook1
        (InstallMessageHook handler1 thrower
        (SetExceptionHandler rethrower (λ _, Ret ())))).

(** One message posted to the handler [eager]. *)
Definition eager_posted : Loop Log := Eval vm_compute in
  after (PostMessage eager (plain "x") (Ret ())).

End MessagingTests.


(* ===================================================================== *)
(** * Part II, continued: the program at work                             *)
(* ===================================================================== *)

(** ** A cleaner, its client and the host *)
Module Cleaning.
Import Schedule.

Section World.
Context {A T Task : Type} `{Countable A} `{EqDecision Task}.

(** The predicate handed to the constructor. *)
Variable shouldRemove : T → bool.

(** The closure [() => { this.dump() }] that [clean] hands to the host. *)
Variable dump_cb : Task.

(** lodash's [remove(items, shouldRemove)] on the array named [a]: the
    elements for which the predicate holds leave the array, the others keep
    their places relative to each other. *)
Definition lodash_remove (a : A) (arrays : gmap A (list T)) : gmap A (list T) :=
  alter (filter (λ x, shouldRemove x = false)) a arrays.

(** A cleaner, the host it schedules its callback with, and the arrays of
    its client. *)
Record World := mkWorld {
  cleaner : ScheduledCleaner A;
  events : Scheduler Task;
  arrays : gmap A (list T)
}.

(** [new ScheduledCleaner(shouldRemove)] over the arrays of the client. *)
Definition start (arrays : gmap A (list T)) : World :=
  {| cleaner := new; events := idle; arrays := arrays |}.

(** The host runs its oldest pending callback. A callback that is not the
    cleaner's leaves the cleaner and the arrays alone. *)
Definition fire (w : World) : World :=
  match next_task (events w) with
  | None => w
  | Some (cb, s) =>
      if decide (cb = dump_cb) then
        let '(c, st) := dump lodash_remove (cleaner w) (arrays w) in
        {| cleaner := c; events := s; arrays := st |}
      else {| cleaner := cleaner w; events := s; arrays := arrays w |}
  end.

(** What happens to a cleaner that is never cancelled: the client calls
    [clean] or [flush], or the host runs a callback. *)
Inductive Event := DoClean (items : A) | DoFlush | Fire.

Definition happen (w : World) (e : Event) : World :=
  match e with
  | DoClean items =>
      let '(c, s) := clean dump_cb items (cleaner w) (events w) in
      {| cleaner := c; events := s; arrays := arrays w |}
  | DoFlush =>
      let '(c, s, st) := flush lodash_remove (cleaner w) (events w) (arrays w) in
      {| cleaner := c; events := s; arrays := st |}
  | Fire => fire w
  end.

Definition happens (es : list Event) (w : World) : World := foldl happen w es.

(** What holds of a cleaner that is never cancelled, whenever its client
    or the host is about to act: the host holds the callback of the cleaner
    exactly while the pending set is not empty, under the handle that the
    cleaner keeps. *)
Definition steady (w : World) : Prop :=
  flushGuard (cleaner w) = false ∧
  pending (events w)
    = (if decide (dirtySet (cleaner w) = []) then []
       else [(scheduleId (cleaner w), dump_cb)]) ∧
  (dirtySet (cleaner w) ≠ [] → scheduleId (cleaner w) ≠ 0).

(** The array named [a] after one compaction, if there is such an array. *)
Definition compacted (arrays : gmap A (list T)) (a : A) : option (list T) :=
  filter (λ x, shouldRemove x = false) <$> arrays !! a.
End World.
Arguments World : clear implicits.
Arguments World A T Task {_ _}.
Arguments Event : clear implicits.

End Cleaning.

(** ** The registry between two calls of its client *)
Module Wiring.
Import Schedule Signaling.

Section Registry.
Context {U : Type}.

(** [connection.context || connection.slot]: the receiver of a connection. *)
Definition receiverOf (c : IConnection) : Obj := default (slot c) (context c).

(** The array that a reference of the cleaner names. *)
Definition array (st : Registry U) (a : ArrayRef) : option (list nat) :=
  match a with
  | ReceiversOf o => receiversForSender st !! o
  | SendersOf o => sendersForReceiver st !! o
  end.

(** A connection object after [connection.signal = null]. *)
Definition cleared (c : IConnection) : IConnection :=
  {| signal := None; slot := slot c; context := context c |}.

(** The connection objects after every live one that satisfies [p] has
    been cleared. *)
Definition clearWhere (p : Signal → IConnection → bool) (heap : list IConnection)
    : list IConnection :=
  (λ c, match signal c with
        | Some s => if p s c then cleared c else c
        | None => c
        end) <$> heap.

(** How the two indexes and the connection objects hang together: every
    index names an object; a live connection is held by the receivers array
    of its sender and by the senders array of its receiver, and by no other
    array; a receivers array holds at most one live connection for a
    binding. *)
Record consistent (st : Registry U) : Prop := mkConsistent {
  consistent_wf : wf st;
  live_registered : ∀ r c s, connections st !! r = Some c → signal c = Some s →
    (∃ l, receiversForSender st !! sender s = Some l ∧ r ∈ l) ∧
    (∃ l, sendersForReceiver st !! receiverOf c = Some l ∧ r ∈ l);
  receivers_placed : ∀ o l r s,
    receiversForSender st !! o = Some l → r ∈ l → signalOf st r = Some s → sender s = o;
  senders_placed : ∀ o l r c,
    sendersForReceiver st !! o = Some l → r ∈ l → connections st !! r = Some c →
    receiverOf c = o;
  bindings_unique : ∀ o l s sl ctx,
    receiversForSender st !! o = Some l → length (bindings st l s sl ctx) ≤ 1
}.

(** The registry never cancels its cleaner: the host holds the callback of
    the cleaner exactly while the pending set is not empty. *)
Definition settled (st : Registry U) : Prop :=
  pending (host st)
  = if decide (dirtySet (connectionCleaner st) = []) then []
    else [(scheduleId (connectionCleaner st), CleanupTask)].

(** Every array that holds a cleared connection is registered with the
    cleaner, or is one of the arrays [later]. *)
Definition tidy_but (later : list ArrayRef) (st : Registry U) : Prop :=
  ∀ a l r, array st a = Some l → r ∈ l →
    isDeadConnection (connections st) r = true →
    a ∈ dirtySet (connectionCleaner st) ∨ a ∈ later.

Definition tidy (st : Registry U) : Prop := tidy_but [] st.

(** No array holds a cleared connection. *)
Definition compact (st : Registry U) : Prop :=
  ∀ a l r, array st a = Some l → r ∈ l → isDeadConnection (connections st) r = false.

(** User code that does not call [disconnectAll] (or [clearData]). *)
Inductive selective : Prog U → Prop :=
| selective_Return : selective Return
| selective_Throw e : selective (Throw e)
| selective_Connect s sl ctx k : (∀ b, selective (k b)) → selective (Connect s sl ctx k)
| selective_Disconnect s sl ctx k :
    (∀ b, selective (k b)) → selective (Disconnect s sl ctx k)
| selective_Emit s args k : selective k → selective (Emit s args k)
| selective_DisconnectBetween a b k : selective k → selective (DisconnectBetween a b k)
| selective_DisconnectSender o k : selective k → selective (DisconnectSender o k)
| selective_DisconnectReceiver o k : selective k → selective (DisconnectReceiver o k)
| selective_SetExceptionHandler h k :
    (∀ o, selective (k o)) → selective (SetExceptionHandler h k)
| selective_GetUser k : (∀ u, selective (k u)) → selective (GetUser k)
| selective_SetUser u k : selective k → selective (SetUser u k).

(** The programs that are looked at: all of them, or the selective ones. *)
Definition allowed (strict : bool) (p : Prog U) : Prop :=
  strict = true → selective p.

(** The connections that [emit] finds live for a signal in an array. *)
Definition audience (st : Registry U) (s : Signal) (l : list nat) : list nat :=
  filter (λ r, signalOf st r = Some s) l.
End Registry.

End Wiring.

(** ** More of packages/signaling/test/index.spec.ts *)
Module WiringTests.
Import Signaling SignalingTests.

(** The signal [two] of [TestObject], a second [TestObject] with its
    signals, and the slot [onTwo] of [TestHandler]. *)
Definition two : Signal := {| sig_id := 2; sender := obj |}.
Definition obj2 : Obj := 2.
Definition one2 : Signal := {| sig_id := 1; sender := obj2 |}.
Definition two2 : Signal := {| sig_id := 2; sender := obj2 |}.
Definition onTwo : Obj := 22.

(** 'should clear all connections between a sender and receiver' *)
Definition connected_pairs : Registry Names := Eval vm_compute in
  after (Connect one onOne (Some handler1) (λ _,
         Connect one onOne (Some handler2) (λ _,
         Connect two onTwo (Some handler1) (λ _,
         Connect two onTwo (Some handler2) (λ _, Return))))).

(** 'should disconnect all signals from a specific receiver' *)
Definition wire_two_senders : Prog Names :=
  Connect one onOne (Some handler1) (λ _,
  Connect one onOne (Some handler2) (λ _,
  Connect one2 onOne (Some handler1) (λ _,
  Connect one2 onOne (Some handler2) (λ _,
  Connect two2 onTwo (Some handler1) (λ _,
  Connect two2 onTwo (Some handler2) (λ _, Return)))))).

Definition two_senders : Registry Names := Eval vm_compute in after wire_two_senders.

(** 'should clear all connections for an object': two [ExtendedObject]s,
    their method [onNotify], and the plain function [onCount], which is
    connected without a context. *)
Definition ext1 : Obj := 41.
Definition ext2 : Obj := 42.
Definition ext1_one : Signal := {| sig_id := 1; sender := ext1 |}.
Definition ext2_one : Signal := {| sig_id := 1; sender := ext2 |}.
Definition onNotify : Obj := 27.
Definition onCount : Obj := 28.

Definition connected_ext : Registry Names := Eval vm_compute in
  after (Connect ext1_one onNotify (Some ext1) (λ _,
         Connect ext1_one onNotify (Some ext2) (λ _,
         Connect ext1_one onCount None (λ _,
         Connect ext2_one onNotify (Some ext1) (λ _,
         Connect ext2_one onNotify (Some ext2) (λ _,
         Connect ext2_one onCount None (λ _, Return))))))).

(** 'should handle connect after disconnect and emit': a client that
    connects, disconnects one of the connections, and emits. *)
Definition rewire : Prog Names :=
  Connect three onThree (Some handler1) (λ _,
  Connect three onThrow (Some handler2) (λ _,
  Connect three onThree (Some handler3) (λ _,
  Disconnect three onThrow (Some handler2) (λ _,
  Emit three 0 Return)))).

Definition rewired : Registry Names := Eval vm_compute in after rewire.
End WiringTests.

(** ** packages/messaging/src/ConflatableMessage.ts *)
Module Conflatable.
Import Messaging.

(** [new ConflatableMessage(type)]: [isConflatable] is always [true]; the
    class has no state other than [type]. *)
Definition ConflatableMessage (t : string) : Message :=
  {| type := t; isConflatable := true; payload := 0 |}.

(** [ConflatableMessage.conflate(other)]: always [true], and the message
    stays as it is. *)
Definition conflate (m other : Message) : bool * Message := (true, m).

(** An entry of the queue that a conflatable message of type [t] posted to
    [h] is offered to. *)
Definition candidate (h : Obj) (t : string) (posted : PostedMessage) : bool :=
  match handler posted, msg posted with
  | Some h', Some pm =>
      bool_decide (h' = h) && bool_decide (type pm = t) && isConflatable pm
  | _, _ => false
  end.

(** The queued messages that the conflatable message [m] posted to [h] is
    offered to are instances of [ConflatableMessage]: [conflate'], which
    stands for the [conflate] of the queued message, answers for them as the
    one of the class does. *)
Definition accepted (conflate' : Message → Message → bool * Message)
    (h : Obj) (m : Message) (q : list PostedMessage) : Prop :=
  ∀ posted pm, posted ∈ q → candidate h (type m) posted = true →
    msg posted = Some pm → conflate' pm m = conflate pm m.
End Conflatable.

(** ** The message loop between two calls of its client *)
Module Looping.
Import Schedule Messaging.

Section Loop.
Context {U : Type}.

(** The callbacks that the host holds for the loop and for the cleaner of
    the hook arrays: the handles are handles that the host has given out,
    no two callbacks share one, at most one run of the loop is pending, and
    [loopTaskID] is its handle, and the callback of the cleaner is pending
    exactly while an array is registered. *)
Record punctual (st : Loop U) : Prop := mkPunctual {
  handles_given : Forall (λ p, p.1 ≤ counter (host st)) (pending (host st));
  handles_distinct : NoDup (pending (host st)).*1;
  one_run :
    filter (λ p, p.2 = LoopTask) (pending (host st))
    = if decide (loopTaskID st = 0) then [] else [(loopTaskID st, LoopTask)];
  one_cleanup :
    filter (λ p, p.2 = HookCleanupTask) (pending (host st))
    = if decide (dirtySet (hookCleaner st) = []) then []
      else [(scheduleId (hookCleaner st), HookCleanupTask)]
}.

(** The hook arrays: an array that holds a removed hook is registered with
    the cleaner, and no hook is in an array twice. *)
Record hooks_ok (st : Loop U) : Prop := mkHooksOk {
  nulls_registered : ∀ h hooks,
    messageHooks st !! h = Some hooks → None ∈ hooks → h ∈ dirtySet (hookCleaner st);
  hooks_once : ∀ h hooks,
    messageHooks st !! h = Some hooks → NoDup (chain hooks)
}.

(** The hooks of a handler, newest first. *)
Definition chainOf (st : Loop U) (h : Obj) : list Obj :=
  chain (default [] (messageHooks st !! h)).
End Loop.
End Looping.

(** ** More of packages/messaging/test/index.spec.ts *)
Module LoopingTests.
Import Messaging MessagingTests Conflatable.

(** 'should conflate a conflatable message': two plain messages are posted,
    then four times a [ConflatableMessage] of one type. *)
Definition two_posted : Loop Log := Eval vm_compute in
  after (PostMessage handler1 (plain "one") (PostMessage handler1 (plain "two") (Ret ()))).

Definition conflating_posts : list (Obj * Message) :=
  replicate 4 (handler1, ConflatableMessage "three").

(** 'should remove all messages and hooks data associated with a handler' *)
Definition posts_and_hook : Prog Log unit :=
  InstallMessageHook handler1 logHook1
 (PostMessage handler1 (plain "one") (PostMessage handler2 (plain "one")
 (PostMessage handler1 (plain "two") (PostMessage handler2 (plain "two")
 (PostMessage handler1 (plain "three") (PostMessage handler2 (plain "three")
 (Ret ()))))))).

Definition posted_with_hook : Loop Log := Eval vm_compute in after posts_and_hook.

(** 'should ignore recursive calls': the hook of [handler1] posts three
    messages and calls [flush] when it sees a message of type 'two'. *)
Definition flushingHook (hook h : Obj) (m : Message) : Prog Log bool :=
  if String.eqb (type m) "two" then
    PostMessage h (plain "four") (PostMessage h (plain "five")
   (PostMessage h (plain "six") (Flush (Ret true))))
  else Ret true.

(** A hook that sends a message to the handler [handler2] when it sees a
    message of type 'two', and a handler that posts a message when it sees
    one of type 'one'. *)
Definition relayHook (hook h : Obj) (m : Message) : Prog Log bool :=
  if String.eqb (type m) "two" then SendMessage handler2 (plain "relayed") (Ret true)
  else Ret true.

Definition echoMessage (h : Obj) (m : Message) : Prog Log unit :=
  record h m
    (if String.eqb (type m) "one" then PostMessage h (plain "echo") (Ret ())
     else Ret ()).

(** 'should remove a previously installed hook', up to the removal of the
    second hook. *)
Definition hooks_removed : Prog Log unit :=
  InstallMessageHook handler1 logHook1
 (InstallMessageHook handler1 logHook2
 (RemoveMessageHook handler1 logHook2 (Ret ()))).

Definition one_hook_removed : Loop Log := Eval vm_compute in after hooks_removed.
End LoopingTests.
(* ===================================================================== *)
(** * Part III: properties                                                *)
(* ===================================================================== *)

(** ** The deferred cleaner *)
Module ScheduleFacts.
Import Schedule.

Section Cleaner.
Context {A Task : Type} `{EqDecision A} `{EqDecision Task}.
Variable dump_cb : Task.

Abbreviation Cleaner := (ScheduledCleaner A).
Abbreviation World := (Cleaner * Scheduler Task)%type.

Lemma set_add_nonempty (x : A) (s : list A) : set_add x s ≠ [].
Proof.
  unfold set_add. case_decide as Hin.
  - intros ->. by apply not_elem_of_nil in Hin.
  - by destruct s.
Qed.

Lemma set_add_elem (x : A) (s : list A) : x ∈ set_add x s.
Proof. unfold set_add. case_decide; [done | set_solver]. Qed.

Lemma scheduled_schedule (s : Scheduler Task) :
  scheduled dump_cb (schedule dump_cb s).2 = S (scheduled dump_cb s).
Proof.
  unfold scheduled, schedule. simpl. rewrite filter_app, length_app.
  rewrite filter_cons_True by done. simpl. lia.
Qed.

(** [clean] on an empty pending set registers the array and asks the host
    for one more callback. *)
Lemma clean_first (items : A) (c : Cleaner) (s : Scheduler Task) :
  dirtySet c = [] →
  clean dump_cb items c s =
    ({| dirtySet := [items]; scheduleId := S (counter s); flushGuard := flushGuard c |},
     (schedule dump_cb s).2).
Proof. intros Hd. unfold clean. rewrite Hd. reflexivity. Qed.

(** [clean] on a pending set that is not empty only adds the array. *)
Lemma clean_again (items : A) (c : Cleaner) (s : Scheduler Task) :
  dirtySet c ≠ [] →
  clean dump_cb items c s =
    ({| dirtySet := set_add items (dirtySet c); scheduleId := scheduleId c;
        flushGuard := flushGuard c |}, s).
Proof.
  intros Hd. unfold clean. case_decide as Hl; [|done].
  by apply nil_length_inv in Hl.
Qed.

(** [cancel] with nothing scheduled changes nothing. *)
Lemma cancel_idle (c : Cleaner) (s : Scheduler Task) :
  scheduleId c = 0 → cancel c s = (c, s).
Proof. intros Hz. unfold cancel. case_decide; [done | reflexivity]. Qed.

(** [cancel] never compacts: the pending set is as it was. *)
Lemma cancel_dirtySet (c : Cleaner) (s : Scheduler Task) :
  dirtySet (cancel c s).1 = dirtySet c.
Proof. unfold cancel. by case_decide. Qed.

Lemma wedged_step (w : World) (o : Op A) :
  wedged dump_cb w → wedged dump_cb (step dump_cb w o).
Proof.
  intros (Hd & Hz & Hs). destruct o as [items|]; simpl.
  - rewrite clean_again by done. split_and!; simpl; auto using set_add_nonempty.
  - rewrite cancel_idle by done. done.
Qed.

Lemma wedged_run (ops : list (Op A)) (w : World) :
  wedged dump_cb w → wedged dump_cb (run dump_cb ops w).
Proof.
  revert w. induction ops as [|o ops IH]; intros w Hw; [done|].
  simpl. apply IH, wedged_step, Hw.
Qed.

(** As long as the client only registers arrays, a pending set that is not
    empty has exactly one callback with the host. *)
Lemma clean_only_scheduled (l : list A) :
  let w := run dump_cb (Clean <$> l) (new, idle) in
  dirtySet w.1 = [] ∧ l = [] ∧ scheduled dump_cb w.2 = 0
  ∨ dirtySet w.1 ≠ [] ∧ scheduled dump_cb w.2 = 1.
Proof.
  induction l as [|x l IH] using rev_ind; [left; done|].
  right. simpl. unfold run in *. rewrite fmap_app, foldl_app. simpl.
  destruct IH as [(Hd & _ & Hs)|(Hd & Hs)].
  - rewrite clean_first by done. cbn [fst snd dirtySet].
    rewrite scheduled_schedule, Hs. done.
  - rewrite clean_again by done. cbn [fst snd dirtySet].
    auto using set_add_nonempty.
Qed.

(** C9 (the code departs from the claim). After [clean(a)] and [cancel()]
    on a new cleaner the array [a] is still in the pending set and the host
    holds no callback of the cleaner; whatever calls of [clean] and
    [cancel] follow, the pending set stays non-empty and no callback is
    ever scheduled again. *)
Theorem cancel_leaves_pending_without_task (a : A) (ops : list (Op A)) :
  let w := run dump_cb [Clean a; Cancel] (new, idle) in
  dirtySet w.1 = [a] ∧ scheduled dump_cb w.2 = 0 ∧
  dirtySet (run dump_cb ops w).1 ≠ [] ∧ scheduled dump_cb (run dump_cb ops w).2 = 0.
Proof.
  assert (Hw : run dump_cb [Clean a; Cancel] (new, idle)
               = ({| dirtySet := [a]; scheduleId := 0; flushGuard := false |},
                  {| counter := 1; pending := [] |})).
  { unfold run. cbn [foldl step fst snd]. rewrite clean_first by done.
    cbn [fst snd]. unfold cancel, unschedule, schedule, idle. cbn.
    repeat case_decide; done. }
  cbv zeta. rewrite Hw. split_and!; [done|done|..];
    apply (wedged_run ops); by split_and!.
Qed.
End Cleaner.

End ScheduleFacts.

(** ** The connection registry *)
Module SignalingFacts.
Import Schedule Signaling.

Section Registry.
Context {U : Type}.
Variable slotBody : Obj → option Obj → Obj → Args → Prog U.
Variable handlerBody : Obj → Err → Prog U.

Implicit Types (st : Registry U) (s : Signal) (sl : Obj) (ctx : option Obj).
Implicit Types (c : IConnection) (r : nat) (d : Dispatched).

(** *** How the state evolves *)

Lemma wf_iff st :
  wf st ↔
  (∀ o l r, receiversForSender st !! o = Some l → r ∈ l → r < length (connections st)) ∧
  (∀ o l r, sendersForReceiver st !! o = Some l → r ∈ l → r < length (connections st)).
Proof.
  unfold wf. rewrite !map_Forall_lookup.
  split; intros [H1 H2]; split; intros o l.
  - intros r Hl. revert r. apply Forall_forall. by eapply H1.
  - intros r Hl. revert r. apply Forall_forall. by eapply H2.
  - intros Hl. apply Forall_forall. intros r. by eapply H1.
  - intros Hl. apply Forall_forall. intros r. by eapply H2.
Qed.

Lemma wf_receivers st o l r :
  wf st → receiversForSender st !! o = Some l → r ∈ l → r < length (connections st).
Proof. intros [H _]%wf_iff. apply H. Qed.

Lemma evolves_refl st : evolves st st.
Proof.
  split; [| | | |done].
  - intros r c Hc. exists c. auto.
  - intros o l Hl. exists []. by rewrite app_nil_r.
  - intros o l Hl. exists []. by rewrite app_nil_r.
  - exists []. by rewrite app_nil_r.
Qed.

Lemma evolves_trans st1 st2 st3 : evolves st1 st2 → evolves st2 st3 → evolves st1 st3.
Proof.
  intros [C1 R1 S1 E1 W1] [C2 R2 S2 E2 W2]. split; [| | | |auto].
  - intros r c Hc. destruct (C1 r c Hc) as (c' & Hc' & Hs & Hx & Hg).
    destruct (C2 r c' Hc') as (c'' & Hc'' & Hs' & Hx' & Hg').
    exists c''. split_and!; [done|congruence|congruence|].
    destruct Hg' as [Hg'|Hg']; [|by right].
    destruct Hg as [Hg|Hg]; [left|right]; congruence.
  - intros o l Hl. destruct (R1 o l Hl) as [l' Hl'].
    destruct (R2 o _ Hl') as [l'' Hl'']. exists (l' ++ l''). by rewrite app_assoc.
  - intros o l Hl. destruct (S1 o l Hl) as [l' Hl'].
    destruct (S2 o _ Hl') as [l'' Hl'']. exists (l' ++ l''). by rewrite app_assoc.
  - destruct E1 as [n1 E1], E2 as [n2 E2]. exists (n1 ++ n2).
    by rewrite E2, E1, app_assoc.
Qed.

(** A step that leaves connections, arrays and reports alone. *)
Lemma evolves_same st st' :
  connections st' = connections st →
  receiversForSender st' = receiversForSender st →
  sendersForReceiver st' = sendersForReceiver st →
  reported st' = reported st →
  evolves st st'.
Proof.
  intros Hc Hr Hs He. split.
  - intros r c Hl. exists c. rewrite Hc. auto.
  - intros o l Hl. exists []. by rewrite Hr, app_nil_r.
  - intros o l Hl. exists []. by rewrite Hs, app_nil_r.
  - exists []. by rewrite He, app_nil_r.
  - unfold wf. by rewrite Hc, Hr, Hs.
Qed.

Lemma evolves_scheduleCleanup a st : evolves st (scheduleCleanup a st).
Proof.
  unfold scheduleCleanup. destruct (clean _ _ _ _) as [c h].
  by apply evolves_same.
Qed.

Lemma evolves_with_user u st : evolves st (with_user u st).
Proof. by apply evolves_same. Qed.

Lemma evolves_with_handler h st : evolves st (with_handler h st).
Proof. by apply evolves_same. Qed.

Lemma evolves_clear r st : evolves st (clear r st).
Proof.
  unfold clear. destruct (connections st !! r) as [c|] eqn:Hr; [|apply evolves_refl].
  split; simpl.
  - intros r' c' Hc'. destruct (decide (r' = r)) as [->|Hne].
    + rewrite list_lookup_insert_eq by (by eapply lookup_lt_Some).
      eexists. split; [done|]. simpl. rewrite Hr in Hc'. simplify_eq. auto.
    + rewrite list_lookup_insert_ne by done. exists c'. auto.
  - intros o l Hl. exists []. by rewrite app_nil_r.
  - intros o l Hl. exists []. by rewrite app_nil_r.
  - exists []. by rewrite app_nil_r.
  - unfold wf. simpl. by rewrite length_insert.
Qed.

Lemma evolves_foldl {X} (f : Registry U → X → Registry U) (l : list X) st :
  (∀ st0 x, evolves st0 (f st0 x)) → evolves st (foldl f st l).
Proof.
  intros Hf. revert st. induction l as [|x l IH]; intros st; simpl.
  - apply evolves_refl.
  - eapply evolves_trans; [apply Hf | apply IH].
Qed.

Lemma evolves_report e st : evolves st (report e st).
Proof.
  split; simpl; [| | | |done].
  - intros r c Hc. exists c. auto.
  - intros o l Hl. exists []. by rewrite app_nil_r.
  - intros o l Hl. exists []. by rewrite app_nil_r.
  - by eexists.
Qed.

(** *** [findConnection] and [connect] *)

Lemma matches_true s sl ctx c :
  matches s sl ctx c = true ↔ signal c = Some s ∧ slot c = sl ∧ context c = ctx.
Proof.
  unfold matches. rewrite !andb_true_iff, !bool_decide_eq_true. tauto.
Qed.

Lemma findConnection_Some heap l s sl ctx r :
  findConnection heap l s sl ctx = Some r →
  r ∈ l ∧ ∃ c, heap !! r = Some c ∧ matches s sl ctx c = true.
Proof.
  induction l as [|x l IH]; simpl; [done|].
  destruct (heap !! x) as [c|] eqn:Hx.
  - destruct (matches s sl ctx c) eqn:Hm.
    + intros [= <-]. split; [left|eauto].
    + intros H. destruct (IH H) as [? ?]. split; [by right|done].
  - intros H. destruct (IH H) as [? ?]. split; [by right|done].
Qed.

Lemma findConnection_None heap l s sl ctx :
  findConnection heap l s sl ctx = None ↔
  ∀ r c, r ∈ l → heap !! r = Some c → matches s sl ctx c = false.
Proof.
  induction l as [|x l IH]; simpl.
  - split; [|done]. intros _ r c Hr. by apply elem_of_nil in Hr.
  - destruct (heap !! x) as [c|] eqn:Hx.
    + destruct (matches s sl ctx c) eqn:Hm.
      * split; [done|]. intros H. specialize (H x c). rewrite Hm in H.
        discriminate H; [left|done].
      * rewrite IH. split.
        -- intros H r c' [->|Hr]%elem_of_cons Hc'; [congruence|eauto].
        -- intros H r c' Hr. apply H. by right.
    + rewrite IH. split.
      * intros H r c' [->|Hr]%elem_of_cons Hc'; [congruence|eauto].
      * intros H r c' Hr. apply H. by right.
Qed.

(** [connect] when a matching connection is found. *)
Lemma connect_found s sl ctx st rs r :
  receiversForSender st !! sender s = Some rs →
  findConnection (connections st) rs s sl ctx = Some r →
  connect s sl ctx st = (false, st).
Proof.
  intros Hrs Hf. unfold connect. rewrite Hrs. cbv zeta. rewrite Hrs. simpl.
  by rewrite Hf.
Qed.

(** [connect] when none is found: one connection object is created, and
    its index goes to the end of the two arrays. *)
Lemma connect_fresh s sl ctx st :
  let rs := default [] (receiversForSender st !! sender s) in
  let receiver := default sl ctx in
  let ss := default [] (sendersForReceiver st !! receiver) in
  let r := length (connections st) in
  findConnection (connections st) rs s sl ctx = None →
  ∃ st', connect s sl ctx st = (true, st') ∧
    connections st' = connections st ++ [{| signal := Some s; slot := sl; context := ctx |}] ∧
    receiversForSender st' = <[sender s := rs ++ [r]]> (receiversForSender st) ∧
    sendersForReceiver st' = <[receiver := ss ++ [r]]> (sendersForReceiver st) ∧
    reported st' = reported st ∧ user st' = user st ∧
    exceptionHandler st' = exceptionHandler st ∧
    connectionCleaner st' = connectionCleaner st ∧ host st' = host st.
Proof.
  intros rs receiver ss r Hf. subst rs receiver ss r. unfold connect.
  destruct (receiversForSender st !! sender s) as [rs|] eqn:Hrs; cbv zeta;
    rewrite ?Hrs, ?lookup_insert_eq; simpl in Hf |- *; try rewrite Hf;
    destruct (sendersForReceiver st !! default sl ctx) as [ss|] eqn:Hss;
    simpl; rewrite ?Hss, ?lookup_insert_eq; simpl;
    (eexists; split; [reflexivity|]); simpl; rewrite ?insert_insert_eq; done.
Qed.

Lemma connect_cases s sl ctx st :
  let rs := default [] (receiversForSender st !! sender s) in
  (∃ r, findConnection (connections st) rs s sl ctx = Some r
        ∧ connect s sl ctx st = (false, st))
  ∨ findConnection (connections st) rs s sl ctx = None.
Proof.
  intros rs. destruct (findConnection (connections st) rs s sl ctx) as [r|] eqn:Hf;
    [left|by right].
  exists r. split; [done|]. subst rs.
  destruct (receiversForSender st !! sender s) as [rs|] eqn:Hrs; simpl in Hf.
  - by eapply connect_found.
  - discriminate.
Qed.

Lemma evolves_connect s sl ctx st : evolves st (connect s sl ctx st).2.
Proof.
  destruct (connect_cases s sl ctx st) as [(r & _ & ->)|Hf]; [apply evolves_refl|].
  destruct (connect_fresh s sl ctx st Hf)
    as (st' & -> & Hc & Hr & Hs & He & _). simpl. split.
  - intros r c Hl. exists c. rewrite Hc. split_and!; auto.
    by apply lookup_app_l_Some.
  - intros o l Hl. rewrite Hr. destruct (decide (o = sender s)) as [->|Hne].
    + rewrite lookup_insert_eq, Hl. simpl. by eexists.
    + rewrite lookup_insert_ne by done. exists []. by rewrite app_nil_r.
  - intros o l Hl. rewrite Hs. destruct (decide (o = default sl ctx)) as [->|Hne].
    + rewrite lookup_insert_eq, Hl. simpl. by eexists.
    + rewrite lookup_insert_ne by done. exists []. by rewrite app_nil_r.
  - exists []. by rewrite He, app_nil_r.
  - rewrite !wf_iff. intros [W1 W2]. split.
    + intros o l r. rewrite Hr, Hc, length_app. simpl.
      destruct (decide (o = sender s)) as [->|Hne].
      * rewrite lookup_insert_eq. intros [= <-] [Hin|Hin]%elem_of_app.
        -- destruct (receiversForSender st !! sender s) as [rs|] eqn:Hrs; simpl in Hin.
           ++ specialize (W1 _ _ _ Hrs Hin). lia.
           ++ by apply elem_of_nil in Hin.
        -- apply list_elem_of_singleton in Hin. lia.
      * rewrite lookup_insert_ne by done. intros Hl Hin.
        specialize (W1 _ _ _ Hl Hin). lia.
    + intros o l r. rewrite Hs, Hc, length_app. simpl.
      destruct (decide (o = default sl ctx)) as [->|Hne].
      * rewrite lookup_insert_eq. intros [= <-] [Hin|Hin]%elem_of_app.
        -- destruct (sendersForReceiver st !! default sl ctx) as [ss|] eqn:Hss;
             simpl in Hin.
           ++ specialize (W2 _ _ _ Hss Hin). lia.
           ++ by apply elem_of_nil in Hin.
        -- apply list_elem_of_singleton in Hin. lia.
      * rewrite lookup_insert_ne by done. intros Hl Hin.
        specialize (W2 _ _ _ Hl Hin). lia.
Qed.

(** *** The other operations *)

Lemma evolves_disconnect s sl ctx st : evolves st (disconnect s sl ctx st).2.
Proof.
  unfold disconnect. destruct (receiversForSender st !! sender s) as [rs|];
    [|apply evolves_refl].
  case_decide; [apply evolves_refl|].
  destruct (findConnection _ _ _ _ _) as [r|]; [|apply evolves_refl]. simpl.
  eapply evolves_trans; [apply evolves_clear|].
  eapply evolves_trans; apply evolves_scheduleCleanup.
Qed.

Lemma evolves_clearIfFrom o st r : evolves st (clearIfFrom o st r).
Proof.
  unfold clearIfFrom. destruct (connections st !! r) as [c|]; [|apply evolves_refl].
  destruct (signal c) as [s|]; [|apply evolves_refl].
  case_decide; [apply evolves_clear|apply evolves_refl].
Qed.

Lemma evolves_clearToReceiver st r : evolves st (clearToReceiver st r).
Proof.
  unfold clearToReceiver. destruct (connections st !! r) as [c|]; [|apply evolves_refl].
  destruct (signal c) as [s|]; [|apply evolves_refl].
  eapply evolves_trans; [apply evolves_clear|apply evolves_scheduleCleanup].
Qed.

Lemma evolves_clearFromSender st r : evolves st (clearFromSender st r).
Proof.
  unfold clearFromSender. destruct (connections st !! r) as [c|]; [|apply evolves_refl].
  destruct (signal c) as [s|]; [|apply evolves_refl].
  eapply evolves_trans; [apply evolves_clear|apply evolves_scheduleCleanup].
Qed.

Lemma evolves_disconnectBetween a b st : evolves st (disconnectBetween a b st).
Proof.
  unfold disconnectBetween.
  destruct (receiversForSender st !! a) as [rs|]; [|apply evolves_refl].
  case_decide; [apply evolves_refl|].
  destruct (sendersForReceiver st !! b) as [ss|]; [|apply evolves_refl].
  case_decide; [apply evolves_refl|].
  do 2 (eapply evolves_trans; [|apply evolves_scheduleCleanup]).
  apply evolves_foldl; intros; apply evolves_clearIfFrom.
Qed.

Lemma evolves_disconnectSender o st : evolves st (disconnectSender o st).
Proof.
  unfold disconnectSender.
  destruct (receiversForSender st !! o) as [rs|]; [|apply evolves_refl].
  case_decide; [apply evolves_refl|].
  eapply evolves_trans; [|apply evolves_scheduleCleanup].
  apply evolves_foldl; intros; apply evolves_clearToReceiver.
Qed.

Lemma evolves_disconnectReceiver o st : evolves st (disconnectReceiver o st).
Proof.
  unfold disconnectReceiver.
  destruct (sendersForReceiver st !! o) as [ss|]; [|apply evolves_refl].
  case_decide; [apply evolves_refl|].
  eapply evolves_trans; [|apply evolves_scheduleCleanup].
  apply evolves_foldl; intros; apply evolves_clearFromSender.
Qed.

Lemma evolves_clear_all l st : evolves st (foldl (λ acc r, clear r acc) st l).
Proof. apply evolves_foldl. intros st0 x. apply evolves_clear. Qed.

Lemma evolves_disconnectAll o st : evolves st (disconnectAll o st).
Proof.
  unfold disconnectAll.
  set (st1 := match receiversForSender st !! o with
              | Some receivers => _ | None => st end).
  assert (H1 : evolves st st1).
  { subst st1. destruct (receiversForSender st !! o) as [rs|]; [|apply evolves_refl].
    case_decide; [apply evolves_refl|].
    eapply evolves_trans; [|apply evolves_scheduleCleanup]. apply evolves_clear_all. }
  eapply evolves_trans; [exact H1|].
  destruct (sendersForReceiver st1 !! o) as [ss|]; [|apply evolves_refl].
  case_decide; [apply evolves_refl|].
  eapply evolves_trans; [|apply evolves_scheduleCleanup]. apply evolves_clear_all.
Qed.

(** *** User code and [emit] *)

Section Step.
Variable emit_rec : Signal → Args → Registry U → option (Outcome * Registry U * Dispatched).
Hypothesis emit_rec_evolves : preserving emit_rec.

Lemma evolves_run p st o st' : run emit_rec p st = Some (o, st') → evolves st st'.
Proof.
  revert st. induction p as [|e|s sl ctx k IH|s sl ctx k IH|s args k IH|a b k IH
    |x k IH|x k IH|x k IH|h k IH|k IH|u k IH]; intros st; simpl.
  - intros [= _ <-]. apply evolves_refl.
  - intros [= _ <-]. apply evolves_refl.
  - pose proof (evolves_connect s sl ctx st) as He.
    destruct (connect s sl ctx st) as [b st1]. intros Hr.
    eapply evolves_trans; [exact He|]. by eapply IH.
  - pose proof (evolves_disconnect s sl ctx st) as He.
    destruct (disconnect s sl ctx st) as [b st1]. intros Hr.
    eapply evolves_trans; [exact He|]. by eapply IH.
  - destruct (emit_rec s args st) as [[[[|e] st1] d1]|] eqn:He; [| |done].
    + intros Hr. eapply evolves_trans; [by eapply emit_rec_evolves|]. by eapply IH.
    + intros [= _ <-]. by eapply emit_rec_evolves.
  - intros Hr. eapply evolves_trans; [apply evolves_disconnectBetween|]. by eapply IH.
  - intros Hr. eapply evolves_trans; [apply evolves_disconnectSender|]. by eapply IH.
  - intros Hr. eapply evolves_trans; [apply evolves_disconnectReceiver|]. by eapply IH.
  - intros Hr. eapply evolves_trans; [apply evolves_disconnectAll|]. by eapply IH.
  - intros Hr. eapply evolves_trans; [apply (evolves_with_handler h)|]. by eapply IH.
  - intros Hr. by eapply IH.
  - intros Hr. eapply evolves_trans; [apply (evolves_with_user u)|]. by eapply IH.
Qed.

(** The call of the exception handler: the state evolves, and the call is
    reported, for the handler installed at that moment, before anything the
    handler does. *)
Lemma handleException_spec e st fin st' :
  handleException handlerBody emit_rec e st = Some (fin, st') →
  evolves st st' ∧
  ∃ tail, reported st' = reported st ++ (exceptionHandler st, e) :: tail.
Proof.
  unfold handleException. case_decide.
  - intros [= <- <-]. split; [apply evolves_report|]. by exists [].
  - intros Hr. pose proof (evolves_run _ _ _ _ Hr) as He. split.
    + eapply evolves_trans; [apply evolves_report|exact He].
    + destruct (evolves_reported _ _ He) as [tail Htail]. exists tail.
      rewrite Htail. simpl. by rewrite <-app_assoc.
Qed.

(** [invokeSlot]: the state evolves, and what the slot throws is reported
    to the handler installed at that moment. *)
Lemma invokeSlot_spec s c args st o fin st' :
  invokeSlot slotBody handlerBody emit_rec s c args st = Some (o, fin, st') →
  evolves st st' ∧
  (o = Returned → fin = Returned) ∧
  ∀ e, o = Threw e →
    ∃ st1 tail, evolves st st1 ∧
      reported st' = reported st1 ++ (exceptionHandler st1, e) :: tail.
Proof.
  unfold invokeSlot.
  destruct (run _ _ _) as [[[|e] st1]|] eqn:Hr; [| |done].
  - intros [= <- <- <-]. split; [by eapply evolves_run|]. done.
  - destruct (handleException _ _ _ _) as [[fin' st2]|] eqn:Hh; [|done].
    intros [= <- <- <-]. pose proof (evolves_run _ _ _ _ Hr) as He.
    destruct (handleException_spec _ _ _ _ Hh) as [He2 [tail Htail]]. split_and!.
    + by eapply evolves_trans.
    + done.
    + intros e' [= <-]. by exists st1, tail.
Qed.

Lemma evolves_dispatch s args n k st fin st' d :
  dispatch slotBody handlerBody emit_rec s args n k st = Some (fin, st', d) →
  evolves st st'.
Proof.
  revert k st fin d. induction n as [|n IH]; intros k st fin d; simpl.
  - intros [= _ <- _]. apply evolves_refl.
  - destruct (receiversForSender st !! sender s ≫= _) as [r|]; [|apply IH].
    destruct (connections st !! r) as [c|]; [|apply IH].
    case_decide; [|apply IH].
    destruct (invokeSlot _ _ _ _ _ _ _) as [[[o [|e]] st1]|] eqn:Hi; [| |done].
    + destruct (dispatch _ _ _ _ _ _ _ st1) as [[[fin2 st2] d2]|] eqn:Hd; [|done].
      intros [= _ <- _]. eapply evolves_trans; [|by eapply IH].
      by eapply invokeSlot_spec.
    + intros [= _ <- _]. by eapply invokeSlot_spec.
Qed.

Lemma preserving_emit_body : preserving (emit_body slotBody handlerBody emit_rec).
Proof.
  intros s args st fin st' d. unfold emit_body.
  destruct (receiversForSender st !! sender s) as [rs|].
  - case_decide; [intros [= _ <- _]; apply evolves_refl|apply evolves_dispatch].
  - intros [= _ <- _]. apply evolves_refl.
Qed.
End Step.

Lemma preserving_emit depth : preserving (emit slotBody handlerBody depth).
Proof.
  induction depth as [|depth IH]; [done|].
  simpl. by apply preserving_emit_body.
Qed.

(** *** One pass of [emit] *)

Lemma evolves_signalOf st st' r c :
  evolves st st' → connections st !! r = Some c →
  signalOf st' r = signal c ∨ signalOf st' r = None.
Proof.
  intros He Hc. destruct (evolves_conn _ _ He r c Hc) as (c' & Hc' & _ & _ & Hs).
  unfold signalOf. rewrite Hc'. simpl. done.
Qed.

Lemma evolves_signalOf_back st st' r s :
  evolves st st' → r < length (connections st) →
  signalOf st' r = Some s → signalOf st r = Some s.
Proof.
  intros He Hr Hs. destruct (lookup_lt_is_Some_2 _ _ Hr) as [c Hc].
  unfold signalOf at 1. rewrite Hc. simpl.
  destruct (evolves_signalOf _ _ _ _ He Hc); congruence.
Qed.

Lemma thrown_cons r o d :
  thrown ((r, o) :: d) = match o with Threw e => e :: thrown d | Returned => thrown d end.
Proof. by destruct o. Qed.

Section Pass.
Variable emit_rec : Signal → Args → Registry U → option (Outcome * Registry U * Dispatched).
Hypothesis emit_rec_evolves : preserving emit_rec.

Abbreviation dispatch' := (dispatch slotBody handlerBody emit_rec).
Abbreviation invokeSlot' := (invokeSlot slotBody handlerBody emit_rec).

(** The part of a pass that handles the [n] indices from [k] on, in a
    state where the array begins with [rs]. *)
Lemma dispatch_spec s args n : ∀ k st rs extra fin st' d,
  wf st →
  receiversForSender st !! sender s = Some (rs ++ extra) →
  k + n ≤ length rs →
  dispatch' s args n k st = Some (fin, st', d) →
  sublist d.*1 (take n (drop k rs)) ∧
  (∀ r, r ∈ d.*1 → signalOf st r = Some s) ∧
  (fin = Returned →
     ∀ r, r ∈ take n (drop k rs) → signalOf st' r = Some s → r ∈ d.*1) ∧
  (∃ new, reported st' = reported st ++ new ∧ sublist (thrown d) new.*2).
Proof.
  induction n as [|n IH]; intros k st rs extra fin st' d Hwf Hrs Hk; simpl.
  { intros [= <- <- <-]. rewrite take_0.
    split_and!; [done|by intros r ?%elem_of_nil|by intros _ r ?%elem_of_nil|].
    exists []. by rewrite app_nil_r. }
  assert (Hlt : k < length rs) by lia.
  destruct (lookup_lt_is_Some_2 _ _ Hlt) as [r Hr].
  rewrite Hrs. simpl. rewrite (lookup_app_l_Some _ _ _ _ Hr).
  assert (Htake : take (S n) (drop k rs) = r :: take n (drop (S k) rs)).
  { rewrite (drop_S _ _ _ Hr). done. }
  rewrite Htake.
  assert (Hin : r ∈ rs ++ extra).
  { apply elem_of_app. left. by eapply list_elem_of_lookup_2. }
  pose proof (wf_receivers _ _ _ _ Hwf Hrs Hin) as Hrlt.
  destruct (lookup_lt_is_Some_2 _ _ Hrlt) as [c Hc]. rewrite Hc.
  case_decide as Hsig.
  - (* the slot is called *)
    destruct (invokeSlot' _ _ _ _) as [[[o fin1] st1]|] eqn:Hi; [|done].
    destruct (invokeSlot_spec _ emit_rec_evolves _ _ _ _ _ _ _ Hi) as (He1 & Hfin & Hthrow).
    assert (Hrep : ∃ n1, reported st1 = reported st ++ n1 ∧
                         sublist (thrown [(r, o)]) n1.*2).
    { destruct (evolves_reported _ _ He1) as [n1 Hn1]. exists n1. split; [done|].
      destruct o as [|e]; [apply sublist_nil_l|].
      destruct (Hthrow e eq_refl) as (st0 & tail & He0 & Hrep).
      destruct (evolves_reported _ _ He0) as [n0 Hn0].
      assert (n1 = n0 ++ (exceptionHandler st0, e) :: tail) as ->.
      { eapply (app_inv_head (reported st)). rewrite <-Hn1, Hrep, Hn0.
        by rewrite app_assoc. }
      rewrite fmap_app. simpl. apply sublist_inserts_l, sublist_skip, sublist_nil_l. }
    destruct fin1 as [|e1].
    + destruct (dispatch' _ _ _ _ st1) as [[[fin2 st2] d2]|] eqn:Hd; [|done].
      intros [= <- <- <-].
      destruct (evolves_receivers _ _ He1 _ _ Hrs) as [l' Hrs1].
      rewrite <-app_assoc in Hrs1.
      destruct (IH (S k) st1 rs (extra ++ l') fin2 st2 d2) as (IH1 & IH2 & IH3 & IH4);
        [by apply (evolves_wf _ _ He1)|done|lia|done|].
      rewrite fmap_cons. cbn [fst]. split_and!.
      * by apply sublist_skip.
      * intros r' [->|Hr']%elem_of_cons.
        -- unfold signalOf. by rewrite Hc.
        -- apply (evolves_signalOf_back _ _ _ _ He1); [|by apply IH2].
           apply (wf_receivers _ _ _ _ Hwf Hrs), elem_of_app. left.
           apply (subseteq_drop (S k)), (subseteq_take n), (sublist_subseteq _ _ IH1), Hr'.
      * intros Hf r' [->|Hr']%elem_of_cons Hs'; [by left|]. right. by apply IH3.
      * destruct IH4 as (n2 & Hn2 & Hsub2). destruct Hrep as (n1 & Hn1 & Hsub1).
        exists (n1 ++ n2). split; [by rewrite Hn2, Hn1, app_assoc|].
        rewrite fmap_app. replace (thrown ((r, o) :: d2)) with (thrown [(r, o)] ++ thrown d2)
          by (by destruct o).
        by apply sublist_app.
    + intros [= <- <- <-]. simpl. split_and!.
      * apply sublist_skip, sublist_nil_l.
      * intros r' ->%list_elem_of_singleton. unfold signalOf. by rewrite Hc.
      * done.
      * exact Hrep.
  - (* the connection is cleared, or is of another signal *)
    intros Hd.
    destruct (IH (S k) st rs extra fin st' d) as (IH1 & IH2 & IH3 & IH4);
      [done|done|lia|done|].
    split_and!; [by apply sublist_cons|done| |done].
    intros Hf r' [->|Hr']%elem_of_cons Hs'; [|by apply IH3].
    exfalso. pose proof (evolves_dispatch _ emit_rec_evolves _ _ _ _ _ _ _ _ Hd) as He.
    destruct (evolves_signalOf _ _ _ _ He Hc); congruence.
Qed.

Lemma filter_ext_in {X} (P Q : X → Prop) `{∀ x, Decision (P x)} `{∀ x, Decision (Q x)}
    (l : list X) :
  (∀ x, x ∈ l → P x ↔ Q x) → filter P l = filter Q l.
Proof.
  induction l as [|x l IH]; intros Hl; [done|].
  rewrite !filter_cons. destruct (decide (P x)) as [HP|HP], (decide (Q x)) as [HQ|HQ].
  - f_equal. apply IH. intros ? ?. apply Hl. by right.
  - exfalso. apply HQ, Hl; [left|done].
  - exfalso. apply HP, Hl; [left|done].
  - apply IH. intros ? ?. apply Hl. by right.
Qed.

(** A [signal] field that is the same at the end as at the beginning was
    the same in between. *)
Lemma evolves_signalOf_between st st1 st2 r :
  evolves st st1 → evolves st1 st2 → r < length (connections st) →
  signalOf st2 r = signalOf st r → signalOf st1 r = signalOf st r.
Proof.
  intros He1 He2 Hr Heq. destruct (lookup_lt_is_Some_2 _ _ Hr) as [c Hc].
  destruct (evolves_conn _ _ He1 _ _ Hc) as (c1 & Hc1 & _ & _ & Hs1).
  destruct (evolves_conn _ _ He2 _ _ Hc1) as (c2 & Hc2 & _ & _ & Hs2).
  unfold signalOf in *. rewrite Hc, Hc1, Hc2 in *. simpl in *.
  destruct Hs1 as [?|Hs1]; [done|]. destruct Hs2 as [?|Hs2]; congruence.
Qed.

(** When the slots of a pass clear none of the connections it goes over,
    the pass calls the connections of the signal that are in the array, all
    of them and in the order of the array. *)
Lemma dispatch_exact s args n : ∀ k st rs extra st' d,
  wf st →
  receiversForSender st !! sender s = Some (rs ++ extra) →
  k + n ≤ length rs →
  dispatch' s args n k st = Some (Returned, st', d) →
  (∀ r, r ∈ take n (drop k rs) → signalOf st' r = signalOf st r) →
  d.*1 = filter (λ r, signalOf st r = Some s) (take n (drop k rs)).
Proof.
  induction n as [|n IH]; intros k st rs extra st' d Hwf Hrs Hk; simpl.
  { intros [= <- <-] _. by rewrite take_0. }
  assert (Hlt : k < length rs) by lia.
  destruct (lookup_lt_is_Some_2 _ _ Hlt) as [r Hr].
  rewrite Hrs. simpl. rewrite (lookup_app_l_Some _ _ _ _ Hr).
  assert (Htake : take (S n) (drop k rs) = r :: take n (drop (S k) rs)).
  { rewrite (drop_S _ _ _ Hr). done. }
  rewrite Htake.
  assert (Hvalid : ∀ x, x ∈ rs → x < length (connections st)).
  { intros x Hx. apply (wf_receivers _ _ _ _ Hwf Hrs), elem_of_app. by left. }
  assert (Hrest : ∀ x, x ∈ take n (drop (S k) rs) → x ∈ rs).
  { intros x Hx. by apply (subseteq_drop (S k)), (subseteq_take n). }
  destruct (lookup_lt_is_Some_2 _ _ (Hvalid r (list_elem_of_lookup_2 _ _ _ Hr)))
    as [c Hc].
  rewrite Hc. case_decide as Hsig.
  - destruct (invokeSlot' _ _ _ _) as [[[o [|e1]] st1]|] eqn:Hi; [|done..].
    destruct (dispatch' _ _ _ _ st1) as [[[fin2 st2] d2]|] eqn:Hd; [|done].
    intros [= -> <- <-] Hsame.
    destruct (invokeSlot_spec _ emit_rec_evolves _ _ _ _ _ _ _ Hi) as [He1 _].
    pose proof (evolves_dispatch _ emit_rec_evolves _ _ _ _ _ _ _ _ Hd) as He2.
    destruct (evolves_receivers _ _ He1 _ _ Hrs) as [l' Hrs1].
    rewrite <-app_assoc in Hrs1.
    assert (Hmid : ∀ x, x ∈ take n (drop (S k) rs) → signalOf st1 x = signalOf st x).
    { intros x Hx. eapply evolves_signalOf_between; [exact He1|exact He2|auto|].
      apply Hsame. by right. }
    rewrite fmap_cons. cbn [fst].
    rewrite filter_cons_True by (unfold signalOf; by rewrite Hc).
    f_equal. rewrite (IH (S k) st1 rs (extra ++ l') st2 d2);
      [|by apply (evolves_wf _ _ He1)|done|lia|done|].
    + apply filter_ext_in. intros x Hx. by rewrite Hmid.
    + intros x Hx. rewrite Hmid by done. apply Hsame. by right.
  - intros Hd Hsame.
    rewrite filter_cons_False by (unfold signalOf; by rewrite Hc).
    apply (IH (S k) st rs extra st' d); [done|done|lia|done|].
    intros x Hx. apply Hsame. by right.
Qed.

(** A pass over [n1 + n2] indices is the pass over the first [n1]
    followed, unless that has thrown, by the pass over the other [n2]. *)
Lemma dispatch_app s args n1 n2 : ∀ k st,
  dispatch' s args (n1 + n2) k st =
  match dispatch' s args n1 k st with
  | None => None
  | Some (Returned, st1, d1) =>
      match dispatch' s args n2 (k + n1) st1 with
      | None => None
      | Some (fin, st2, d2) => Some (fin, st2, d1 ++ d2)
      end
  | Some (Threw e, st1, d1) => Some (Threw e, st1, d1)
  end.
Proof.
  induction n1 as [|n1 IH]; intros k st; simpl.
  { rewrite Nat.add_0_r. by destruct (dispatch' _ _ _ _ _) as [[[? ?] ?]|]. }
  replace (k + S n1) with (S k + n1) by lia.
  destruct (receiversForSender st !! sender s ≫= _) as [r|]; [|apply IH].
  destruct (connections st !! r) as [c|]; [|apply IH].
  case_decide; [|apply IH].
  destruct (invokeSlot' _ _ _ _) as [[[o [|e1]] st1]|]; [|done..].
  rewrite IH. destruct (dispatch' _ _ n1 _ _) as [[[[|e2] st2] d2]|]; [|done..].
  by destruct (dispatch' _ _ n2 _ _) as [[[fin3 st3] d3]|].
Qed.

(** Slots and exception handlers that do not call [emit] always come back,
    and so does the pass. *)
Lemma run_quiet_total p st : quiet p → is_Some (run emit_rec p st).
Proof.
  intros Hq. revert st. induction Hq as [|e|s sl ctx k _ IH|s sl ctx k _ IH
    |a b k _ IH|o k _ IH|o k _ IH|o k _ IH|h k _ IH|k _ IH|u k _ IH];
    intros st; simpl; eauto.
  - by destruct (connect s sl ctx st).
  - by destruct (disconnect s sl ctx st).
Qed.

Lemma invokeSlot_quiet_total s c args st :
  (∀ sl ctx o a, quiet (slotBody sl ctx o a)) →
  (∀ eh e, quiet (handlerBody eh e)) →
  is_Some (invokeSlot' s c args st).
Proof.
  intros Hq Hh. unfold invokeSlot.
  destruct (run_quiet_total (slotBody (slot c) (context c) (sender s) args) st)
    as [[[|e] st1] ->]; [apply Hq|by eexists|].
  unfold handleException. case_decide; [by eexists|].
  destruct (run_quiet_total (handlerBody (exceptionHandler st1) e) (report e st1))
    as [[fin st2] ->]; [apply Hh|by eexists].
Qed.

Lemma dispatch_quiet_total s args n k st :
  (∀ sl ctx o a, quiet (slotBody sl ctx o a)) →
  (∀ eh e, quiet (handlerBody eh e)) →
  is_Some (dispatch' s args n k st).
Proof.
  intros Hq Hh. revert k st. induction n as [|n IH]; intros k st; simpl; [by eexists|].
  destruct (receiversForSender st !! sender s ≫= _) as [r|]; [|apply IH].
  destruct (connections st !! r) as [c|]; [|apply IH].
  case_decide; [|apply IH].
  destruct (invokeSlot_quiet_total s c args st Hq Hh) as [[[o [|e1]] st1] ->];
    [|by eexists].
  destruct (IH (S k) st1) as [[[fin2 st2] d2] ->]. by eexists.
Qed.
End Pass.

Lemma emit_quiet_total depth s args st :
  (∀ sl ctx o a, quiet (slotBody sl ctx o a)) →
  (∀ eh e, quiet (handlerBody eh e)) →
  is_Some (emit slotBody handlerBody (S depth) s args st).
Proof.
  intros Hq Hh. simpl. unfold emit_body.
  destruct (receiversForSender st !! sender s) as [rs|]; [|by eexists].
  case_decide; [by eexists|by apply dispatch_quiet_total].
Qed.

Lemma emit_exact depth s args st rs st' d :
  wf st → receiversForSender st !! sender s = Some rs →
  emit slotBody handlerBody depth s args st = Some (Returned, st', d) →
  (∀ r, r ∈ rs → signalOf st' r = signalOf st r) →
  d.*1 = filter (λ r, signalOf st r = Some s) rs.
Proof.
  intros Hwf Hrs. destruct depth as [|depth]; [done|]. simpl. unfold emit_body.
  rewrite Hrs. case_decide as Hlen.
  - intros [= <- <-] _. by apply nil_length_inv in Hlen as ->.
  - intros Hd Hsame.
    pose proof (dispatch_exact _ (preserving_emit depth) s args (length rs) 0 st rs []
                  st' d Hwf) as Hspec.
    rewrite app_nil_r, drop_0, firstn_all in Hspec. apply Hspec; [done|lia|done|done].
Qed.

(** The pass of [emit], as [dispatch_spec] describes it. *)
Lemma emit_spec depth s args st rs fin st' d :
  wf st → receiversForSender st !! sender s = Some rs →
  emit slotBody handlerBody depth s args st = Some (fin, st', d) →
  sublist d.*1 rs ∧
  (∀ r, r ∈ d.*1 → signalOf st r = Some s) ∧
  (fin = Returned → ∀ r, r ∈ rs → signalOf st' r = Some s → r ∈ d.*1) ∧
  (∃ new, reported st' = reported st ++ new ∧ sublist (thrown d) new.*2).
Proof.
  intros Hwf Hrs. destruct depth as [|depth]; [done|]. simpl. unfold emit_body.
  rewrite Hrs. case_decide as Hlen.
  - intros [= <- <- <-]. apply nil_length_inv in Hlen as ->.
    split_and!; [done|by intros r ?%elem_of_nil|by intros _ r ?%elem_of_nil|].
    exists []. by rewrite app_nil_r.
  - intros Hd.
    pose proof (dispatch_spec _ (preserving_emit depth) s args (length rs) 0 st rs []
                  fin st' d Hwf) as Hspec.
    rewrite app_nil_r, drop_0, firstn_all in Hspec. apply Hspec; [done|lia|done].
Qed.

(** *** A pass over slots that keep to themselves *)

Lemma same_registry_refl st : same_registry st st.
Proof. by split_and!. Qed.

Lemma same_registry_trans st1 st2 st3 :
  same_registry st1 st2 → same_registry st2 st3 → same_registry st1 st3.
Proof. intros (?&?&?&?&?&?) (?&?&?&?&?&?). split_and!; congruence. Qed.

Lemma served_cons slotOutcome handlerOutcome r rest :
  served slotOutcome handlerOutcome (r :: rest)
  = let pass := served slotOutcome handlerOutcome rest in
    match slotOutcome r with
    | Returned => (pass.1, (r, Returned) :: pass.2)
    | Threw e =>
        match handlerOutcome e with
        | Returned => (pass.1, (r, Threw e) :: pass.2)
        | Threw e' => (Threw e', [(r, Threw e)])
        end
    end.
Proof.
  simpl. destruct (served slotOutcome handlerOutcome rest) as [fin d].
  destruct (slotOutcome r) as [|e]; [done|]. by destruct (handlerOutcome e).
Qed.

Section Served.
Variable emit_rec : Signal → Args → Registry U → option (Outcome * Registry U * Dispatched).
Variables (s : Signal) (args : Args) (st : Registry U) (rs : list nat).
Variables (slotOutcome : nat → Outcome) (handlerOutcome : Err → Outcome).
Hypothesis Hrs : receiversForSender st !! sender s = Some rs.
Hypothesis Hslots : ∀ r c, r ∈ rs → connections st !! r = Some c → signal c = Some s →
  ∀ st0, ∃ st1,
    run emit_rec (slotBody (slot c) (context c) (sender s) args) st0
      = Some (slotOutcome r, st1) ∧
    same_registry st0 st1 ∧ reported st1 = reported st0.
Hypothesis Hhandler : ∀ e st0, exceptionHandler st0 = exceptionHandler st →
  ∃ st1,
    handleException handlerBody emit_rec e st0 = Some (handlerOutcome e, st1) ∧
    same_registry st0 st1 ∧ reported st1 = reported st0 ++ [(exceptionHandler st0, e)].

Lemma dispatch_served n : ∀ k st0,
  k + n = length rs → same_registry st st0 →
  let live := filter (λ r, signalOf st r = Some s) (drop k rs) in
  ∃ st',
    dispatch slotBody handlerBody emit_rec s args n k st0
      = Some ((served slotOutcome handlerOutcome live).1, st',
              (served slotOutcome handlerOutcome live).2) ∧
    same_registry st st' ∧
    reported st' = reported st0
      ++ ((λ e, (exceptionHandler st, e)) <$> thrown (served slotOutcome handlerOutcome live).2).
Proof.
  induction n as [|n IH]; intros k st0 Hk Hsame live; subst live.
  { rewrite drop_ge by lia. simpl. exists st0. by rewrite app_nil_r. }
  assert (Hlt : k < length rs) by lia.
  destruct (lookup_lt_is_Some_2 _ _ Hlt) as [r Hr].
  rewrite (drop_S _ _ _ Hr).
  pose proof Hsame as (Hc0 & Hr0 & _ & _ & _ & Hh0).
  assert (Hskip : signalOf st r ≠ Some s →
    dispatch slotBody handlerBody emit_rec s args (S n) k st0
    = dispatch slotBody handlerBody emit_rec s args n (S k) st0).
  { intros Hne. simpl. rewrite Hr0, Hrs. simpl. rewrite Hr, Hc0.
    unfold signalOf in Hne. destruct (connections st !! r) as [c|]; [|done].
    simpl in Hne. by rewrite decide_False. }
  destruct (decide (signalOf st r = Some s)) as [Hlive|Hdead].
  - rewrite filter_cons_True by done. rewrite served_cons. cbv zeta.
    unfold signalOf in Hlive. destruct (connections st !! r) as [c|] eqn:Hc; [|done].
    simpl in Hlive.
    assert (Hstep : dispatch slotBody handlerBody emit_rec s args (S n) k st0
      = match invokeSlot slotBody handlerBody emit_rec s c args st0 with
        | None => None
        | Some (o, Returned, st1) =>
            match dispatch slotBody handlerBody emit_rec s args n (S k) st1 with
            | None => None
            | Some (fin, st2, d) => Some (fin, st2, (r, o) :: d)
            end
        | Some (o, Threw e, st1) => Some (Threw e, st1, [(r, o)])
        end).
    { simpl. rewrite Hr0, Hrs. simpl. rewrite Hr, Hc0, Hc. by rewrite decide_True. }
    rewrite Hstep. unfold invokeSlot.
    destruct (Hslots r c (list_elem_of_lookup_2 _ _ _ Hr) Hc Hlive st0)
      as (st1 & -> & Hs1 & Hrep1).
    pose proof (same_registry_trans _ _ _ Hsame Hs1) as Hsame1.
    assert (Heh : exceptionHandler st1 = exceptionHandler st)
      by (by destruct Hsame1 as (_&_&_&_&_&?)).
    destruct (slotOutcome r) as [|e].
    + destruct (IH (S k) st1 ltac:(lia) Hsame1) as (st' & -> & Hs' & Hrep').
      exists st'. split_and!; [done..|]. simpl. by rewrite Hrep', Hrep1.
    + destruct (Hhandler e st1 Heh) as (st2 & -> & Hs2 & Hrep2).
      pose proof (same_registry_trans _ _ _ Hsame1 Hs2) as Hsame2.
      destruct (handlerOutcome e) as [|e'].
      * destruct (IH (S k) st2 ltac:(lia) Hsame2) as (st' & -> & Hs' & Hrep').
        exists st'. split_and!; [done..|]. simpl.
        by rewrite Hrep', Hrep2, Hrep1, Heh, <-app_assoc.
      * exists st2. split_and!; [done..|]. simpl. by rewrite Hrep2, Hrep1, Heh.
  - rewrite filter_cons_False by done. rewrite (Hskip Hdead). apply IH; [lia|done].
Qed.

Lemma emit_body_served :
  let live := filter (λ r, signalOf st r = Some s) rs in
  ∃ st',
    emit_body slotBody handlerBody emit_rec s args st
      = Some ((served slotOutcome handlerOutcome live).1, st',
              (served slotOutcome handlerOutcome live).2) ∧
    same_registry st st' ∧
    reported st' = reported st
      ++ ((λ e, (exceptionHandler st, e)) <$> thrown (served slotOutcome handlerOutcome live).2).
Proof.
  intros live. subst live. unfold emit_body. rewrite Hrs. case_decide as Hlen.
  - apply nil_length_inv in Hlen. rewrite Hlen. simpl. exists st.
    split_and!; [done|apply same_registry_refl|by rewrite app_nil_r].
  - destruct (dispatch_served (length rs) 0 st eq_refl (same_registry_refl st))
      as (st' & Hd & Hs & Hrep).
    rewrite drop_0 in Hd, Hrep. by exists st'.
Qed.
End Served.


(** C3. A connection object that did not exist when [emit] was called, such
    as one made by [connect] from inside a slot, is not among the
    connections the pass calls: these all come from below the length that
    the receivers array had when the pass began, however the pass ends.
    [connect] gives a new connection the first index that is free. *)
Theorem emit_skips_new_connections depth s args st fin st' d :
  wf st →
  emit slotBody handlerBody depth s args st = Some (fin, st', d) →
  (∀ r, length (connections st) ≤ r → r ∉ d.*1) ∧
  (∀ rs, receiversForSender st !! sender s = Some rs →
     ∀ r, r ∈ d.*1 → ∃ i, i < length rs ∧ rs !! i = Some r) ∧
  (∀ st1 s1 sl ctx st2, evolves st st1 → connect s1 sl ctx st1 = (true, st2) →
     connections st2 = connections st1 ++ [{| signal := Some s1; slot := sl; context := ctx |}]
     ∧ length (connections st1) ∉ d.*1).
Proof.
  intros Hwf He.
  assert (Hold : ∀ r, r ∈ d.*1 → r < length (connections st)).
  { intros r Hr. destruct (receiversForSender st !! sender s) as [rs|] eqn:Hrs.
    - destruct (emit_spec _ _ _ _ _ _ _ _ Hwf Hrs He) as (Hsub & _).
      eapply wf_receivers; [done..|]. by eapply sublist_subseteq.
    - destruct depth; [done|]. simpl in He. unfold emit_body in He.
      rewrite Hrs in He. injection He as <- <- <-. by apply elem_of_nil in Hr. }
  split_and!.
  - intros r Hge Hr. specialize (Hold r Hr). lia.
  - intros rs Hrs r Hr.
    destruct (emit_spec _ _ _ _ _ _ _ _ Hwf Hrs He) as (Hsub & _).
    apply sublist_subseteq in Hsub. apply Hsub, list_elem_of_lookup in Hr as [i Hi].
    exists i. split; [by eapply lookup_lt_Some|done].
  - intros st1 s1 sl ctx st2 Hev Hc.
    destruct (connect_cases s1 sl ctx st1) as [(r & _ & Heq)|Hf]; [congruence|].
    destruct (connect_fresh s1 sl ctx st1 Hf) as (st2' & Heq & Hconn & _).
    rewrite Heq in Hc. injection Hc as <-. split; [done|].
    intros Hr. specialize (Hold _ Hr).
    assert (length (connections st) ≤ length (connections st1)); [|lia].
    destruct (decide (length (connections st) ≤ length (connections st1))); [done|].
    exfalso. destruct (lookup_lt_is_Some_2 (connections st) (length (connections st1)))
      as [c Hc]; [lia|].
    destruct (evolves_conn _ _ Hev _ _ Hc) as (c' & Hc' & _).
    apply lookup_lt_Some in Hc'. lia.
Qed.

(** C4. Once the pass of [emit] has handled the first [j] indices of the
    receivers array, a connection that is cleared by then (its [signal] is
    no longer the signal that is emitted) is not called in the rest of the
    pass, however the pass ends. *)
Theorem emit_skips_cleared_connections depth s args st rs j fin1 st1 d1 fin st' d r :
  wf st →
  receiversForSender st !! sender s = Some rs →
  j ≤ length rs →
  dispatch slotBody handlerBody (emit slotBody handlerBody depth) s args j 0 st
    = Some (fin1, st1, d1) →
  signalOf st1 r ≠ Some s →
  emit slotBody handlerBody (S depth) s args st = Some (fin, st', d) →
  ∃ d2, d = d1 ++ d2 ∧ r ∉ d2.*1.
Proof.
  intros Hwf Hrs Hj Hd1 Hdead He. simpl in He. unfold emit_body in He.
  rewrite Hrs in He. case_decide as Hlen.
  - apply nil_length_inv in Hlen as ->. simpl in Hj.
    assert (j = 0) as -> by lia. simpl in Hd1.
    injection He as <- <- <-. injection Hd1 as <- <- <-. exists []. split; [done|].
    by intros ?%elem_of_nil.
  - replace (length rs) with (j + (length rs - j)) in He by lia.
    rewrite dispatch_app, Hd1 in He. simpl in He. destruct fin1 as [|e1].
    + destruct (dispatch _ _ _ _ _ (length rs - j) j st1) as [[[fin2 st2] d2]|] eqn:Hd2;
        [|done].
      injection He as <- <- <-. exists d2. split; [done|]. intros Hr. apply Hdead.
      pose proof (evolves_dispatch _ (preserving_emit depth) _ _ _ _ _ _ _ _ Hd1) as Hev.
      destruct (evolves_receivers _ _ Hev _ _ Hrs) as [l' Hrs1].
      destruct (dispatch_spec _ (preserving_emit depth) s args (length rs - j) j st1 rs l'
                  fin2 st2 d2) as (_ & H2 & _);
        [by apply (evolves_wf _ _ Hev)|done|lia|done|].
      by apply H2.
    + injection He as <- <- <-. exists []. split; [by rewrite app_nil_r|].
      by intros ?%elem_of_nil.
Qed.

(** *** [connect] and the binding it makes *)

Lemma binds_true st s sl ctx r :
  binds st s sl ctx r = true ↔
  ∃ c, connections st !! r = Some c ∧ signal c = Some s ∧ slot c = sl ∧ context c = ctx.
Proof.
  unfold binds. destruct (connections st !! r) as [c|].
  - rewrite matches_true. split; [by exists c|]. by intros (c' & [= <-] & ?).
  - split; [done|]. by intros (c' & ? & _).
Qed.

Lemma bindings_ext st st' l s sl ctx :
  (∀ r, r ∈ l → connections st' !! r = connections st !! r) →
  bindings st' l s sl ctx = bindings st l s sl ctx.
Proof.
  unfold bindings. induction l as [|x l IH]; intros Hl; [done|].
  assert (Hx : binds st' s sl ctx x = binds st s sl ctx x).
  { unfold binds. rewrite Hl; [done|by left]. }
  rewrite !filter_cons, Hx, IH; [done|]. intros r Hr. apply Hl. by right.
Qed.

Lemma bindings_app st l1 l2 s sl ctx :
  bindings st (l1 ++ l2) s sl ctx = bindings st l1 s sl ctx ++ bindings st l2 s sl ctx.
Proof. unfold bindings. apply filter_app. Qed.

Lemma bindings_nil st l s sl ctx :
  findConnection (connections st) l s sl ctx = None → bindings st l s sl ctx = [].
Proof.
  rewrite findConnection_None. intros Hf. unfold bindings.
  induction l as [|x l IH]; [done|].
  rewrite filter_cons_False.
  - apply IH. intros r c Hr. apply Hf. by right.
  - unfold binds. destruct (connections st !! x) as [c|] eqn:Hx; [|done].
    rewrite (Hf x c); [done|by left|done].
Qed.

(** C7. [connect] for a binding that a live connection of the sender's
    receivers array already has returns [false] and leaves the state as it
    is, and so any [emit] after it. Otherwise it returns [true], creates
    one connection object and puts its index (the same index, hence the
    same object) at the end of the receivers array of the sender and at
    the end of the senders array of the receiver, which is the context if
    there is one and the slot if not. Either way the receivers array then
    holds the binding once, if it held it at most once before. *)
Theorem connect_once s sl ctx st :
  let rs := default [] (receiversForSender st !! sender s) in
  let receiver := default sl ctx in
  let ss := default [] (sendersForReceiver st !! receiver) in
  let r := length (connections st) in
  let st' := (connect s sl ctx st).2 in
  ((∃ r0 c, r0 ∈ rs ∧ connections st !! r0 = Some c ∧
            signal c = Some s ∧ slot c = sl ∧ context c = ctx) →
     connect s sl ctx st = (false, st) ∧
     ∀ depth args, emit slotBody handlerBody depth s args st'
                   = emit slotBody handlerBody depth s args st) ∧
  ((∀ r0 c, r0 ∈ rs → connections st !! r0 = Some c →
            ¬ (signal c = Some s ∧ slot c = sl ∧ context c = ctx)) →
     (connect s sl ctx st).1 = true ∧
     connections st' = connections st ++ [{| signal := Some s; slot := sl; context := ctx |}] ∧
     receiversForSender st' = <[sender s := rs ++ [r]]> (receiversForSender st) ∧
     sendersForReceiver st' = <[receiver := ss ++ [r]]> (sendersForReceiver st)) ∧
  (wf st → length (bindings st rs s sl ctx) ≤ 1 →
     length (bindings st' (default [] (receiversForSender st' !! sender s)) s sl ctx) = 1).
Proof.
  intros rs receiver ss r st'. split_and!.
  - intros (r0 & c & Hr0 & Hc & Hm).
    destruct (connect_cases s sl ctx st) as [(r1 & _ & Heq)|Hf].
    + subst st'. rewrite Heq. done.
    + exfalso. rewrite findConnection_None in Hf.
      specialize (Hf r0 c Hr0 Hc). apply matches_true in Hm. congruence.
  - intros Hno.
    destruct (connect_cases s sl ctx st) as [(r1 & Hf & _)|Hf].
    + exfalso. apply findConnection_Some in Hf as (Hr1 & c & Hc & Hm).
      apply matches_true in Hm. by eapply Hno.
    + destruct (connect_fresh s sl ctx st Hf) as (st2 & Heq & Hc & Hr & Hs & _).
      subst st'. rewrite Heq. done.
  - intros Hwf Hle.
    destruct (connect_cases s sl ctx st) as [(r1 & Hf & Heq)|Hf].
    + subst st'. rewrite Heq. simpl. fold rs.
      apply findConnection_Some in Hf as (Hr1 & c & Hc & Hm).
      assert (r1 ∈ bindings st rs s sl ctx) as Hin.
      { apply list_elem_of_filter. split; [|done]. unfold binds. by rewrite Hc. }
      destruct (bindings st rs s sl ctx) as [|x [|y l]]; simpl in *;
        [by apply elem_of_nil in Hin|done|lia].
    + destruct (connect_fresh s sl ctx st Hf) as (st2 & Heq & Hc & Hr & _).
      subst st'. rewrite Heq. simpl. rewrite Hr, lookup_insert_eq. simpl.
      rewrite bindings_app, length_app, (bindings_ext st st2).
      * rewrite (bindings_nil _ _ _ _ _ Hf). simpl.
        unfold bindings. rewrite filter_cons_True; [done|].
        unfold binds. rewrite Hc. rewrite lookup_app_r by done.
        rewrite Nat.sub_diag. simpl. apply matches_true. done.
      * intros r0 Hr0. rewrite Hc. apply lookup_app_l.
        destruct (receiversForSender st !! sender s) as [l|] eqn:Hl;
          simpl in Hr0; [|by apply elem_of_nil in Hr0].
        by eapply wf_receivers.
Qed.
End Registry.

(** *** The scenarios of the test suite *)
Section Tests.
Import SignalingTests.

Lemma body_quiet sl ctx o a : quiet (body sl ctx o a).
Proof. unfold body. repeat case_decide; repeat constructor. Qed.

Lemma onError_quiet eh e : quiet (onError eh e).
Proof. unfold onError. case_decide; constructor. Qed.

Lemma connected_with_logger_wf : wf connected_with_logger.
Proof. apply (bool_decide_unpack _). vm_compute. exact I. Qed.



(** [adder.add] connects [handler3.onThree] while [three] is emitted: the
    pass calls the three connections made before, and the new connection,
    which gets index [3], is not called. *)
Lemma emit_skips_new_connections_witness :
  ∃ st' d,
    emit body onError 1 three 0 connected_with_adder = Some (Returned, st', d) ∧
    user st' = [handler1; handler2] ∧
    receiversForSender st' !! obj = Some [0; 1; 2; 3] ∧
    signalOf st' 3 = Some three ∧
    (3 ∉ d.*1) ∧
    (∀ r, r ∈ d.*1 → ∃ i, i < 3 ∧ [0; 1; 2] !! i = Some r).
Proof.
  eexists _, _. split; [vm_compute; reflexivity|]. do 3 (split; [reflexivity|]).
  pose proof (emit_skips_new_connections body onError 1 three 0 connected_with_adder _ _ _
                ltac:(apply (bool_decide_unpack _); vm_compute; exact I)
                eq_refl) as (Hnew & Hold & _).
  split.
  - apply Hnew. vm_compute. lia.
  - apply (Hold [0; 1; 2]). reflexivity.
Defined.

(** [remover.remove] disconnects [handler3.onThree] while [three] is
    emitted: once the pass has handled the first three indices, the
    connection with index [3] is cleared, and the rest of the pass does
    not call it. *)
Lemma emit_skips_cleared_connections_witness :
  ∃ st1 d1 st' d,
    dispatch body onError (emit body onError 0) three 0 3 0 connected_with_remover
      = Some (Returned, st1, d1) ∧
    signalOf connected_with_remover 3 = Some three ∧
    signalOf st1 3 = None ∧
    emit body onError 1 three 0 connected_with_remover = Some (Returned, st', d) ∧
    user st' = [handler1; handler2] ∧
    ∃ d2, d = d1 ++ d2 ∧ (3 ∉ d2.*1).
Proof.
  eexists _, _, _, _. split; [vm_compute; reflexivity|].
  do 2 (split; [reflexivity|]). split; [vm_compute; reflexivity|].
  split; [reflexivity|].
  eapply (emit_skips_cleared_connections body onError 0 three 0 connected_with_remover
            [0; 1; 2; 3] 3).
  - apply (bool_decide_unpack _). vm_compute. exact I.
  - reflexivity.
  - vm_compute. lia.
  - vm_compute. reflexivity.
  - vm_compute. discriminate.
  - vm_compute. reflexivity.
Defined.

(** The second [connect] of the same slot and context returns [false] and
    changes nothing; a first [connect] of another slot makes connection
    [1] and puts it at the end of both arrays. *)
Lemma connect_once_witness :
  (connect one onOne (Some handler1) connected_once = (false, connected_once) ∧
   ∀ depth args,
     emit body onError depth one args (connect one onOne (Some handler1) connected_once).2
     = emit body onError depth one args connected_once) ∧
  (let st' := (connect one onThrow (Some handler2) connected_once).2 in
   (connect one onThrow (Some handler2) connected_once).1 = true ∧
   connections st' = (connections connected_once
      ++ [{| signal := Some one; slot := onThrow; context := Some handler2 |}]) ∧
   receiversForSender st' = <[obj := [0; 1]]> (receiversForSender connected_once) ∧
   sendersForReceiver st' = <[handler2 := [1]]> (sendersForReceiver connected_once)) ∧
  length (bindings (connect one onOne (Some handler1) connected_once).2
            [0] one onOne (Some handler1)) = 1.
Proof.
  split; [|split].
  - apply (proj1 (connect_once body onError one onOne (Some handler1) connected_once)).
    exists 0, {| signal := Some one; slot := onOne; context := Some handler1 |}.
    split_and!; [|reflexivity..]. vm_compute. left.
  - apply (proj1 (proj2 (connect_once body onError one onThrow (Some handler2) connected_once))).
    intros r0 c Hr0 Hc (_ & Hsl & _).
    vm_compute in Hr0. apply list_elem_of_singleton in Hr0 as ->.
    vm_compute in Hc. injection Hc as <-. discriminate Hsl.
  - apply (proj2 (proj2 (connect_once body onError one onOne (Some handler1) connected_once))).
    + apply (bool_decide_unpack _). vm_compute. exact I.
    + vm_compute. lia.
Defined.
End Tests.

End SignalingFacts.

(** ** The message loop *)
Module MessagingFacts.
Import Schedule Messaging.

Section Loop.
Context {U : Type}.
Variable conflate : Message → Message → bool * Message.
Variable processMessage : Obj → Message → Prog U unit.
Variable messageHook : Obj → Obj → Message → Prog U bool.
Variable handlerBody : Obj → Err → Prog U unit.

Implicit Types (st : Loop U) (h hook : Obj) (m : Message) (q : list PostedMessage).

(** *** [postMessage] *)

Lemma conflateSome_spec h m q :
  (conflateSome conflate h m q).2 = upto_first (omap (answer conflate h m) q) ∧
  (conflateSome conflate h m q).1.1 = existsb snd (omap (answer conflate h m) q) ∧
  ident <$> (conflateSome conflate h m q).1.2 = ident <$> q ∧
  handler <$> (conflateSome conflate h m q).1.2 = handler <$> q ∧
  shape <$> (conflateSome conflate h m q).1.2 = shape <$> q.
Proof.
  induction q as [|posted q IH]; [done|]. simpl.
  destruct (conflateSome conflate h m q) as [[b q'] calls].
  destruct IH as (IH1 & IH2 & IH3 & IH4 & IH5). simpl in *.
  unfold answer. destruct posted as [i [h'|] [pm|]]; simpl;
    repeat (case_decide; simplify_eq; simpl; try done);
    try (destruct (isConflatable pm); simpl);
    try (destruct (conflate pm m) as [[|] pm']; simpl);
    split_and!; simpl; try done; try (f_equal; assumption).
Qed.

Lemma enqueueMessage_queue h m st :
  messageQueue (enqueueMessage h m st) =
  messageQueue st ++ [{| ident := allocated st; handler := Some h; msg := Some m |}].
Proof.
  unfold enqueueMessage, schedule. simpl. by case_decide.
Qed.

Lemma enqueueMessage_allocated h m st :
  allocated (enqueueMessage h m st) = S (allocated st).
Proof.
  unfold enqueueMessage, schedule. simpl. by case_decide.
Qed.

(** C6. A message that is not conflatable goes to the end of the queue and
    the queue is otherwise untouched. For a conflatable message, [conflate]
    is called on the entries of the queue that have the same handler and a
    conflatable message of the same type, from the front, up to and
    including the first that answers [true]; an answer [false] does not end
    the scan. If some candidate answers [true] no entry is added; if none
    does, the message is added at the end as a new entry. *)
Theorem postMessage_conflation h m st :
  let q := messageQueue st in
  let posted := {| ident := allocated st; handler := Some h; msg := Some m |} in
  let answers := omap (answer conflate h m) q in
  let st' := postMessage conflate h m st in
  (isConflatable m = false → messageQueue st' = q ++ [posted]) ∧
  (isConflatable m = true →
     (conflateSome conflate h m q).2 = upto_first answers ∧
     ident <$> messageQueue st' =
       (ident <$> q) ++ (if existsb snd answers then [] else [allocated st]) ∧
     handler <$> messageQueue st' =
       (handler <$> q) ++ (if existsb snd answers then [] else [Some h]) ∧
     (existsb snd answers = false → last (messageQueue st') = Some posted)).
Proof.
  intros q posted answers st'. subst st'. unfold postMessage. split.
  - intros ->. simpl. apply enqueueMessage_queue.
  - intros ->. simpl.
    destruct (conflateSome_spec h m q) as (H1 & H2 & H3 & H4 & _).
    fold q. destruct (conflateSome conflate h m q) as [[b q'] calls]. simpl in *.
    fold answers in H1, H2. rewrite <-H2. split; [done|].
    destruct b; simpl.
    + rewrite !app_nil_r. by split_and!.
    + rewrite enqueueMessage_queue. simpl. rewrite !fmap_app, last_snoc.
      simpl. rewrite H3, H4. by split_and!.
Qed.

(** *** [sendMessage] and the hooks *)

Lemma chain_elem hook (hooks : list (option Obj)) : hook ∈ chain hooks ↔ Some hook ∈ hooks.
Proof.
  unfold chain. rewrite list_elem_of_omap. split.
  - intros (x & Hx & Hid). unfold id in Hid. subst x. by apply elem_of_reverse.
  - intros Hin. exists (Some hook). split; [by apply elem_of_reverse|done].
Qed.

Lemma chain_snoc hook (hooks : list (option Obj)) :
  chain (hooks ++ [Some hook]) = hook :: chain hooks.
Proof. unfold chain. by rewrite reverse_snoc. Qed.

Lemma indexOf_None hook (hooks : list (option Obj)) :
  indexOf hook hooks = None ↔ Some hook ∉ hooks.
Proof.
  unfold indexOf. rewrite fmap_None, list_find_None, Forall_forall. split.
  - intros H Hin. by apply (H _ Hin).
  - intros H x Hx ->. done.
Qed.

(** Installing a hook that is not installed puts it first in the chain. *)
Lemma installMessageHook_chain h hook st :
  Some hook ∉ default [] (messageHooks st !! h) →
  chain (default [] (messageHooks (installMessageHook h hook st) !! h))
  = hook :: chain (default [] (messageHooks st !! h)).
Proof.
  intros Hnot. unfold installMessageHook.
  destruct (messageHooks st !! h) as [hooks|] eqn:Hh; simpl in *.
  - apply indexOf_None in Hnot. rewrite Hnot. simpl.
    rewrite lookup_insert_eq. simpl. apply chain_snoc.
  - rewrite lookup_insert_eq. done.
Qed.

Section Step.
Variable call_rec : Call → Loop U → option (Result unit * Loop U).

Abbreviation handleException' := (handleException conflate handlerBody call_rec).
Abbreviation invokeHook' := (invokeHook conflate messageHook handlerBody call_rec).
Abbreviation invokeHandler' := (invokeHandler conflate processMessage handlerBody call_rec).
Abbreviation everyHook' := (everyHook conflate messageHook handlerBody call_rec).
Abbreviation sendMessage' :=
  (sendMessage conflate processMessage messageHook handlerBody call_rec).

Lemma everyHook_spec hooks h m : ∀ st r called st',
  everyHook' hooks h m st = Some (r, called, st') →
  called.*1 `prefix_of` omap id hooks ∧
  ∀ passed, r = Returned passed → chain_outcome (omap id hooks) passed called.
Proof.
  induction hooks as [|[hook|] hooks IH]; intros st r called st'; simpl.
  - intros [= <- <- _]. split; [done|]. intros passed [= <-]. left. by split_and!.
  - destruct (invokeHook' hook h m st) as [[[[|]|e] st1]|]; [| | |done].
    + destruct (everyHook' hooks h m st1) as [[[r2 c] st2]|] eqn:He; [|done].
      intros [= <- <- _]. destruct (IH _ _ _ _ He) as [Hpre Hout].
      split; [simpl; by apply prefix_cons|]. intros passed ->.
      destruct (Hout passed eq_refl)
        as [(-> & Hc & Hall)|(-> & pre & hk & rest & Hc & -> & Hall)].
      * left. split_and!; [done|simpl; by f_equal|by constructor].
      * right. split; [done|]. exists ((hook, true) :: pre), hk, rest.
        split_and!; [simpl; by f_equal|done|by constructor].
    + intros [= <- <- _]. split; [simpl; apply prefix_cons, prefix_nil|].
      intros passed [= <-]. right. split; [done|]. exists [], hook, (omap id hooks).
      by split_and!.
    + intros [= <- <- _]. split; [apply prefix_nil|done].
  - apply IH.
Qed.

Lemma sendMessage_spec h m st r dl st' :
  sendMessage' h m st = Some (r, dl, st') →
  let c := chain (default [] (messageHooks st !! h)) in
  (consulted dl).*1 `prefix_of` c ∧
  (delivered dl = true → chain_outcome c true (consulted dl)) ∧
  (r = Returned () → chain_outcome c (delivered dl) (consulted dl)).
Proof.
  unfold sendMessage.
  assert (Hnone : ∀ st0,
    match invokeHandler' h m st0 with
    | Some (r, st1) => Some (r, {| consulted := []; delivered := true |}, st1)
    | None => None
    end = Some (r, dl, st') →
    (consulted dl).*1 `prefix_of` [] ∧
    (delivered dl = true → chain_outcome [] true (consulted dl)) ∧
    (r = Returned () → chain_outcome [] (delivered dl) (consulted dl))).
  { intros st0. destruct (invokeHandler' _ _ _) as [[r1 st1]|]; [|done].
    intros [= _ <- _]. split_and!; [done|..]; intros _; left; by split_and!. }
  destruct (messageHooks st !! h) as [hooks|]; simpl; [|apply Hnone].
  case_decide as Hlen.
  { apply nil_length_inv in Hlen as ->. apply Hnone. }
  destruct (everyHook' (reverse hooks) h m st) as [[[r1 c] st1]|] eqn:He; [|done].
  destruct (everyHook_spec _ _ _ _ _ _ _ He) as [Hpre Hout]. fold (chain hooks) in Hpre, Hout.
  destruct r1 as [[|]|e].
  - destruct (invokeHandler' _ _ _) as [[r2 st2]|]; [|done]. intros [= _ <- _].
    split_and!; [done|..]; intros _; by apply Hout.
  - intros [= _ <- _]. split_and!; [done|done|]. intros _. by apply Hout.
  - intros [= <- <- _]. by split_and!.
Qed.

(** User code that makes no call into the loop comes back and leaves the
    loop as it is. *)
Lemma run_quiet {R} (p : Prog U R) st :
  quiet p → ∃ r st', run conflate call_rec p st = Some (r, st') ∧ same_loop st st'.
Proof.
  intros Hq. revert st. induction Hq as [r|e|h k _ IH|k _ IH|u k _ IH]; intros st; simpl.
  - exists (Returned r), st. split; [done|]. by split_and!.
  - exists (Threw e), st. split; [done|]. by split_and!.
  - destruct (IH (exceptionHandler st) (with_handler h st)) as (r & st' & -> & Hs).
    exists r, st'. split; [done|]. exact Hs.
  - apply IH.
  - destruct (IH (with_user u st)) as (r & st' & -> & Hs).
    exists r, st'. split; [done|]. exact Hs.
Qed.

Lemma run_calm {R} (p : Prog U R) st :
  calm p → ∃ x st', run conflate call_rec p st = Some (Returned x, st') ∧ same_loop st st'.
Proof.
  intros Hq. revert st. induction Hq as [r|h k _ IH|k _ IH|u k _ IH]; intros st; simpl.
  - exists r, st. split; [done|]. by split_and!.
  - destruct (IH (exceptionHandler st) (with_handler h st)) as (r & st' & -> & Hs).
    exists r, st'. split; [done|]. exact Hs.
  - apply IH.
  - destruct (IH (with_user u st)) as (r & st' & -> & Hs).
    exists r, st'. split; [done|]. exact Hs.
Qed.

Lemma same_loop_refl st : same_loop st st.
Proof. by split_and!. Qed.

Lemma same_loop_report e st st' : same_loop st st' → same_loop st (report e st').
Proof. intros (?&?&?&?&?&?&?). by split_and!. Qed.

Lemma same_loop_trans st1 st2 st3 : same_loop st1 st2 → same_loop st2 st3 → same_loop st1 st3.
Proof.
  intros (?&?&?&?&?&?&?) (?&?&?&?&?&?&?). split_and!; congruence.
Qed.

(** An exception handler that makes no call into the loop and does not
    throw: the call of the handler returns. *)
Lemma handleException_calm e st :
  (∀ eh e, calm (handlerBody eh e)) →
  ∃ st', handleException' e st = Some (Returned (), st') ∧ same_loop st st'.
Proof.
  intros Hc. unfold handleException. case_decide.
  - eexists. split; [done|]. apply same_loop_report, same_loop_refl.
  - destruct (run_calm _ (report e st) (Hc (exceptionHandler st) e)) as ([] & st' & -> & Hs).
    exists st'. split; [done|].
    eapply same_loop_trans; [apply same_loop_report, same_loop_refl|exact Hs].
Qed.

Section Quiet.
Hypothesis handlers_calm : ∀ eh e, calm (handlerBody eh e).

Lemma invokeHook_quiet hook h m st :
  quiet (messageHook hook h m) →
  ∃ b st', invokeHook' hook h m st = Some (Returned b, st') ∧ same_loop st st'.
Proof.
  intros Hq. unfold invokeHook.
  destruct (run_quiet _ st Hq) as ([b|e] & st' & -> & Hs).
  - by exists b, st'.
  - destruct (handleException_calm e st' handlers_calm) as (st2 & -> & Hs2).
    exists true, st2. split; [done|]. by eapply same_loop_trans.
Qed.

Lemma invokeHandler_quiet h m st :
  quiet (processMessage h m) →
  ∃ st', invokeHandler' h m st = Some (Returned (), st') ∧ same_loop st st'.
Proof.
  intros Hq. unfold invokeHandler.
  destruct (run_quiet _ st Hq) as ([b|e] & st' & -> & Hs).
  - by exists st'.
  - destruct (handleException_calm e st' handlers_calm) as (st2 & -> & Hs2).
    exists st2. split; [done|]. by eapply same_loop_trans.
Qed.

Lemma everyHook_quiet hooks h m st :
  (∀ hook, quiet (messageHook hook h m)) →
  ∃ passed called st',
    everyHook' hooks h m st = Some (Returned passed, called, st') ∧ same_loop st st'.
Proof.
  intros Hq. revert st. induction hooks as [|[hook|] hooks IH]; intros st; simpl.
  - eexists _, _, _. split; [done|]. by split_and!.
  - destruct (invokeHook_quiet hook h m st (Hq hook)) as ([|] & st1 & -> & Hs1).
    + destruct (IH st1) as (p & c & st2 & Hx & Hs2). rewrite Hx.
      eexists _, _, _. split; [done|]. by eapply same_loop_trans.
    + by eexists _, _, _.
  - apply IH.
Qed.

Lemma sendMessage_quiet h m st :
  quiet (processMessage h m) → (∀ hook, quiet (messageHook hook h m)) →
  ∃ dl st', sendMessage' h m st = Some (Returned (), dl, st') ∧ same_loop st st'.
Proof.
  intros Hp Hh. unfold sendMessage.
  assert (Hd : ∀ called st0, same_loop st st0 →
    ∃ dl st',
      match invokeHandler' h m st0 with
      | Some (r, st1) => Some (r, {| consulted := called; delivered := true |}, st1)
      | None => None
      end = Some (Returned (), dl, st') ∧ same_loop st st').
  { intros called st0 Hs0. destruct (invokeHandler_quiet h m st0 Hp) as (st1 & -> & Hs1).
    eexists _, _. split; [done|]. by eapply same_loop_trans. }
  destruct (messageHooks st !! h) as [hooks|]; [|by apply Hd, same_loop_refl].
  case_decide; [by apply Hd, same_loop_refl|].
  destruct (everyHook_quiet (reverse hooks) h m st Hh) as ([|] & c & st1 & -> & Hs1).
  - by apply Hd.
  - by eexists _, _.
Qed.
End Quiet.

(** User code that calls neither [sendMessage] nor [flush] comes back, and
    so does [sendMessage] for a handler with such code and such hooks. *)
Lemma run_shallow {R} (p : Prog U R) st :
  shallow p → is_Some (run conflate call_rec p st).
Proof.
  intros Hs. revert st.
  induction Hs as [r|e|h m k _ IH|h hook k _ IH|h hook k _ IH|h k _ IH|h k _ IH
    |k _ IH|u k _ IH]; intros st; simpl; eauto.
Qed.

Lemma sendMessage_shallow h m st :
  shallow (processMessage h m) → (∀ hook, shallow (messageHook hook h m)) →
  (∀ eh e, shallow (handlerBody eh e)) →
  is_Some (sendMessage' h m st).
Proof.
  intros Hp Hh Hx.
  assert (Hr : ∀ e st0, is_Some (handleException' e st0)).
  { intros e st0. unfold handleException. case_decide; [by eexists|].
    apply run_shallow, Hx. }
  assert (Hi : ∀ hook st0, is_Some (invokeHook' hook h m st0)).
  { intros hook st0. unfold invokeHook.
    destruct (run_shallow _ st0 (Hh hook)) as [[[b|e] st1] ->]; [by eexists|].
    destruct (Hr e st1) as [[[[]|e'] st2] ->]; by eexists. }
  assert (He : ∀ hooks st0, is_Some (everyHook' hooks h m st0)).
  { induction hooks as [|[hook|] hooks IH]; intros st0; simpl; [by eexists| |apply IH].
    destruct (Hi hook st0) as [[[[|]|e] st1] ->]; [|by eexists..].
    destruct (IH st1) as [[[p c] st2] ->]. by eexists. }
  assert (Hd : ∀ called st0,
    is_Some (match invokeHandler' h m st0 with
             | Some (r, st1) => Some (r, {| consulted := called; delivered := true |}, st1)
             | None => None
             end)).
  { intros called st0. unfold invokeHandler.
    destruct (run_shallow _ st0 Hp) as [[[b|e] st1] ->]; [by eexists|].
    destruct (Hr e st1) as [[r st2] ->]. by eexists. }
  unfold sendMessage. destruct (messageHooks st !! h) as [hooks|]; [|apply Hd].
  case_decide; [apply Hd|].
  destruct (He (reverse hooks) st) as [[[[[|]|e] c] st1] ->]; [apply Hd|by eexists..].
Qed.

(** *** Hooks and a handler that keep to themselves *)

Lemma same_handler_refl st : same_handler st st.
Proof. split; [apply same_loop_refl|done]. Qed.

Lemma same_handler_trans st1 st2 st3 :
  same_handler st1 st2 → same_handler st2 st3 → same_handler st1 st3.
Proof.
  intros [H1 E1] [H2 E2]. split; [by eapply same_loop_trans|congruence].
Qed.

Lemma consult_cons verdict handled hook rest :
  consult verdict handled (hook :: rest)
  = let tail := consult verdict handled rest in
    match verdict hook with
    | Returned false => (Returned false, [(hook, false)], [])
    | Returned true => (tail.1.1, (hook, true) :: tail.1.2, tail.2)
    | Threw e =>
        match handled e with
        | Returned _ => (tail.1.1, (hook, true) :: tail.1.2, e :: tail.2)
        | Threw e' => (Threw e', [], [e])
        end
    end.
Proof.
  simpl. destruct (consult verdict handled rest) as [[r called] errs].
  destruct (verdict hook) as [[|]|e]; [done..|]. by destruct (handled e).
Qed.

Section Sent.
Variables (h : Obj) (m : Message) (st : Loop U).
Variables (verdict : Obj → Result bool) (handled : Err → Result unit).
Variable outcome : Result unit.
Hypothesis Hhooks : ∀ hook, Some hook ∈ default [] (messageHooks st !! h) →
  ∀ st0, ∃ st1,
    run conflate call_rec (messageHook hook h m) st0 = Some (verdict hook, st1) ∧
    same_handler st0 st1 ∧ reported st1 = reported st0.
Hypothesis Hprocess : ∀ st0, ∃ st1,
  run conflate call_rec (processMessage h m) st0 = Some (outcome, st1) ∧
  same_handler st0 st1 ∧ reported st1 = reported st0.
Hypothesis Hhandler : ∀ e st0, exceptionHandler st0 = exceptionHandler st →
  ∃ st1,
    handleException' e st0 = Some (handled e, st1) ∧
    same_handler st0 st1 ∧ reported st1 = reported st0 ++ [(exceptionHandler st0, e)].

Lemma everyHook_consult (hooks : list (option Obj)) : ∀ st0,
  (∀ hook, Some hook ∈ hooks → Some hook ∈ default [] (messageHooks st !! h)) →
  same_handler st st0 →
  let asked := consult verdict handled (omap id hooks) in
  ∃ st1,
    everyHook' hooks h m st0 = Some (asked.1.1, asked.1.2, st1) ∧
    same_handler st st1 ∧
    reported st1 = reported st0 ++ ((λ e, (exceptionHandler st, e)) <$> asked.2).
Proof.
  induction hooks as [|[hook|] hooks IH]; intros st0 Hin Hsame asked; subst asked.
  - exists st0. simpl. by rewrite app_nil_r.
  - change (omap id (Some hook :: hooks)) with (hook :: omap id hooks).
    rewrite consult_cons. cbv zeta.
    assert (Hstep : everyHook' (Some hook :: hooks) h m st0
      = match invokeHook' hook h m st0 with
        | None => None
        | Some (Threw e, st1) => Some (Threw e, [], st1)
        | Some (Returned false, st1) => Some (Returned false, [(hook, false)], st1)
        | Some (Returned true, st1) =>
            match everyHook' hooks h m st1 with
            | None => None
            | Some (passed, called, st2) => Some (passed, (hook, true) :: called, st2)
            end
        end) by done.
    rewrite Hstep. unfold invokeHook.
    destruct (Hhooks hook (Hin hook ltac:(left)) st0) as (st1 & -> & Hs1 & Hrep1).
    pose proof (same_handler_trans _ _ _ Hsame Hs1) as Hsame1.
    assert (Hrest : ∀ hook', Some hook' ∈ hooks →
              Some hook' ∈ default [] (messageHooks st !! h)).
    { intros hook' Hh'. apply Hin. by right. }
    destruct (verdict hook) as [[|]|e].
    + destruct (IH st1 Hrest Hsame1) as (st2 & -> & Hs2 & Hrep2).
      exists st2. split_and!; [done..|]. simpl. by rewrite Hrep2, Hrep1.
    + exists st1. split_and!; [done..|]. simpl. by rewrite Hrep1, app_nil_r.
    + destruct (Hhandler e st1 (proj2 Hsame1)) as (st2 & -> & Hs2 & Hrep2).
      pose proof (same_handler_trans _ _ _ Hsame1 Hs2) as Hsame2.
      destruct (handled e) as [[]|e'].
      * destruct (IH st2 Hrest Hsame2) as (st3 & -> & Hs3 & Hrep3).
        exists st3. split_and!; [done..|]. simpl.
        by rewrite Hrep3, Hrep2, Hrep1, (proj2 Hsame1), <-app_assoc.
      * exists st2. split_and!; [done..|]. simpl.
        by rewrite Hrep2, Hrep1, (proj2 Hsame1).
  - simpl. apply IH; [|done]. intros hook' Hh'. apply Hin. by right.
Qed.

Lemma sendMessage_sent :
  let pass := sent verdict handled outcome (chain (default [] (messageHooks st !! h))) in
  ∃ st',
    sendMessage' h m st = Some (pass.1.1, pass.1.2, st') ∧
    same_handler st st' ∧
    reported st' = reported st ++ ((λ e, (exceptionHandler st, e)) <$> pass.2).
Proof.
  intros pass. subst pass. unfold sendMessage, sent.
  assert (Hd : ∀ called errs st0, same_handler st st0 →
    reported st0 = reported st ++ ((λ e, (exceptionHandler st, e)) <$> errs) →
    let pass :=
      match outcome with
      | Returned _ => (Returned (), {| consulted := called; delivered := true |}, errs)
      | Threw e => (handled e, {| consulted := called; delivered := true |}, errs ++ [e])
      end in
    ∃ st',
      match invokeHandler' h m st0 with
      | Some (r, st1) => Some (r, {| consulted := called; delivered := true |}, st1)
      | None => None
      end = Some (pass.1.1, pass.1.2, st') ∧
      same_handler st st' ∧
      reported st' = reported st ++ ((λ e, (exceptionHandler st, e)) <$> pass.2)).
  { intros called errs st0 Hs0 Hrep0 pass. subst pass. unfold invokeHandler.
    destruct (Hprocess st0) as (st1 & -> & Hs1 & Hrep1).
    pose proof (same_handler_trans _ _ _ Hs0 Hs1) as Hsame1.
    destruct outcome as [[]|e].
    - exists st1. split_and!; [done..|]. simpl. by rewrite Hrep1.
    - destruct (Hhandler e st1 (proj2 Hsame1)) as (st2 & -> & Hs2 & Hrep2).
      exists st2. split_and!; [done|by eapply same_handler_trans|]. simpl.
      by rewrite Hrep2, Hrep1, Hrep0, (proj2 Hsame1), fmap_app, <-app_assoc. }
  pose proof (λ hooks, everyHook_consult (reverse hooks) st) as Hec.
  destruct (messageHooks st !! h) as [hooks|] eqn:Hhk; simpl.
  - case_decide as Hlen.
    { apply nil_length_inv in Hlen as ->. simpl.
      apply (Hd [] [] st (same_handler_refl st)). by rewrite app_nil_r. }
    destruct (Hec hooks) as (st1 & -> & Hs1 & Hrep1).
    { intros hook Hin. simpl. by apply elem_of_reverse. }
    { apply same_handler_refl. }
    unfold chain.
    destruct (consult verdict handled (omap id (reverse hooks)))
      as [[[[|]|e] called] errs]; simpl in *.
    + by apply Hd.
    + by exists st1.
    + by exists st1.
  - apply (Hd [] [] st (same_handler_refl st)). by rewrite app_nil_r.
Qed.
End Sent.


(** C10. The hooks [sendMessage] calls are taken from the hook array as it
    is when [sendMessage] begins, whatever the hooks do to the array while
    they run: the hooks called are the first hooks of that array's chain; a
    hook that is not in the array at that moment (one installed by a hook of
    the chain, say) is not called; if no hook returns [false], every hook of
    the array at that moment is called, also one that a hook called before
    it has removed; and the cleared entries of the array stand in nobody's
    way: [processMessage] is called unless the last hook called returned
    [false] (or an exception handler has thrown, which ends [sendMessage]),
    and it is called when the array holds cleared entries only. With hooks,
    a handler and exception handlers that call neither [sendMessage] nor
    [flush] (they may install and remove hooks), [sendMessage] comes
    back. *)
Theorem hook_chain_is_a_snapshot h m st :
  let snapshot := default [] (messageHooks st !! h) in
  (shallow (processMessage h m) → (∀ hook, shallow (messageHook hook h m)) →
   (∀ eh e, shallow (handlerBody eh e)) →
     is_Some (sendMessage' h m st)) ∧
  ∀ r dl st', sendMessage' h m st = Some (r, dl, st') →
    (consulted dl).*1 `prefix_of` chain snapshot ∧
    (∀ hook, hook ∈ (consulted dl).*1 → Some hook ∈ snapshot) ∧
    (delivered dl = true → ∀ hook, Some hook ∈ snapshot → hook ∈ (consulted dl).*1) ∧
    (r = Returned () → delivered dl = false →
       ∃ hook, last (consulted dl) = Some (hook, false)) ∧
    (Forall (λ x, x = None) snapshot → delivered dl = true ∧ consulted dl = []).
Proof.
  intros snapshot. split; [apply sendMessage_shallow|].
  intros r dl st' Hs. destruct (sendMessage_spec _ _ _ _ _ _ Hs) as (Hpre & Hdel & Hret).
  fold snapshot in Hpre, Hdel, Hret.
  split_and!.
  - exact Hpre.
  - intros hook Hin. apply chain_elem. destruct Hpre as [k ->].
    apply elem_of_app. by left.
  - intros Hd hook Hin. destruct (Hdel Hd) as [(_ & -> & _)|(Hf & _)]; [|congruence].
    by apply chain_elem.
  - intros Hr Hd. destruct (Hret Hr) as [(Ht & _)|(_ & pre & hook & rest & _ & -> & _)];
      [congruence|]. exists hook. apply last_snoc.
  - intros Hnull. assert (Hc : chain snapshot = []).
    { destruct (chain snapshot) as [|x l] eqn:Hc; [done|].
      assert (Hx : x ∈ chain snapshot) by (rewrite Hc; left).
      apply chain_elem in Hx. rewrite Forall_forall in Hnull.
      by specialize (Hnull _ Hx). }
    assert (Hnil : consulted dl = []).
    { rewrite Hc in Hpre. apply prefix_nil_inv in Hpre. by apply fmap_nil_inv in Hpre. }
    split; [|done]. clear Hpre Hdel Hret. revert Hs. unfold sendMessage.
    assert (Hnone : ∀ st0,
      match invokeHandler' h m st0 with
      | Some (r, st1) => Some (r, {| consulted := []; delivered := true |}, st1)
      | None => None
      end = Some (r, dl, st') → delivered dl = true).
    { intros st0. destruct (invokeHandler' h m st0) as [[r1 st1]|]; [|done].
      by intros [= _ <- _]. }
    assert (Hcalled : ∀ called st0,
      match invokeHandler' h m st0 with
      | Some (r, st1) => Some (r, {| consulted := called; delivered := true |}, st1)
      | None => None
      end = Some (r, dl, st') → delivered dl = true).
    { intros called st0. destruct (invokeHandler' h m st0) as [[r1 st1]|]; [|done].
      by intros [= _ <- _]. }
    subst snapshot. destruct (messageHooks st !! h) as [hooks|]; simpl in *;
      [|by apply Hnone].
    case_decide; [by apply Hnone|].
    destruct (everyHook' (reverse hooks) h m st) as [[[r1 c] st1]|] eqn:He; [|done].
    destruct (everyHook_spec _ _ _ _ _ _ _ He) as [Hp Hout].
    fold (chain hooks) in Hp, Hout. rewrite Hc in Hp, Hout.
    destruct r1 as [[|]|e].
    + apply Hcalled.
    + destruct (Hout false eq_refl) as [(? & _)|(_ & pre & hook & rest & Hx & _)];
        [done|by destruct pre].
    + exfalso. revert He. clear -Hc.
      assert (Hall : Forall (λ x, x = None) (reverse hooks)).
      { unfold chain in Hc. induction (reverse hooks) as [|[x|] l IH]; [done|done|].
        constructor; [done|]. by apply IH. }
      revert st. induction Hall as [|x l -> _ IH]; intros st; simpl; [done|apply IH].
Qed.

(** *** The loop with user code that makes no call into it *)

Lemma loopBody_quiet q : ∀ n st rest sentinel,
  (∀ h m, quiet (processMessage h m)) →
  (∀ hook h m, quiet (messageHook hook h m)) →
  (∀ eh e, calm (handlerBody eh e)) →
  messageQueue st = q ++ {| ident := sentinel; handler := None; msg := None |} :: rest →
  Forall (λ posted, ident posted ≠ sentinel) q →
  length q < n →
  ∃ st' ds,
    loopBody conflate processMessage messageHook handlerBody call_rec n sentinel st
      = Some (Returned (), st', ds) ∧
    messageQueue st' = rest ∧
    ds.*1 = filter (λ posted, uncleared posted = true) q ∧
    (messageHooks st = ∅ →
       Forall (λ x, x.2 = {| consulted := []; delivered := true |}) ds).
Proof.
  induction q as [|posted q IH]; intros n st rest sentinel Hp Hh Hx Hq Hne Hn.
  - destruct n as [|n]; [simpl in Hn; lia|]. simpl. rewrite Hq. simpl.
    rewrite decide_True by done. eexists _, _. by split_and!.
  - destruct n as [|n]; [simpl in Hn; lia|]. simpl. rewrite Hq. simpl.
    apply Forall_cons in Hne as [Hne1 Hne2].
    rewrite decide_False by done.
    set (st1 := with_queue _ st).
    assert (Hlen : length q < n) by (simpl in Hn; lia).
    assert (Hskip : uncleared posted = false →
      ∃ st' ds,
        loopBody conflate processMessage messageHook handlerBody call_rec n sentinel st1
          = Some (Returned (), st', ds) ∧
        messageQueue st' = rest ∧
        ds.*1 = filter (λ posted, uncleared posted = true) (posted :: q) ∧
        (messageHooks st = ∅ →
           Forall (λ x, x.2 = {| consulted := []; delivered := true |}) ds)).
    { intros Hu. rewrite filter_cons_False by (by rewrite Hu).
      destruct (IH n st1 rest sentinel Hp Hh Hx) as (st' & ds & Hl & Hq' & Hds & Hnone);
        [done..|]. by exists st', ds. }
    destruct posted as [i [h|] [m|]]; simpl in *; [|by apply Hskip..].
    destruct (sendMessage_quiet Hx h m st1 (Hp h m) (λ hook, Hh hook h m))
      as (dl & st2 & Hs & Hsame).
    rewrite Hs.
    destruct (IH n st2 rest sentinel Hp Hh Hx) as (st' & ds & -> & Hq' & Hds & Hnone);
      [by rewrite (proj1 Hsame)|done|done|].
    eexists _, _. split; [done|]. rewrite filter_cons_True by done.
    split_and!; [done|simpl; by f_equal|].
    intros Hempty. constructor.
    + simpl. unfold sendMessage in Hs. subst st1. simpl in Hs. rewrite Hempty in Hs.
      rewrite lookup_empty in Hs.
      destruct (invokeHandler' _ _ _) as [[r3 st3]|]; [|done]. by injection Hs as _ <- _.
    + apply Hnone. destruct Hsame as (_ & _ & -> & _). done.
Qed.

Lemma runMessageLoop_quiet n st :
  (∀ h m, quiet (processMessage h m)) →
  (∀ hook h m, quiet (messageHook hook h m)) →
  (∀ eh e, calm (handlerBody eh e)) →
  fresh st →
  length (messageQueue st) < n →
  ∃ st' ds,
    runMessageLoop conflate processMessage messageHook handlerBody call_rec n st
      = Some (Returned (), st', ds) ∧
    messageQueue st' = [] ∧
    ds.*1 = filter (λ posted, uncleared posted = true) (messageQueue st) ∧
    (messageHooks st = ∅ →
       Forall (λ x, x.2 = {| consulted := []; delivered := true |}) ds).
Proof.
  intros Hp Hh Hx Hfresh Hn. unfold runMessageLoop. simpl. case_decide as Hlen.
  - apply nil_length_inv in Hlen. rewrite Hlen. eexists _, _. by split_and!.
  - set (st2 := with_allocated _ _).
    destruct (loopBody_quiet (messageQueue st) n st2 [] (allocated st) Hp Hh Hx)
      as (st' & ds & Hl & Hq' & Hds & Hnone); [done| |done|].
    + unfold fresh in Hfresh. eapply Forall_impl; [exact Hfresh|]. simpl. intros. lia.
    + by exists st', ds.
Qed.
End Step.

(** *** Posting *)

Lemma postMessage_plain h m st :
  isConflatable m = false → postMessage conflate h m st = enqueueMessage h m st.
Proof. intros Hm. unfold postMessage. by rewrite Hm. Qed.

Lemma enqueueMessage_hooks h m st :
  messageHooks (enqueueMessage h m st) = messageHooks st.
Proof. unfold enqueueMessage, schedule. simpl. by case_decide. Qed.

Lemma postMessage_appends h m st :
  isConflatable m = false ∨ (conflateSome conflate h m (messageQueue st)).1.1 = false →
  ∃ q, messageQueue (postMessage conflate h m st)
         = q ++ [{| ident := allocated st; handler := Some h; msg := Some m |}] ∧
       shape <$> q = shape <$> messageQueue st ∧
       (isConflatable m = false → q = messageQueue st) ∧
       allocated (postMessage conflate h m st) = S (allocated st) ∧
       messageHooks (postMessage conflate h m st) = messageHooks st.
Proof.
  intros Hnc. destruct (isConflatable m) eqn:Hm.
  - destruct Hnc as [|Hnc]; [done|]. unfold postMessage. rewrite Hm. simpl.
    destruct (conflateSome_spec h m (messageQueue st)) as (_ & _ & _ & _ & Hsh).
    destruct (conflateSome conflate h m (messageQueue st)) as [[b q] calls].
    simpl in *. subst b. exists q.
    rewrite enqueueMessage_queue, enqueueMessage_allocated, enqueueMessage_hooks.
    by split_and!.
  - rewrite (postMessage_plain h m st Hm). exists (messageQueue st).
    rewrite enqueueMessage_queue, enqueueMessage_allocated, enqueueMessage_hooks.
    by split_and!.
Qed.

Lemma postAll_cons p ps st :
  postAll conflate (p :: ps) st = postAll conflate ps (postMessage conflate p.1 p.2 st).
Proof. done. Qed.

Lemma postAll_shape ps : ∀ st,
  never_conflated conflate ps st →
  shape <$> messageQueue (postAll conflate ps st)
    = (shape <$> messageQueue st) ++ (shape <$> postedEntries (allocated st) ps) ∧
  allocated (postAll conflate ps st) = allocated st + length ps ∧
  messageHooks (postAll conflate ps st) = messageHooks st.
Proof.
  induction ps as [|[h m] ps IH]; intros st Hnc.
  - simpl. rewrite app_nil_r. split_and!; [done|lia|done].
  - destruct Hnc as [Hnc1 Hnc2]. simpl in Hnc1, Hnc2. rewrite postAll_cons. simpl.
    destruct (postMessage_appends h m st Hnc1) as (q & Hq & Hsh & _ & Ha & Hh).
    destruct (IH _ Hnc2) as (-> & -> & ->).
    rewrite Hq, Ha, Hh, fmap_app, Hsh, <-app_assoc. simpl.
    split_and!; [done|lia|done].
Qed.

Lemma postAll_plain ps : ∀ st,
  Forall (λ p, isConflatable p.2 = false) ps →
  never_conflated conflate ps st ∧
  messageQueue (postAll conflate ps st) = messageQueue st ++ postedEntries (allocated st) ps.
Proof.
  induction ps as [|[h m] ps IH]; intros st Hnc.
  - simpl. by rewrite app_nil_r.
  - apply Forall_cons in Hnc as [Hm Hnc]. simpl in Hm.
    destruct (IH (postMessage conflate h m st) Hnc) as [IH1 IH2].
    rewrite postAll_cons. simpl. split; [by split; [left|]|].
    rewrite IH2, (postMessage_plain h m st Hm), enqueueMessage_queue,
      enqueueMessage_allocated, <-app_assoc. done.
Qed.

Lemma length_postedEntries n ps : length (postedEntries n ps) = length ps.
Proof. revert n. induction ps as [|p ps IH]; intros n; simpl; [done|]. by rewrite IH. Qed.

Lemma postedEntries_fresh n ps :
  Forall (λ x, x.1.1 < n + length ps) (shape <$> postedEntries n ps).
Proof.
  revert n. induction ps as [|p ps IH]; intros n; simpl; constructor.
  - simpl. lia.
  - eapply Forall_impl; [apply IH|]. simpl. intros. lia.
Qed.

Lemma postedEntries_uncleared n ps :
  Forall (λ x, x.2 = true) (shape <$> postedEntries n ps).
Proof.
  revert n. induction ps as [|p ps IH]; intros n; simpl; constructor; [done|apply IH].
Qed.

Lemma filter_uncleared q :
  Forall (λ x, x.2 = true) (shape <$> q) →
  filter (λ posted, uncleared posted = true) q = q.
Proof.
  induction q as [|p q IH]; [done|]. simpl. intros [Hp Hq]%Forall_cons.
  rewrite filter_cons_True by done. by rewrite IH.
Qed.

Lemma drained_by_handler h (es : list PostedMessage) :
  ∀ ds : list (PostedMessage * Delivery),
  (λ x, (ident x.1, handler x.1)) <$> ds = (λ p, (ident p, handler p)) <$> es →
  (λ x, ident x.1) <$> filter (λ x, handler x.1 = Some h) ds
  = ident <$> filter (λ p, handler p = Some h) es.
Proof.
  induction es as [|e es IH]; intros [|x ds]; simpl; try done.
  intros [= Hi Hh Hds].
  destruct (decide (handler e = Some h)) as [Heq|Hne].
  - rewrite (filter_cons_True _ x) by congruence.
    rewrite (filter_cons_True _ e) by done. simpl. rewrite Hi. f_equal. by apply IH.
  - rewrite (filter_cons_False _ x) by congruence.
    rewrite (filter_cons_False _ e) by done. by apply IH.
Qed.

Lemma drained_posts ps : ∀ n (ds : list (PostedMessage * Delivery)),
  ds.*1 = postedEntries n ps →
  (λ x, (handler x.1, msg x.1)) <$> ds = (λ p, (Some p.1, Some p.2)) <$> ps.
Proof.
  induction ps as [|p ps IH]; intros n [|x ds]; simpl; try done.
  intros [= Hx Hds]. rewrite Hx. simpl. f_equal. by eapply IH.
Qed.


(** *** A run of the loop that no other run interrupts *)

Lemma grows_refl st : grows st st.
Proof.
  split; [done|done|]. exists []. by rewrite app_nil_r.
Qed.

Lemma grows_trans st1 st2 st3 : grows st1 st2 → grows st2 st3 → grows st1 st3.
Proof.
  intros [G1 A1 (a1 & Q1 & F1)] [G2 A2 (a2 & Q2 & F2)]. split; [congruence|lia|].
  exists (a1 ++ a2). split; [by rewrite Q2, Q1, app_assoc|].
  apply Forall_app. split; (eapply Forall_impl; [eassumption|]); simpl; intros; lia.
Qed.

(** A step that leaves the guard, the queue and the count of objects. *)
Lemma grows_same st st' :
  flushGuard st' = flushGuard st → allocated st' = allocated st →
  ident <$> messageQueue st' = ident <$> messageQueue st → grows st st'.
Proof.
  intros Hg Ha Hq. split; [done|lia|]. exists []. by rewrite app_nil_r.
Qed.

Lemma grows_enqueueMessage h m st : grows st (enqueueMessage h m st).
Proof.
  split.
  - unfold enqueueMessage, schedule. simpl. by case_decide.
  - rewrite enqueueMessage_allocated. lia.
  - exists [allocated st]. rewrite enqueueMessage_queue, enqueueMessage_allocated, fmap_app.
    split; [done|]. constructor; [lia|done].
Qed.

Lemma grows_postMessage h m st : grows st (postMessage conflate h m st).
Proof.
  unfold postMessage. destruct (isConflatable m); simpl; [|apply grows_enqueueMessage].
  destruct (conflateSome_spec h m (messageQueue st)) as (_ & _ & Hi & _).
  destruct (conflateSome conflate h m (messageQueue st)) as [[b q] calls]. simpl in Hi.
  assert (H1 : grows st (with_queue q st)) by by apply grows_same.
  destruct b; [done|]. eapply grows_trans; [exact H1|apply grows_enqueueMessage].
Qed.

Lemma grows_installMessageHook h hook st : grows st (installMessageHook h hook st).
Proof.
  unfold installMessageHook. destruct (messageHooks st !! h) as [hooks|].
  - destruct (indexOf hook hooks); [apply grows_refl|by apply grows_same].
  - by apply grows_same.
Qed.

Lemma grows_cleanHooks h st : grows st (cleanHooks h st).
Proof.
  unfold cleanHooks. destruct (clean _ _ _ _) as [c s]. by apply grows_same.
Qed.

Lemma grows_removeMessageHook h hook st : grows st (removeMessageHook h hook st).
Proof.
  unfold removeMessageHook. destruct (messageHooks st !! h) as [hooks|];
    [|apply grows_refl].
  destruct (indexOf hook hooks); [|apply grows_refl].
  eapply grows_trans; [|apply grows_cleanHooks]. by apply grows_same.
Qed.

Lemma clearPosted_ident h q : ident <$> (clearPosted h <$> q) = ident <$> q.
Proof.
  rewrite <-list_fmap_compose. apply list_fmap_ext. intros i p _. simpl.
  unfold clearPosted. by case_decide.
Qed.

Lemma grows_clearData h st : grows st (clearData h st).
Proof.
  unfold clearData.
  set (st1 := match messageHooks st !! h with Some hooks => _ | None => st end).
  assert (H1 : grows st st1).
  { subst st1. destruct (messageHooks st !! h) as [hooks|]; [|apply grows_refl].
    case_decide; [apply grows_refl|].
    eapply grows_trans; [|apply grows_cleanHooks]. by apply grows_same. }
  eapply grows_trans; [exact H1|]. apply grows_same; [done..|]. simpl.
  apply clearPosted_ident.
Qed.

Lemma grows_report e st : grows st (report e st).
Proof. by apply grows_same. Qed.

Section Tame.
Variable call_rec : Call → Loop U → option (Result unit * Loop U).
Hypothesis call_rec_tame : tame processMessage messageHook handlerBody call_rec.

Abbreviation never_flushes' := (never_flushes processMessage messageHook handlerBody).
Abbreviation never_rethrows' := (never_rethrows handlerBody).

Lemma safe_grows st st' :
  grows st st' → flushGuard st = true ∨ never_flushes' →
  flushGuard st' = true ∨ never_flushes'.
Proof. intros Hg [?|?]; [left|by right]. by rewrite (grows_guard _ _ Hg). Qed.

Lemma grows_run {R} (p : Prog U R) : ∀ st r st',
  flushGuard st = true ∨ (never_flushes' ∧ flush_free p) →
  run conflate call_rec p st = Some (r, st') → grows st st'.
Proof.
  induction p as [r0|e|h m k IH|h m k IH|h hook k IH|h hook k IH|h k IH|k IH|h k IH
    |k IH|u k IH]; intros st r st' Hsafe; simpl.
  - intros [= _ <-]. apply grows_refl.
  - intros [= _ <-]. apply grows_refl.
  - destruct (call_rec (CallSend h m) st) as [[r1 st1]|] eqn:Hc; [|done].
    destruct (call_rec_tame (CallSend h m) st r1 st1) as [Hg _]; [|done|].
    { destruct Hsafe as [?|[? _]]; [by left|by right]. }
    destruct r1 as [[]|e1]; [|by intros [= _ <-]].
    intros Hr. eapply grows_trans; [exact Hg|]. eapply IH; [|exact Hr].
    destruct Hsafe as [Hgd|[Hnf Hff]].
    + left. by rewrite (grows_guard _ _ Hg).
    + right. split; [done|]. by inversion Hff; simplify_eq.
  - intros Hr. eapply grows_trans; [apply grows_postMessage|]. eapply IH; [|exact Hr].
    destruct Hsafe as [Hgd|[Hnf Hff]].
    + left. by rewrite (grows_guard _ _ (grows_postMessage h m st)).
    + right. split; [done|]. by inversion Hff; simplify_eq.
  - intros Hr. eapply grows_trans; [apply grows_installMessageHook|].
    eapply IH; [|exact Hr]. destruct Hsafe as [Hgd|[Hnf Hff]].
    + left. by rewrite (grows_guard _ _ (grows_installMessageHook h hook st)).
    + right. split; [done|]. by inversion Hff; simplify_eq.
  - intros Hr. eapply grows_trans; [apply grows_removeMessageHook|].
    eapply IH; [|exact Hr]. destruct Hsafe as [Hgd|[Hnf Hff]].
    + left. by rewrite (grows_guard _ _ (grows_removeMessageHook h hook st)).
    + right. split; [done|]. by inversion Hff; simplify_eq.
  - intros Hr. eapply grows_trans; [apply grows_clearData|].
    eapply IH; [|exact Hr]. destruct Hsafe as [Hgd|[Hnf Hff]].
    + left. by rewrite (grows_guard _ _ (grows_clearData h st)).
    + right. split; [done|]. by inversion Hff; simplify_eq.
  - destruct Hsafe as [Hgd|[_ Hff]]; [|by inversion Hff].
    destruct (call_rec CallFlush st) as [[r1 st1]|] eqn:Hc; [|done].
    destruct (call_rec_tame CallFlush st r1 st1) as [Hg _]; [by left|done|].
    destruct r1 as [[]|e1]; [|by intros [= _ <-]].
    intros Hr. eapply grows_trans; [exact Hg|]. eapply IH; [|exact Hr].
    left. by rewrite (grows_guard _ _ Hg).
  - intros Hr. eapply grows_trans; [|eapply IH; [|exact Hr]].
    + by apply grows_same.
    + destruct Hsafe as [Hgd|[Hnf Hff]]; [by left|].
      right. split; [done|]. inversion Hff; simplify_eq. eauto.
  - intros Hr. eapply IH; [|exact Hr].
    destruct Hsafe as [Hgd|[Hnf Hff]]; [by left|].
    right. split; [done|]. inversion Hff; simplify_eq. eauto.
  - intros Hr. eapply grows_trans; [|eapply IH; [|exact Hr]].
    + by apply grows_same.
    + destruct Hsafe as [Hgd|[Hnf Hff]]; [by left|].
      right. split; [done|]. by inversion Hff; simplify_eq.
Qed.

(** User code without a [throw] of its own returns, when no exception
    handler throws. *)
Lemma returns_run {R} (p : Prog U R) : ∀ st r st',
  never_rethrows' → throwless p →
  flushGuard st = true ∨ (never_flushes' ∧ flush_free p) →
  run conflate call_rec p st = Some (r, st') → ∃ x, r = Returned x.
Proof.
  intros st r st' Hnr Htl. revert st r st'.
  induction Htl as [r0|h m k _ IH|h m k _ IH|h hook k _ IH|h hook k _ IH|h k _ IH
    |k _ IH|h k _ IH|k _ IH|u k _ IH]; intros st r st' Hsafe; simpl.
  - intros [= <- _]. by eexists.
  - destruct (call_rec (CallSend h m) st) as [[r1 st1]|] eqn:Hc; [|done].
    destruct (call_rec_tame (CallSend h m) st r1 st1) as [Hg Hret]; [|done|].
    { destruct Hsafe as [?|[? _]]; [by left|by right]. }
    rewrite (Hret Hnr). apply IH.
    destruct Hsafe as [Hgd|[Hnf Hff]].
    + left. by rewrite (grows_guard _ _ Hg).
    + right. split; [done|]. by inversion Hff; simplify_eq.
  - apply IH. destruct Hsafe as [Hgd|[Hnf Hff]].
    + left. by rewrite (grows_guard _ _ (grows_postMessage h m st)).
    + right. split; [done|]. by inversion Hff; simplify_eq.
  - apply IH. destruct Hsafe as [Hgd|[Hnf Hff]].
    + left. by rewrite (grows_guard _ _ (grows_installMessageHook h hook st)).
    + right. split; [done|]. by inversion Hff; simplify_eq.
  - apply IH. destruct Hsafe as [Hgd|[Hnf Hff]].
    + left. by rewrite (grows_guard _ _ (grows_removeMessageHook h hook st)).
    + right. split; [done|]. by inversion Hff; simplify_eq.
  - apply IH. destruct Hsafe as [Hgd|[Hnf Hff]].
    + left. by rewrite (grows_guard _ _ (grows_clearData h st)).
    + right. split; [done|]. by inversion Hff; simplify_eq.
  - destruct Hsafe as [Hgd|[_ Hff]]; [|by inversion Hff].
    destruct (call_rec CallFlush st) as [[r1 st1]|] eqn:Hc; [|done].
    destruct (call_rec_tame CallFlush st r1 st1) as [Hg Hret]; [by left|done|].
    rewrite (Hret Hnr). apply IH. left. by rewrite (grows_guard _ _ Hg).
  - apply IH. destruct Hsafe as [Hgd|[Hnf Hff]]; [by left|].
    right. split; [done|]. inversion Hff; simplify_eq. eauto.
  - apply IH. destruct Hsafe as [Hgd|[Hnf Hff]]; [by left|].
    right. split; [done|]. inversion Hff; simplify_eq. eauto.
  - apply IH. destruct Hsafe as [Hgd|[Hnf Hff]]; [by left|].
    right. split; [done|]. by inversion Hff; simplify_eq.
Qed.

Lemma grows_handleException e st r st' :
  flushGuard st = true ∨ never_flushes' →
  handleException conflate handlerBody call_rec e st = Some (r, st') →
  grows st st' ∧ (never_rethrows' → r = Returned ()).
Proof.
  intros Hsafe. unfold handleException. case_decide.
  - intros [= <- <-]. split; [apply grows_report|done].
  - intros Hr.
    assert (Hsafe' : flushGuard (report e st) = true ∨
              (never_flushes' ∧ flush_free (handlerBody (exceptionHandler st) e))).
    { destruct Hsafe as [?|Hnf]; [by left|right]. split; [done|apply Hnf]. }
    split.
    + eapply grows_trans; [apply grows_report|]. by eapply grows_run.
    + intros Hnr. destruct (returns_run _ _ _ _ Hnr (Hnr _ _) Hsafe' Hr) as [[] ->]. done.
Qed.

Lemma grows_invokeHook hook h m st r st' :
  flushGuard st = true ∨ never_flushes' →
  invokeHook conflate messageHook handlerBody call_rec hook h m st = Some (r, st') →
  grows st st' ∧ (never_rethrows' → ∃ b, r = Returned b).
Proof.
  intros Hsafe. unfold invokeHook.
  destruct (run _ _ _ _) as [[[b|e] st1]|] eqn:Hr; [| |done].
  - intros [= <- <-]. split; [|by eexists]. eapply grows_run; [|exact Hr].
    destruct Hsafe as [?|Hnf]; [by left|right]. split; [done|apply Hnf].
  - assert (Hg1 : grows st st1).
    { eapply grows_run; [|exact Hr].
      destruct Hsafe as [?|Hnf]; [by left|right]. split; [done|apply Hnf]. }
    destruct (handleException _ _ _ _ _) as [[r2 st2]|] eqn:Hh; [|done].
    destruct (grows_handleException _ _ _ _ (safe_grows _ _ Hg1 Hsafe) Hh) as [Hg2 Hret].
    destruct r2 as [[]|e2]; intros [= <- <-].
    + split; [by eapply grows_trans|by eexists].
    + split; [by eapply grows_trans|]. intros Hnr. by specialize (Hret Hnr).
Qed.

Lemma grows_invokeHandler h m st r st' :
  flushGuard st = true ∨ never_flushes' →
  invokeHandler conflate processMessage handlerBody call_rec h m st = Some (r, st') →
  grows st st' ∧ (never_rethrows' → r = Returned ()).
Proof.
  intros Hsafe. unfold invokeHandler.
  destruct (run _ _ _ _) as [[[b|e] st1]|] eqn:Hr; [| |done].
  - intros [= <- <-]. split; [|done]. eapply grows_run; [|exact Hr].
    destruct Hsafe as [?|Hnf]; [by left|right]. split; [done|apply Hnf].
  - assert (Hg1 : grows st st1).
    { eapply grows_run; [|exact Hr].
      destruct Hsafe as [?|Hnf]; [by left|right]. split; [done|apply Hnf]. }
    intros Hh.
    destruct (grows_handleException _ _ _ _ (safe_grows _ _ Hg1 Hsafe) Hh) as [Hg2 Hret].
    split; [by eapply grows_trans|done].
Qed.

Lemma grows_everyHook hooks h m : ∀ st r called st',
  flushGuard st = true ∨ never_flushes' →
  everyHook conflate messageHook handlerBody call_rec hooks h m st = Some (r, called, st') →
  grows st st' ∧ (never_rethrows' → ∃ b, r = Returned b).
Proof.
  induction hooks as [|[hook|] hooks IH]; intros st r called st' Hsafe; simpl.
  - intros [= <- _ <-]. split; [apply grows_refl|by eexists].
  - destruct (invokeHook _ _ _ _ _ _ _ _) as [[r1 st1]|] eqn:Hi; [|done].
    destruct (grows_invokeHook _ _ _ _ _ _ Hsafe Hi) as [Hg Hret].
    destruct r1 as [[|]|e].
    + destruct (everyHook _ _ _ _ _ _ _ st1) as [[[p c] st2]|] eqn:He; [|done].
      intros [= <- _ <-]. destruct (IH _ _ _ _ (safe_grows _ _ Hg Hsafe) He) as [Hg2 Hret2].
      split; [by eapply grows_trans|done].
    + intros [= <- _ <-]. split; [done|by eexists].
    + intros [= <- _ <-]. split; [done|]. intros Hnr. by destruct (Hret Hnr).
  - by apply IH.
Qed.

Lemma grows_sendMessage h m st r dl st' :
  flushGuard st = true ∨ never_flushes' →
  sendMessage conflate processMessage messageHook handlerBody call_rec h m st
    = Some (r, dl, st') →
  grows st st' ∧ (never_rethrows' → r = Returned ()).
Proof.
  intros Hsafe. unfold sendMessage.
  assert (Hd : ∀ called st0, grows st st0 →
    match invokeHandler conflate processMessage handlerBody call_rec h m st0 with
    | Some (r, st1) => Some (r, {| consulted := called; delivered := true |}, st1)
    | None => None
    end = Some (r, dl, st') → grows st st' ∧ (never_rethrows' → r = Returned ())).
  { intros called st0 Hg0.
    destruct (invokeHandler _ _ _ _ _ _ st0) as [[r1 st1]|] eqn:Hi; [|done].
    intros [= <- _ <-].
    destruct (grows_invokeHandler _ _ _ _ _ (safe_grows _ _ Hg0 Hsafe) Hi) as [Hg1 Hret].
    split; [by eapply grows_trans|done]. }
  destruct (messageHooks st !! h) as [hooks|]; [|apply Hd, grows_refl].
  case_decide; [apply Hd, grows_refl|].
  destruct (everyHook _ _ _ _ _ _ _ _) as [[[r1 c] st1]|] eqn:He; [|done].
  destruct (grows_everyHook _ _ _ _ _ _ _ Hsafe He) as [Hg Hret].
  destruct r1 as [[|]|e].
  - by apply Hd.
  - intros [= <- _ <-]. done.
  - intros [= <- _ <-]. split; [done|]. intros Hnr. by destruct (Hret Hnr).
Qed.

(** The [while] loop of a run whose sentinel is the object [sentinel], in a
    state where the objects [qi] are in the queue before the sentinel and
    the objects [ri] behind it. *)
Lemma loopBody_tame n : ∀ st sentinel qi ri r st' ds,
  flushGuard st = true ∨ never_flushes' →
  ident <$> messageQueue st = qi ++ sentinel :: ri →
  Forall (λ i, i < sentinel) qi →
  Forall (λ i, sentinel < i) ri →
  sentinel < allocated st →
  loopBody conflate processMessage messageHook handlerBody call_rec n sentinel st
    = Some (r, st', ds) →
  (ident <$> ds.*1) `sublist_of` qi ∧
  Forall (λ x, uncleared x.1 = true) ds ∧
  flushGuard st' = flushGuard st ∧
  (r = Returned () →
     ∃ ri', ident <$> messageQueue st' = ri ++ ri' ∧ Forall (λ i, sentinel < i) ri') ∧
  (never_rethrows' → r = Returned ()).
Proof.
  induction n as [|n IH]; intros st sentinel qi ri r st' ds Hsafe Hq Hqi Hri Ha; [done|].
  simpl. destruct (messageQueue st) as [|posted rest] eqn:Hmq.
  { by destruct qi. }
  set (st1 := with_queue rest st).
  assert (Hg1 : grows st1 st1) by apply grows_refl.
  destruct qi as [|i qi]; simpl in Hq; injection Hq as Hid Hrest.
  - (* the sentinel is reached *)
    rewrite decide_True by done. intros [= <- <- <-].
    split_and!; [done|done|done| |done]. intros _. exists []. by rewrite app_nil_r.
  - apply Forall_cons in Hqi as [Hi Hqi].
    rewrite decide_False by lia.
    assert (Hskip :
      loopBody conflate processMessage messageHook handlerBody call_rec n sentinel st1
        = Some (r, st', ds) →
      (ident <$> ds.*1) `sublist_of` (i :: qi) ∧
      Forall (λ x, uncleared x.1 = true) ds ∧
      flushGuard st' = flushGuard st ∧
      (r = Returned () →
         ∃ ri', ident <$> messageQueue st' = ri ++ ri' ∧ Forall (λ i, sentinel < i) ri') ∧
      (never_rethrows' → r = Returned ())).
    { intros Hl.
      destruct (IH st1 sentinel qi ri r st' ds) as (H1 & H2 & H3 & H4 & H5); try done.
      split_and!; [by apply sublist_cons|done|done|done|done]. }
    destruct posted as [i' [h|] [m|]]; simpl in *; [|by apply Hskip..].
    destruct (sendMessage _ _ _ _ _ _ _ st1) as [[[r1 dl] st2]|] eqn:Hs; [|done].
    destruct (grows_sendMessage h m st1 r1 dl st2 Hsafe Hs) as [[G A (added & Q & F)] Hret].
    subst st1. simpl in G, A, Q, F.
    assert (Hrest' : ident <$> rest = qi ++ sentinel :: ri) by exact Hrest.
    rewrite Hrest', <-app_assoc in Q. simpl in Q. subst i'.
    destruct r1 as [[]|e1].
    + destruct (loopBody _ _ _ _ _ n sentinel st2) as [[[r2 st3] ds2]|] eqn:Hl; [|done].
      intros [= <- <- <-].
      destruct (IH st2 sentinel qi (ri ++ added) r2 st3 ds2)
        as (H1 & H2 & H3 & H4 & H5); try done.
      * destruct Hsafe as [?|?]; [left|by right]. congruence.
      * apply Forall_app. split; [done|].
        eapply Forall_impl; [exact F|]. simpl. intros. lia.
      * lia.
      * split_and!; [simpl; by apply sublist_skip|by constructor|congruence| |done].
        intros Hr. destruct (H4 Hr) as (ri' & H4a & H4b).
        exists (added ++ ri'). rewrite H4a, <-app_assoc. split; [done|].
        apply Forall_app. split; [|done].
        eapply Forall_impl; [exact F|]. simpl. intros. lia.
    + intros [= <- <- <-].
      split_and!; [simpl; apply sublist_skip, sublist_nil_l|by repeat constructor|done|done|].
      intros Hnr. by specialize (Hret Hnr).
Qed.

(** One run of the loop, under the guard of [flush] or with user code that
    never calls [flush]: the entries it hands to [sendMessage] are entries
    that were in the queue when it began, in the order of the queue, and
    were not cleared when their turn came. When it returns it has come to
    its end at the sentinel, and what is in the queue was created after it
    began. It returns when no exception handler throws. *)
Lemma runMessageLoop_tame n st r st' ds :
  flushGuard st = true ∨ never_flushes' →
  fresh st →
  runMessageLoop conflate processMessage messageHook handlerBody call_rec n st
    = Some (r, st', ds) →
  (ident <$> ds.*1) `sublist_of` (ident <$> messageQueue st) ∧
  Forall (λ x, uncleared x.1 = true) ds ∧
  flushGuard st' = flushGuard st ∧
  (r = Returned () → Forall (λ posted, allocated st < ident posted) (messageQueue st')) ∧
  (never_rethrows' → r = Returned ()).
Proof.
  intros Hsafe Hfresh. unfold runMessageLoop. simpl. case_decide as Hlen.
  - intros [= <- <- <-]. apply nil_length_inv in Hlen. simpl. rewrite Hlen.
    by split_and!.
  - set (st2 := with_allocated _ _). intros Hl.
    destruct (loopBody_tame n st2 (allocated st) (ident <$> messageQueue st) [] r st' ds)
      as (H1 & H2 & H3 & H4 & H5).
    + done.
    + subst st2. simpl. by rewrite fmap_app.
    + unfold fresh in Hfresh. by rewrite Forall_fmap.
    + done.
    + subst st2. simpl. lia.
    + done.
    + split_and!; [done|done|done| |done]. intros Hr.
      destruct (H4 Hr) as (ri' & H4a & H4b). simpl in H4a.
      rewrite <-H4a in H4b. by rewrite Forall_fmap in H4b.
Qed.
End Tame.

Lemma tame_call fuel :
  tame processMessage messageHook handlerBody
    (call conflate processMessage messageHook handlerBody fuel).
Proof.
  induction fuel as [|fuel IH]; [done|].
  intros [h m|] st r st' Hsafe; simpl.
  - destruct (sendMessage _ _ _ _ _ _ _ _) as [[[r1 dl] st1]|] eqn:Hs; [|done].
    intros [= <- <-]. eapply grows_sendMessage; [exact IH| |exact Hs].
    destruct Hsafe as [?|[? _]]; [by left|by right].
  - destruct Hsafe as [Hg|[_ ?]]; [|done]. unfold flush. rewrite Hg. simpl.
    intros [= <- <-]. split; [apply grows_refl|done].
Qed.

(** A run of the loop started by the host, with user code that never calls
    [flush], or started under the guard of [flush]. *)
Lemma run_ends_at_its_sentinel fuel n st r st' ds :
  flushGuard st = true ∨ never_flushes processMessage messageHook handlerBody →
  fresh st →
  runMessageLoop conflate processMessage messageHook handlerBody
    (call conflate processMessage messageHook handlerBody fuel) n st = Some (r, st', ds) →
  (ident <$> ds.*1) `sublist_of` (ident <$> messageQueue st) ∧
  Forall (λ x, uncleared x.1 = true) ds ∧
  flushGuard st' = flushGuard st ∧
  (r = Returned () → Forall (λ posted, allocated st < ident posted) (messageQueue st')) ∧
  (never_rethrows handlerBody → r = Returned ()).
Proof. apply runMessageLoop_tame, tame_call. Qed.

(** [flush] from the client: one run of the loop, as above. The guard is
    taken down when the run returns, and stays up when it throws. *)
Lemma flush_runs_once fuel n st r st' ds :
  flushGuard st = false → loopTaskID st ≠ 0 → fresh st →
  flush conflate processMessage messageHook handlerBody
    (call conflate processMessage messageHook handlerBody fuel) n st = Some (r, st', ds) →
  (ident <$> ds.*1) `sublist_of` (ident <$> messageQueue st) ∧
  Forall (λ x, uncleared x.1 = true) ds ∧
  (r = Returned () →
     Forall (λ posted, allocated st < ident posted) (messageQueue st') ∧
     flushGuard st' = false) ∧
  (∀ e, r = Threw e → flushGuard st' = true) ∧
  (never_rethrows handlerBody → r = Returned ()).
Proof.
  intros Hg Hid Hfresh. unfold flush. rewrite Hg. simpl.
  rewrite bool_decide_eq_false_2 by done.
  set (st1 := with_flushGuard true _).
  destruct (runMessageLoop _ _ _ _ _ n st1) as [[[r1 st2] ds1]|] eqn:Hr; [|done].
  destruct (run_ends_at_its_sentinel fuel n st1 r1 st2 ds1)
    as (H1 & H2 & H3 & H4 & H5); [by left|done|done|].
  destruct r1 as [[]|e1]; intros [= <- <- <-].
  - split_and!; [done|done| |done|done]. intros _. split; [by apply H4|done].
  - split_and!; [done|done|done| |done]. intros e _. exact H3.
Qed.

End Loop.

(** *** The scenarios of the test suite *)
Section Tests.
Import MessagingTests.

Lemma logMessage_quiet h m : quiet (logMessage h m).
Proof. repeat constructor. Qed.

Lemma logHook_quiet hook h m : quiet (logHook hook h m).
Proof. repeat constructor. Qed.

Lemma onError_calm eh e : calm (onError eh e).
Proof. constructor. Qed.

(** C2 (the code departs from the claim). The run of the loop that the host
    starts is not under the guard of [flush]. When the handler of a message
    of that run posts a message and calls [flush], the call runs the loop
    again: it takes the sentinel of the first run for a cleared entry and
    hands the new message to its handler at once; the first run then finds
    the queue empty and throws a [TypeError]. *)
Theorem flush_inside_a_scheduled_run :
  messageQueue eager_posted
    = [{| ident := 0; handler := Some eager; msg := Some (plain "x") |}] ∧
  next_task (host eager_posted) = Some (LoopTask, {| counter := 1; pending := [] |}) ∧
  flushGuard eager_posted = false ∧
  ∃ st' ds,
    turn conflate eagerMessage logHook onError 10 eager_posted
      = Some (Threw TypeError, st', ds) ∧
    user st' = [(eager, "x"); (handler2, "late")] ∧
    messageQueue st' = [].
Proof.
  split_and!; [reflexivity..|]. eexists _, _. split; [vm_compute; reflexivity|].
  split; reflexivity.
Qed.


(** A message of revision 2 posted to a queue that holds revisions 1 and 2:
    the entry of revision 1 answers [false], the entry of revision 2 answers
    [true], and nothing is added; a plain message is added at the end. *)
Lemma postMessage_conflation_witness :
  (conflateSome conflate handler1 (revised "update" 2) (messageQueue revisions)).2
    = [(1, false); (2, true)] ∧
  ident <$> messageQueue (postMessage conflate handler1 (revised "update" 2) revisions)
    = [0; 1; 2] ∧
  messageQueue (postMessage conflate handler1 (plain "update") revisions)
    = messageQueue revisions
      ++ [{| ident := 3; handler := Some handler1; msg := Some (plain "update") |}].
Proof.
  pose proof (postMessage_conflation conflate handler1 (revised "update" 2) revisions)
    as [_ Hc].
  pose proof (postMessage_conflation conflate handler1 (plain "update") revisions)
    as [Hp _].
  destruct (Hc eq_refl) as (H1 & H2 & _). split_and!.
  - exact H1.
  - exact H2.
  - exact (Hp eq_refl).
Defined.



(** The hook array is [null, spy, pruner]. [pruner] runs first, removes
    [spy] and installs [latecomer]; [spy] is called all the same,
    [latecomer] is not, and the message reaches the handler. *)
Lemma hook_chain_is_a_snapshot_witness :
  ∃ dl st',
    messageHooks meddled !! handler1 = Some [None; Some spy; Some pruner] ∧
    sendMessage conflate logMessage meddlingHook onError
      (call conflate logMessage meddlingHook onError 1)
      handler1 (plain "one") meddled = Some (Returned (), dl, st') ∧
    messageHooks st' !! handler1 = Some [None; None; Some pruner; Some latecomer] ∧
    user st' = [(pruner, "one"); (spy, "one"); (handler1, "one")] ∧
    (consulted dl).*1 `prefix_of` [pruner; spy] ∧
    (∀ hook, hook ∈ (consulted dl).*1 → Some hook ∈ [None; Some spy; Some pruner]) ∧
    (delivered dl = true →
       ∀ hook, Some hook ∈ [None; Some spy; Some pruner] → hook ∈ (consulted dl).*1).
Proof.
  eexists _, _. split; [reflexivity|]. split; [vm_compute; reflexivity|].
  do 2 (split; [reflexivity|]).
  pose proof (proj2 (hook_chain_is_a_snapshot conflate logMessage meddlingHook onError
                (call conflate logMessage meddlingHook onError 1) handler1 (plain "one")
                meddled)
                _ _ _ ltac:(vm_compute; reflexivity)) as (H1 & H2 & H3 & _).
  split_and!; [exact H1|exact H2|exact H3].
Defined.
End Tests.

End MessagingFacts.

(* ===================================================================== *)
(** * Part IV: further properties of the code                             *)
(* ===================================================================== *)

(** ** The cleaner at work *)
Module CleaningLaws.
Import Schedule Cleaning.

Section World.
Context {A T Task : Type} `{Countable A} `{EqDecision Task}.
Variable shouldRemove : T → bool.
Variable dump_cb : Task.

Abbreviation happen' := (happen shouldRemove dump_cb).
Abbreviation happens' := (happens shouldRemove dump_cb).
Abbreviation keep := (filter (λ x : T, shouldRemove x = false)).

Lemma steady_start (arrays : gmap A (list T)) : steady dump_cb (start arrays).
Proof. by split_and!. Qed.

Lemma steady_happen (w : World A T Task) (e : Event A) : steady dump_cb w → steady dump_cb (happen' w e).
Proof.
  destruct w as [[ds id g] [n p] st]. intros (Hg & Hp & Hid). simpl in *. subst g.
  destruct e as [items| |]; simpl.
  - unfold clean. simpl. destruct ds as [|d ds]; simpl in *.
    + subst p. by split_and!.
    + subst p.
      assert (set_add items (d :: ds) ≠ []) as Hne'.
      { unfold set_add. by case_decide. }
      split_and!; simpl; [done| |by auto]. by rewrite decide_False.
  - unfold flush. simpl. destruct (bool_decide (id = 0)) eqn:Hz; simpl.
    { by split_and!. }
    apply bool_decide_eq_false in Hz. unfold cancel. simpl.
    rewrite decide_True by done. simpl. split_and!; simpl; [done| |done].
    unfold unschedule. simpl. subst p. destruct ds as [|d ds]; simpl; [done|].
    rewrite filter_cons_False; [done|]. simpl. by intros ?.
  - unfold fire, next_task. simpl. subst p. destruct ds as [|d ds]; simpl.
    { by split_and!. }
    rewrite decide_True by done. simpl. by split_and!.
Qed.

Lemma steady_happens (es : list (Event A)) : ∀ w : World A T Task, steady dump_cb w → steady dump_cb (happens' es w).
Proof.
  induction es as [|e es IH]; intros w Hw; [done|].
  apply IH. by apply steady_happen.
Qed.

(** X1. Whatever the client does with [clean] and [flush] and whenever the
    host runs a callback, as long as [cancel] is not called: the host holds
    exactly one callback of the cleaner while the pending set is not empty,
    and none while it is empty. *)
Theorem one_callback_while_pending (arrays : gmap A (list T)) (es : list (Event A)) :
  let w := happens' es (start arrays) in
  scheduled dump_cb (events w) = (if decide (dirtySet (cleaner w) = []) then 0 else 1) ∧
  (dirtySet (cleaner w) ≠ [] → (scheduleId (cleaner w), dump_cb) ∈ pending (events w)).
Proof.
  cbv zeta. destruct (steady_happens es _ (steady_start arrays)) as (_ & Hp & _).
  unfold scheduled. rewrite Hp. case_decide; [done|]. split.
  - by rewrite filter_cons_True.
  - intros _. apply list_elem_of_here.
Qed.

(** A number of compactions of arrays, one after the other. *)
Lemma lookup_foldl_remove (ds : list A) : ∀ (arrays : gmap A (list T)) a,
  foldl (λ acc a, lodash_remove shouldRemove a acc) arrays ds !! a
  = if decide (a ∈ ds) then compacted shouldRemove arrays a else arrays !! a.
Proof.
  induction ds as [|x ds IH]; intros arrays a; simpl; [done|].
  rewrite IH. unfold compacted, lodash_remove.
  destruct (decide (a = x)) as [->|Hne].
  - rewrite lookup_alter_eq. rewrite (decide_True (P := x ∈ x :: ds)) by apply list_elem_of_here.
    case_decide; [|done]. destruct (arrays !! x) as [l|]; [|done]. simpl. f_equal.
    apply list_filter_filter_l. done.
  - rewrite lookup_alter_ne by done.
    destruct (decide (a ∈ ds)) as [Hin|Hin].
    + rewrite decide_True; [done|]. by apply list_elem_of_further.
    + rewrite decide_False; [done|]. rewrite elem_of_cons. tauto.
Qed.

Lemma elem_of_set_add (x y : A) (s : list A) : y ∈ set_add x s ↔ y = x ∨ y ∈ s.
Proof.
  unfold set_add. case_decide as Hin.
  - split; [tauto|]. by intros [->|?].
  - rewrite elem_of_app, list_elem_of_singleton. tauto.
Qed.

Lemma happen_clean (w : World A T Task) (x : A) :
  arrays (happen' w (DoClean x)) = arrays w ∧
  dirtySet (cleaner (happen' w (DoClean x))) = set_add x (dirtySet (cleaner w)).
Proof. simpl. unfold clean. by case_decide. Qed.

(** [clean] only registers: the arrays are as they were. *)
Lemma cleans_register (l : list A) : ∀ w : World A T Task,
  arrays (happens' (DoClean <$> l) w) = arrays w ∧
  ∀ a, a ∈ dirtySet (cleaner (happens' (DoClean <$> l) w))
       ↔ a ∈ dirtySet (cleaner w) ∨ a ∈ l.
Proof.
  induction l as [|x l IH]; intros w.
  { split; [done|]. intros a. rewrite elem_of_nil. simpl. tauto. }
  rewrite fmap_cons. unfold happens. cbn [foldl].
  destruct (IH (happen' w (DoClean x))) as [Ha Hd]. unfold happens in Ha, Hd.
  destruct (happen_clean w x) as [Ha1 Hd1].
  rewrite Ha, Ha1. split; [done|].
  intros a. rewrite Hd, Hd1, elem_of_set_add, elem_of_cons. tauto.
Qed.

(** X2. [flush] compacts at once: after any number of calls of [clean] a
    call of [flush] leaves every registered array without the elements to
    remove, the others keeping their order, and every other array as it
    was; nothing is pending afterwards and the host holds no callback. *)
Theorem flush_compacts_at_once (arrays0 : gmap A (list T)) (l : list A) :
  let w := happens' ((DoClean <$> l) ++ [DoFlush]) (start arrays0) in
  (∀ a, arrays w !! a
        = if decide (a ∈ l) then compacted shouldRemove arrays0 a else arrays0 !! a) ∧
  dirtySet (cleaner w) = [] ∧ scheduleId (cleaner w) = 0 ∧
  flushGuard (cleaner w) = false ∧ pending (events w) = [].
Proof.
  cbv zeta. unfold happens. rewrite foldl_app. simpl.
  pose proof (steady_happens (DoClean <$> l) _ (steady_start arrays0)) as Hst.
  destruct (cleans_register l (start arrays0)) as [Harr Hds].
  unfold happens in Hst, Harr, Hds.
  set (w := foldl happen' (start arrays0) (DoClean <$> l)) in *.
  destruct w as [[ds id g] [n p] st]. destruct Hst as (Hg & Hp & Hid).
  simpl in *. subst g st. unfold flush. simpl.
  destruct (bool_decide (id = 0)) eqn:Hz; simpl.
  - apply bool_decide_eq_true in Hz. subst id.
    assert (ds = []) as -> by (destruct ds; [done|]; exfalso; by apply Hid).
    simpl in Hp. subst p. split_and!; try done.
    intros a. rewrite decide_False; [done|]. intros Hin.
    assert (a ∈ []) as Hnil by (apply Hds; by right). by apply not_elem_of_nil in Hnil.
  - apply bool_decide_eq_false in Hz. unfold cancel. simpl.
    rewrite decide_True by done. simpl. split_and!; try done.
    + intros a. rewrite lookup_foldl_remove.
      destruct (decide (a ∈ ds)) as [Hin|Hin].
      * rewrite decide_True; [done|]. apply Hds in Hin as [Hin|Hin]; [|done].
        by apply not_elem_of_nil in Hin.
      * rewrite decide_False; [done|]. intros Hl. apply Hin, Hds. by right.
    + unfold unschedule. simpl. subst p. case_decide; [done|].
      rewrite filter_cons_False; [done|]. simpl. by intros ?.
Qed.

(** X3. Compaction is deferred: calls of [clean] leave the arrays as they
    are, and when the host then runs the callback the registered arrays
    lose the elements to remove, every other array staying as it was; the
    pending set is empty afterwards. *)
Theorem callback_compacts_later (arrays0 : gmap A (list T)) (l : list A) :
  let w1 := happens' (DoClean <$> l) (start arrays0) in
  let w2 := happen' w1 Fire in
  arrays w1 = arrays0 ∧
  (∀ a, arrays w2 !! a
        = if decide (a ∈ l) then compacted shouldRemove arrays0 a else arrays0 !! a) ∧
  dirtySet (cleaner w2) = [] ∧ pending (events w2) = [].
Proof.
  cbv zeta.
  pose proof (steady_happens (DoClean <$> l) _ (steady_start arrays0)) as Hst.
  destruct (cleans_register l (start arrays0)) as [Harr Hds].
  set (w := happens' (DoClean <$> l) (start arrays0)) in *.
  destruct w as [[ds id g] [n p] st]. destruct Hst as (Hg & Hp & Hid).
  simpl in *. subst g st. split; [done|].
  unfold fire, next_task. simpl. subst p. case_decide as Hd; simpl.
  - subst ds. split_and!; try done. intros a. rewrite decide_False; [done|].
    intros Hin. assert (a ∈ []) as Hnil by (apply Hds; by right).
    by apply not_elem_of_nil in Hnil.
  - rewrite decide_True by done. simpl. split_and!; try done.
    intros a. rewrite lookup_foldl_remove.
    destruct (decide (a ∈ ds)) as [Hin|Hin].
    + rewrite decide_True; [done|]. apply Hds in Hin as [Hin|Hin]; [|done].
      by apply not_elem_of_nil in Hin.
    + rewrite decide_False; [done|]. intros Hl. apply Hin, Hds. by right.
Qed.

(** X4. A second [flush] right after a [flush] does nothing, whatever the
    state of the cleaner was. *)
Theorem flush_twice_is_flush_once (w : World A T Task) :
  happen' (happen' w DoFlush) DoFlush = happen' w DoFlush.
Proof.
  destruct w as [[ds id g] [n p] st]. simpl. unfold flush. simpl.
  destruct g; simpl; [done|].
  destruct (bool_decide (id = 0)) eqn:Hz; simpl.
  { by rewrite Hz. }
  apply bool_decide_eq_false in Hz. unfold cancel. simpl.
  rewrite decide_True by done. simpl. done.
Qed.
End World.

End CleaningLaws.

(** ** The registry between two calls of its client *)
Module WiringLaws.
Import Schedule Signaling Wiring SignalingFacts.

Section Registry.
Context {U : Type}.
Variable slotBody : Obj → option Obj → Obj → Args → Prog U.
Variable handlerBody : Obj → Err → Prog U.

Implicit Types (st : Registry U) (s : Signal) (sl : Obj) (ctx : option Obj).
Implicit Types (c : IConnection) (r : nat) (a : ArrayRef) (l : list nat).

(** *** The steps the operations are made of *)

Lemma scheduleCleanup_fields a st :
  connections (scheduleCleanup a st) = connections st ∧
  receiversForSender (scheduleCleanup a st) = receiversForSender st ∧
  sendersForReceiver (scheduleCleanup a st) = sendersForReceiver st ∧
  dirtySet (connectionCleaner (scheduleCleanup a st))
    = set_add a (dirtySet (connectionCleaner st)).
Proof. unfold scheduleCleanup, clean. by case_decide. Qed.

Lemma clear_fields r st :
  receiversForSender (clear r st) = receiversForSender st ∧
  sendersForReceiver (clear r st) = sendersForReceiver st ∧
  connectionCleaner (clear r st) = connectionCleaner st ∧
  host (clear r st) = host st.
Proof. unfold clear. by destruct (connections st !! r). Qed.

Lemma cleared_dead c : signal c = None → cleared c = c.
Proof. destruct c as [sg sl ctx]. simpl. by intros ->. Qed.

Lemma lookup_clear r r' st :
  connections (clear r st) !! r'
  = if decide (r' = r) then cleared <$> connections st !! r' else connections st !! r'.
Proof.
  unfold clear. destruct (connections st !! r) as [c|] eqn:Hr; simpl.
  - case_decide as Heq.
    + subst r'. rewrite Hr. simpl. apply list_lookup_insert_eq.
      by eapply lookup_lt_Some.
    + by apply list_lookup_insert_ne.
  - case_decide as Heq; [|done]. subst r'. by rewrite Hr.
Qed.

Lemma signalOf_clear r r' st :
  signalOf (clear r st) r' = if decide (r' = r) then None else signalOf st r'.
Proof.
  unfold signalOf. rewrite lookup_clear. case_decide; [|done].
  by destruct (connections st !! r').
Qed.

Lemma array_same st st' a :
  receiversForSender st' = receiversForSender st →
  sendersForReceiver st' = sendersForReceiver st →
  array st' a = array st a.
Proof. intros Hr Hs. destruct a; simpl; congruence. Qed.

Lemma isDead_iff st r :
  isDeadConnection (connections st) r = true
  ↔ ∃ c, connections st !! r = Some c ∧ signal c = None.
Proof.
  unfold isDeadConnection. destruct (connections st !! r) as [c|].
  - rewrite bool_decide_eq_true. split; [by exists c|]. by intros (c' & [= <-] & ?).
  - split; [done|]. by intros (c' & ? & _).
Qed.

Lemma filter_length_mono (P Q : nat → Prop) `{∀ x, Decision (P x)} `{∀ x, Decision (Q x)} l :
  (∀ x, x ∈ l → P x → Q x) → length (filter P l) ≤ length (filter Q l).
Proof.
  induction l as [|x l IH]; intros HPQ; [done|].
  assert (length (filter P l) ≤ length (filter Q l)) as Hle.
  { apply IH. intros y Hy. apply HPQ. by right. }
  rewrite !filter_cons. destruct (decide (P x)) as [HP|HP].
  - rewrite decide_True by (apply HPQ; [left|done]). simpl. lia.
  - destruct (decide (Q x)); simpl; lia.
Qed.

(** *** The invariant of the two indexes *)

Lemma consistent_initial (u : U) : consistent (initial u).
Proof.
  split.
  - unfold wf. simpl. split; apply map_Forall_empty.
  - intros r c s Hr. simpl in Hr. by rewrite lookup_nil in Hr.
  - intros o l r s Hl. simpl in Hl. by rewrite lookup_empty in Hl.
  - intros o l r c Hl. simpl in Hl. by rewrite lookup_empty in Hl.
  - intros o l s sl ctx Hl. simpl in Hl. by rewrite lookup_empty in Hl.
Qed.

Lemma consistent_same st st' :
  connections st' = connections st →
  receiversForSender st' = receiversForSender st →
  sendersForReceiver st' = sendersForReceiver st →
  consistent st → consistent st'.
Proof.
  intros Hc Hr Hs [Hwf Hreg Hrp Hsp Hu]. split.
  - unfold wf in *. by rewrite Hc, Hr, Hs.
  - intros r c s. rewrite Hc, Hr, Hs. apply Hreg.
  - intros o l r s. unfold signalOf. rewrite Hc, Hr. apply Hrp.
  - intros o l r c. rewrite Hc, Hs. apply Hsp.
  - intros o l s sl ctx. rewrite Hr. intros Hl.
    rewrite (bindings_ext st st'); [by eapply Hu|]. intros r _. by rewrite Hc.
Qed.

Lemma consistent_scheduleCleanup a st : consistent st → consistent (scheduleCleanup a st).
Proof.
  destruct (scheduleCleanup_fields a st) as (Hc & Hr & Hs & _).
  by apply consistent_same.
Qed.

Lemma consistent_clear r st : consistent st → consistent (clear r st).
Proof.
  intros [Hwf Hreg Hrp Hsp Hu].
  destruct (clear_fields r st) as (Hr & Hs & _ & _). split.
  - by apply (evolves_wf _ _ (evolves_clear r st)).
  - intros r' c s. rewrite lookup_clear, Hr, Hs. case_decide as Heq.
    + destruct (connections st !! r') as [c0|]; simpl; [|done].
      intros [= <-]. done.
    + apply Hreg.
  - intros o l r' s. rewrite signalOf_clear, Hr. case_decide; [done|]. apply Hrp.
  - intros o l r' c. rewrite lookup_clear, Hs. case_decide as Heq.
    + destruct (connections st !! r') as [c0|] eqn:Hc0; simpl; [|done].
      intros Hl Hin [= <-]. by apply (Hsp o l r' c0).
    + apply Hsp.
  - intros o l s sl ctx. rewrite Hr. intros Hl.
    etransitivity; [|by eapply (Hu o l s sl ctx)].
    unfold bindings. apply filter_length_mono. intros x _.
    rewrite !(binds_true slotBody handlerBody). rewrite lookup_clear. case_decide as Heq; [|done].
    intros (c & Hc & Hsig & _). destruct (connections st !! x); [|done].
    simpl in Hc. injection Hc as <-. done.
Qed.

Lemma foldl_keeps {X} (P : Registry U → Prop) (f : Registry U → X → Registry U)
    (xs : list X) :
  (∀ st x, x ∈ xs → P st → P (f st x)) → ∀ st, P st → P (foldl f st xs).
Proof.
  induction xs as [|x xs IH]; intros Hf st Hst; [done|]. simpl.
  apply IH.
  - intros st' y Hy. apply Hf. by right.
  - apply Hf; [left|done].
Qed.

Lemma consistent_connect s sl ctx st : consistent st → consistent (connect s sl ctx st).2.
Proof.
  intros Hst. pose proof (evolves_connect s sl ctx st) as Hev.
  destruct (connect_cases s sl ctx st) as [(r & _ & ->)|Hf]; [done|].
  destruct (connect_fresh s sl ctx st Hf)
    as (st' & Hc & Hheap & Hrs & Hss & _).
  rewrite Hc in Hev |- *. simpl in *.
  destruct Hst as [Hwf Hreg Hrp Hsp Hu].
  pose proof (proj1 (wf_iff st) Hwf) as [Hwr Hws].
  set (rs := default [] (receiversForSender st !! sender s)) in *.
  set (ss := default [] (sendersForReceiver st !! default sl ctx)) in *.
  set (new := {| signal := Some s; slot := sl; context := ctx |}) in *.
  assert (Hold : ∀ r, r < length (connections st) →
            connections st' !! r = connections st !! r).
  { intros r Hr. rewrite Hheap. by apply lookup_app_l. }
  assert (Hnew : connections st' !! length (connections st) = Some new).
  { rewrite Hheap. rewrite lookup_app_r by lia. by rewrite Nat.sub_diag. }
  assert (Hrs_in : ∀ r, r ∈ rs → r < length (connections st)).
  { intros r Hr. subst rs. destruct (receiversForSender st !! sender s) as [l|] eqn:Hl.
    - by eapply Hwr.
    - by apply elem_of_nil in Hr. }
  assert (Hss_in : ∀ r, r ∈ ss → r < length (connections st)).
  { intros r Hr. subst ss.
    destruct (sendersForReceiver st !! default sl ctx) as [l|] eqn:Hl.
    - by eapply Hws.
    - by apply elem_of_nil in Hr. }
  assert (Hcases : ∀ r c, connections st' !! r = Some c →
            (r < length (connections st) ∧ connections st !! r = Some c)
            ∨ (r = length (connections st) ∧ c = new)).
  { intros r c Hr. destruct (decide (r < length (connections st))) as [Hlt|Hge].
    - left. split; [done|]. by rewrite <- Hold.
    - right. apply lookup_lt_Some in Hr as Hlen. rewrite Hheap, length_app in Hlen.
      simpl in Hlen. assert (r = length (connections st)) as -> by lia.
      split; [done|]. congruence. }
  split.
  - by apply (evolves_wf _ _ Hev).
  - intros r c s0 Hr Hsig. rewrite Hrs, Hss.
    destruct (Hcases r c Hr) as [[Hlt Hr0]|[-> ->]].
    + destruct (Hreg r c s0 Hr0 Hsig) as [(l1 & Hl1 & Hin1) (l2 & Hl2 & Hin2)]. split.
      * destruct (decide (sender s0 = sender s)) as [Heq|Hne].
        -- rewrite Heq, lookup_insert_eq. eexists. split; [done|].
           apply elem_of_app. left. subst rs. rewrite <- Heq, Hl1. done.
        -- rewrite lookup_insert_ne by done. eauto.
      * destruct (decide (receiverOf c = default sl ctx)) as [Heq|Hne].
        -- rewrite Heq, lookup_insert_eq. eexists. split; [done|].
           apply elem_of_app. left. subst ss. rewrite <- Heq, Hl2. done.
        -- rewrite lookup_insert_ne by done. eauto.
    + simpl in Hsig. injection Hsig as <-. split.
      * rewrite lookup_insert_eq. eexists. split; [done|].
        apply elem_of_app. right. apply list_elem_of_singleton. done.
      * unfold receiverOf. simpl. rewrite lookup_insert_eq. eexists. split; [done|].
        apply elem_of_app. right. apply list_elem_of_singleton. done.
  - intros o l r s0. rewrite Hrs. unfold signalOf.
    destruct (decide (o = sender s)) as [->|Hne].
    + rewrite lookup_insert_eq. intros [= <-] [Hin|Hin%list_elem_of_singleton]%elem_of_app.
      * rewrite Hold by auto. subst rs.
        destruct (receiversForSender st !! sender s) as [l|] eqn:Hl;
          [|by apply elem_of_nil in Hin].
        by apply (Hrp (sender s) l r s0).
      * subst r. rewrite Hnew. simpl. by intros [= <-].
    + rewrite lookup_insert_ne by done. intros Hl Hin.
      rewrite Hold by (by eapply Hwr). by apply (Hrp o l r s0).
  - intros o l r c. rewrite Hss.
    destruct (decide (o = default sl ctx)) as [->|Hne].
    + rewrite lookup_insert_eq. intros [= <-] [Hin|Hin%list_elem_of_singleton]%elem_of_app.
      * rewrite Hold by auto. subst ss.
        destruct (sendersForReceiver st !! default sl ctx) as [l|] eqn:Hl;
          [|by apply elem_of_nil in Hin].
        by apply (Hsp (default sl ctx) l r c).
      * subst r. rewrite Hnew. by intros [= <-].
    + rewrite lookup_insert_ne by done. intros Hl Hin.
      rewrite Hold by (by eapply Hws). by apply (Hsp o l r c).
  - intros o l s0 sl0 ctx0. rewrite Hrs.
    assert (Hext : ∀ l0, (∀ r, r ∈ l0 → r < length (connections st)) →
              bindings st' l0 s0 sl0 ctx0 = bindings st l0 s0 sl0 ctx0).
    { intros l0 Hl0. apply bindings_ext. intros r Hr. apply Hold. auto. }
    destruct (decide (o = sender s)) as [->|Hne].
    + rewrite lookup_insert_eq. intros [= <-]. rewrite bindings_app, length_app.
      rewrite Hext by done.
      assert (Hrs_le : length (bindings st rs s0 sl0 ctx0) ≤ 1).
      { subst rs. destruct (receiversForSender st !! sender s) as [l|] eqn:Hl.
        - by eapply Hu.
        - simpl. lia. }
      destruct (decide (s0 = s ∧ sl0 = sl ∧ ctx0 = ctx)) as [(-> & -> & ->)|Hdiff].
      * rewrite (bindings_nil st rs) by done. simpl.
        unfold bindings. etransitivity; [apply length_filter|]. done.
      * assert (bindings st' [length (connections st)] s0 sl0 ctx0 = []) as ->; [|simpl; lia].
        unfold bindings. rewrite filter_cons_False; [done|].
        rewrite (binds_true slotBody handlerBody). intros (c & Hc0 & Hsig & Hsl & Hctx).
        rewrite Hnew in Hc0. injection Hc0 as <-. simpl in *.
        apply Hdiff. split_and!; congruence.
    + rewrite lookup_insert_ne by done. intros Hl. rewrite Hext.
      * by eapply Hu.
      * intros r Hr. by eapply Hwr.
Qed.

(** The connections of an array that are not cleared. *)
Lemma remove_dead_fields a st :
  connections (remove_dead a st) = connections st ∧
  connectionCleaner (remove_dead a st) = connectionCleaner st ∧
  host (remove_dead a st) = host st ∧
  ∀ b, array (remove_dead a st) b
       = if decide (b = a)
         then filter (λ r, isDeadConnection (connections st) r = false) <$> array st b
         else array st b.
Proof.
  split_and!; [by destruct a..|]. intros b.
  destruct (decide (b = a)) as [->|Hne].
  - destruct a; simpl; by rewrite lookup_alter_eq.
  - destruct a as [o|o], b as [o'|o']; simpl; try done;
      (rewrite lookup_alter_ne; [done|congruence]).
Qed.

Lemma consistent_arrays st st' :
  connections st' = connections st →
  (∀ a l', array st' a = Some l' →
     ∃ l, array st a = Some l ∧ l' ⊆ l ∧
          ∀ s sl ctx, length (bindings st l' s sl ctx) ≤ length (bindings st l s sl ctx)) →
  (∀ a l r, array st a = Some l → r ∈ l →
     isDeadConnection (connections st) r = false →
     ∃ l', array st' a = Some l' ∧ r ∈ l') →
  consistent st → consistent st'.
Proof.
  intros Hc Hsub Hkeep [Hwf Hreg Hrp Hsp Hu].
  pose proof (proj1 (wf_iff st) Hwf) as [Hwr Hws].
  assert (Hlive : ∀ r c s, connections st !! r = Some c → signal c = Some s →
            isDeadConnection (connections st) r = false).
  { intros r c s Hr Hsig. unfold isDeadConnection. rewrite Hr.
    apply bool_decide_eq_false. congruence. }
  split.
  - apply wf_iff. rewrite Hc. split.
    + intros o l' r Hl' Hin. destruct (Hsub (ReceiversOf o) l' Hl') as (l & Hl & Hss & _).
      eapply Hwr; [exact Hl|]. by apply Hss.
    + intros o l' r Hl' Hin. destruct (Hsub (SendersOf o) l' Hl') as (l & Hl & Hss & _).
      eapply Hws; [exact Hl|]. by apply Hss.
  - intros r c s. rewrite Hc. intros Hr Hsig.
    destruct (Hreg r c s Hr Hsig) as [(l1 & Hl1 & Hin1) (l2 & Hl2 & Hin2)]. split.
    + apply (Hkeep (ReceiversOf (sender s)) l1 r Hl1 Hin1). by eapply Hlive.
    + apply (Hkeep (SendersOf (receiverOf c)) l2 r Hl2 Hin2). by eapply Hlive.
  - intros o l' r s Hl' Hin. unfold signalOf. rewrite Hc.
    destruct (Hsub (ReceiversOf o) l' Hl') as (l & Hl & Hss & _).
    apply (Hrp o l r s Hl). by apply Hss.
  - intros o l' r c Hl' Hin. rewrite Hc.
    destruct (Hsub (SendersOf o) l' Hl') as (l & Hl & Hss & _).
    apply (Hsp o l r c Hl). by apply Hss.
  - intros o l' s sl ctx Hl'.
    destruct (Hsub (ReceiversOf o) l' Hl') as (l & Hl & _ & Hle).
    rewrite (bindings_ext st st'); [|intros r _; by rewrite Hc].
    etransitivity; [apply Hle|]. by eapply Hu.
Qed.

Lemma consistent_remove_dead a st : consistent st → consistent (remove_dead a st).
Proof.
  destruct (remove_dead_fields a st) as (Hc & _ & _ & Harr).
  apply consistent_arrays; [done|..].
  - intros b l'. rewrite Harr. case_decide as Heq.
    + destruct (array st b) as [l|]; [|done]. simpl. intros [= <-].
      exists l. split; [done|]. split.
      * intros r. rewrite list_elem_of_filter. tauto.
      * intros s sl ctx. unfold bindings. rewrite list_filter_filter.
        apply filter_length_mono. tauto.
    + intros Hl'. exists l'. by split_and!.
  - intros b l r Hl Hin Hdead. rewrite Harr. case_decide; [|eauto].
    rewrite Hl. simpl. eexists. split; [done|]. by apply list_elem_of_filter.
Qed.

Lemma dump_fields st :
  connections (dump remove_dead (connectionCleaner st) st).2 = connections st ∧
  dirtySet (dump remove_dead (connectionCleaner st) st).1 = [] ∧
  ∀ b, array (dump remove_dead (connectionCleaner st) st).2 b
       = if decide (b ∈ dirtySet (connectionCleaner st))
         then filter (λ r, isDeadConnection (connections st) r = false) <$> array st b
         else array st b.
Proof.
  unfold dump. simpl. generalize (dirtySet (connectionCleaner st)) as ds.
  intros ds. revert st. induction ds as [|x ds IH]; intros st; simpl.
  { by split_and!. }
  destruct (remove_dead_fields x st) as (Hc & _ & _ & Harr).
  destruct (IH (remove_dead x st)) as (Hc' & _ & Harr').
  split_and!; [congruence|done|].
  intros b. rewrite Harr', Harr, Hc.
  destruct (decide (b = x)) as [->|Hne].
  - rewrite (decide_True (P := x ∈ x :: ds)) by apply list_elem_of_here.
    case_decide; [|done]. destruct (array st x) as [l|]; [|done]. simpl. f_equal.
    by apply list_filter_filter_l.
  - destruct (decide (b ∈ ds)) as [Hin|Hin].
    + rewrite decide_True; [done|]. by apply list_elem_of_further.
    + rewrite decide_False; [done|]. rewrite elem_of_cons. tauto.
Qed.

(** *** The callback of the cleaner *)

Lemma settled_same st st' :
  connectionCleaner st' = connectionCleaner st → host st' = host st →
  settled st → settled st'.
Proof. unfold settled. by intros -> ->. Qed.

Lemma settled_initial (u : U) : settled (initial u).
Proof. done. Qed.

Lemma settled_scheduleCleanup a st : settled st → settled (scheduleCleanup a st).
Proof.
  unfold settled, scheduleCleanup, clean. intros Hp.
  destruct (dirtySet (connectionCleaner st)) as [|d ds] eqn:Hd; simpl in *.
  - rewrite Hp. done.
  - rewrite Hp. rewrite decide_False; [done|]. unfold set_add. by case_decide.
Qed.

Lemma settled_clear r st : settled st → settled (clear r st).
Proof.
  destruct (clear_fields r st) as (_ & _ & Hc & Hh). by apply settled_same.
Qed.

(** *** What the operations that disconnect keep *)

(** The operations that disconnect only clear connection objects and
    register arrays with the cleaner. *)
Section Clearing.
Variable P : Registry U → Prop.
Hypothesis P_clear : ∀ r st, P st → P (clear r st).
Hypothesis P_scheduleCleanup : ∀ a st, P st → P (scheduleCleanup a st).

Lemma disconnect_keeps s sl ctx st : P st → P (disconnect s sl ctx st).2.
Proof.
  intros Hst. unfold disconnect.
  destruct (receiversForSender st !! sender s) as [rs|]; [|done].
  case_decide; [done|].
  destruct (findConnection _ _ _ _ _) as [r|]; [|done]. simpl. auto.
Qed.

Lemma disconnectBetween_keeps o1 o2 st : P st → P (disconnectBetween o1 o2 st).
Proof.
  intros Hst. unfold disconnectBetween.
  destruct (receiversForSender st !! o1) as [rs|]; [|done].
  case_decide; [done|].
  destruct (sendersForReceiver st !! o2) as [ss|]; [|done].
  case_decide; [done|].
  do 2 apply P_scheduleCleanup. apply foldl_keeps; [|done].
  intros st' r _ Hst'. unfold clearIfFrom.
  destruct (connections st' !! r) as [c|]; [|done].
  destruct (signal c) as [s|]; [|done]. case_decide; auto.
Qed.

Lemma disconnectSender_keeps o st : P st → P (disconnectSender o st).
Proof.
  intros Hst. unfold disconnectSender.
  destruct (receiversForSender st !! o) as [rs|]; [|done].
  case_decide; [done|].
  apply P_scheduleCleanup. apply foldl_keeps; [|done].
  intros st' r _ Hst'. unfold clearToReceiver.
  destruct (connections st' !! r) as [c|]; [|done].
  destruct (signal c) as [s|]; [|done]. auto.
Qed.

Lemma disconnectReceiver_keeps o st : P st → P (disconnectReceiver o st).
Proof.
  intros Hst. unfold disconnectReceiver.
  destruct (sendersForReceiver st !! o) as [ss|]; [|done].
  case_decide; [done|].
  apply P_scheduleCleanup. apply foldl_keeps; [|done].
  intros st' r _ Hst'. unfold clearFromSender.
  destruct (connections st' !! r) as [c|]; [|done].
  destruct (signal c) as [s|]; [|done]. auto.
Qed.

Lemma disconnectAll_keeps o st : P st → P (disconnectAll o st).
Proof.
  intros Hst. unfold disconnectAll.
  set (st1 := match receiversForSender st !! o with
              | Some receivers => _ | None => st end).
  assert (P st1) as Hst1.
  { subst st1. destruct (receiversForSender st !! o) as [rs|]; [|done].
    case_decide; [done|]. apply P_scheduleCleanup. apply foldl_keeps; [|done]. auto. }
  destruct (sendersForReceiver st1 !! o) as [ss|]; [|done].
  case_decide; [done|]. apply P_scheduleCleanup. apply foldl_keeps; [|done]. auto.
Qed.
End Clearing.

(** The callback of the cleaner, run by the host. *)
Lemma runCleanup_cases st :
  settled st →
  (dirtySet (connectionCleaner st) = [] ∧ runCleanup st = st) ∨
  (dirtySet (connectionCleaner st) ≠ [] ∧
   connections (runCleanup st) = connections st ∧
   dirtySet (connectionCleaner (runCleanup st)) = [] ∧
   pending (host (runCleanup st)) = [] ∧
   ∀ b, array (runCleanup st) b
        = if decide (b ∈ dirtySet (connectionCleaner st))
          then filter (λ r, isDeadConnection (connections st) r = false) <$> array st b
          else array st b).
Proof.
  unfold settled, runCleanup, next_task. intros Hp. rewrite Hp.
  destruct (decide (dirtySet (connectionCleaner st) = [])) as [Hd|Hd]; [by left|].
  right. split; [done|]. destruct (dump_fields st) as (Hc & Hds & Harr).
  destruct (dump remove_dead (connectionCleaner st) st) as [c st1]. simpl in *.
  split_and!; try done.
Qed.

Lemma consistent_runCleanup st : consistent st → consistent (runCleanup st).
Proof.
  intros Hc. unfold runCleanup. destruct (next_task (host st)) as [[[] s]|]; [|done].
  unfold dump. simpl. apply (consistent_same (foldl (λ acc a, remove_dead a acc) st
    (dirtySet (connectionCleaner st)))); [done..|].
  apply foldl_keeps; [|done]. intros st' a _. apply consistent_remove_dead.
Qed.

(** *** What user code keeps *)

Section Lifting.
Variable Inv : Registry U → Prop.
Variable strict : bool.
Hypothesis Inv_connect : ∀ s sl ctx st, Inv st → Inv (connect s sl ctx st).2.
Hypothesis Inv_disconnect : ∀ s sl ctx st, Inv st → Inv (disconnect s sl ctx st).2.
Hypothesis Inv_disconnectBetween : ∀ o1 o2 st, Inv st → Inv (disconnectBetween o1 o2 st).
Hypothesis Inv_disconnectSender : ∀ o st, Inv st → Inv (disconnectSender o st).
Hypothesis Inv_disconnectReceiver : ∀ o st, Inv st → Inv (disconnectReceiver o st).
Hypothesis Inv_disconnectAll :
  strict = false → ∀ o st, Inv st → Inv (disconnectAll o st).
Hypothesis Inv_same : ∀ st st',
  connections st' = connections st →
  receiversForSender st' = receiversForSender st →
  sendersForReceiver st' = sendersForReceiver st →
  connectionCleaner st' = connectionCleaner st → host st' = host st →
  Inv st → Inv st'.
Hypothesis slots_allowed : ∀ sl ctx o args, allowed strict (slotBody sl ctx o args).
Hypothesis handlers_allowed : ∀ eh e, allowed strict (handlerBody eh e).

Section Step.
Variable emit_rec : Signal → Args → Registry U → option (Outcome * Registry U * Dispatched).
Hypothesis emit_rec_keeps : ∀ s args st fin st' d,
  Inv st → emit_rec s args st = Some (fin, st', d) → Inv st'.

Lemma run_keeps (p : Prog U) : allowed strict p → ∀ st o st',
  Inv st → run emit_rec p st = Some (o, st') → Inv st'.
Proof.
  assert (Hsub : ∀ q : Prog U, (strict = true → selective q) → allowed strict q) by done.
  induction p as [|e|s sl ctx k IH|s sl ctx k IH|s args k IH|o1 o2 k IH
    |x k IH|x k IH|x k IH|h k IH|k IH|u k IH]; intros Ha st o st' Hst; simpl.
  - by intros [= _ <-].
  - by intros [= _ <-].
  - pose proof (Inv_connect s sl ctx st Hst) as H1.
    destruct (connect s sl ctx st) as [b st1]. apply IH; [|done].
    apply Hsub. intros Hs. specialize (Ha Hs). by inversion Ha.
  - pose proof (Inv_disconnect s sl ctx st Hst) as H1.
    destruct (disconnect s sl ctx st) as [b st1]. apply IH; [|done].
    apply Hsub. intros Hs. specialize (Ha Hs). by inversion Ha.
  - destruct (emit_rec s args st) as [[[[|e] st1] d1]|] eqn:He; [| |done].
    + apply IH; [|by eapply emit_rec_keeps].
      apply Hsub. intros Hs. specialize (Ha Hs). by inversion Ha.
    + intros [= _ <-]. by eapply emit_rec_keeps.
  - apply IH; [|by apply Inv_disconnectBetween].
    apply Hsub. intros Hs. specialize (Ha Hs). by inversion Ha.
  - apply IH; [|by apply Inv_disconnectSender].
    apply Hsub. intros Hs. specialize (Ha Hs). by inversion Ha.
  - apply IH; [|by apply Inv_disconnectReceiver].
    apply Hsub. intros Hs. specialize (Ha Hs). by inversion Ha.
  - destruct (decide (strict = true)) as [Hs|Hs].
    + specialize (Ha Hs). inversion Ha.
    + apply IH; [by intros ?|]. apply Inv_disconnectAll; [|done].
      by destruct strict.
  - apply IH; [|by apply (Inv_same st)].
    apply Hsub. intros Hs. specialize (Ha Hs). by inversion Ha.
  - apply IH; [|done]. apply Hsub. intros Hs. specialize (Ha Hs). by inversion Ha.
  - apply IH; [|by apply (Inv_same st)].
    apply Hsub. intros Hs. specialize (Ha Hs). by inversion Ha.
Qed.

Lemma handleException_keeps e st fin st' :
  Inv st → handleException handlerBody emit_rec e st = Some (fin, st') → Inv st'.
Proof.
  intros Hst. unfold handleException.
  assert (Hrep : Inv (report e st)) by (by apply (Inv_same st)).
  case_decide; [by intros [= _ <-]|].
  intros Hr. eapply run_keeps; [apply handlers_allowed|exact Hrep|exact Hr].
Qed.

Lemma invokeSlot_keeps s c args st o fin st' :
  Inv st →
  invokeSlot slotBody handlerBody emit_rec s c args st = Some (o, fin, st') → Inv st'.
Proof.
  intros Hst. unfold invokeSlot.
  destruct (run _ _ _) as [[[|e] st1]|] eqn:Hr; [| |done].
  - intros [= _ _ <-]. eapply run_keeps; [apply slots_allowed|exact Hst|exact Hr].
  - destruct (handleException _ _ _ _) as [[fin' st2]|] eqn:Hh; [|done].
    intros [= _ _ <-]. eapply handleException_keeps; [|exact Hh].
    eapply run_keeps; [apply slots_allowed|exact Hst|exact Hr].
Qed.

Lemma dispatch_keeps s args n : ∀ k st fin st' d,
  Inv st →
  dispatch slotBody handlerBody emit_rec s args n k st = Some (fin, st', d) → Inv st'.
Proof.
  induction n as [|n IH]; intros k st fin st' d Hst; simpl.
  - by intros [= _ <- _].
  - destruct (receiversForSender st !! sender s ≫= _) as [r|]; [|by apply IH].
    destruct (connections st !! r) as [c|]; [|by apply IH].
    case_decide; [|by apply IH].
    destruct (invokeSlot _ _ _ _ _ _ _) as [[[o [|e]] st1]|] eqn:Hi; [| |done].
    + destruct (dispatch _ _ _ _ _ _ _ st1) as [[[fin2 st2] d2]|] eqn:Hd; [|done].
      intros [= _ <- _]. eapply IH; [|exact Hd]. by eapply invokeSlot_keeps.
    + intros [= _ <- _]. by eapply invokeSlot_keeps.
Qed.

Lemma emit_body_keeps s args st fin st' d :
  Inv st →
  emit_body slotBody handlerBody emit_rec s args st = Some (fin, st', d) → Inv st'.
Proof.
  intros Hst. unfold emit_body.
  destruct (receiversForSender st !! sender s) as [rs|]; [|by intros [= _ <- _]].
  case_decide; [by intros [= _ <- _]|]. by apply dispatch_keeps.
Qed.
End Step.

Lemma emit_keeps depth : ∀ s args st fin st' d,
  Inv st → emit slotBody handlerBody depth s args st = Some (fin, st', d) → Inv st'.
Proof.
  induction depth as [|depth IH]; [done|]. simpl. intros s args st fin st' d.
  by apply emit_body_keeps.
Qed.

Lemma exec_keeps depth (p : Prog U) st o st' :
  allowed strict p → Inv st →
  exec slotBody handlerBody depth p st = Some (o, st') → Inv st'.
Proof. intros Ha. apply run_keeps; [apply emit_keeps|done]. Qed.
End Lifting.

Lemma exec_consistent depth (p : Prog U) st o st' :
  consistent st → exec slotBody handlerBody depth p st = Some (o, st') → consistent st'.
Proof.
  apply (exec_keeps consistent false); try done.
  - apply consistent_connect.
  - apply disconnect_keeps; [apply consistent_clear|apply consistent_scheduleCleanup].
  - apply disconnectBetween_keeps; [apply consistent_clear|apply consistent_scheduleCleanup].
  - apply disconnectSender_keeps; [apply consistent_clear|apply consistent_scheduleCleanup].
  - apply disconnectReceiver_keeps; [apply consistent_clear|apply consistent_scheduleCleanup].
  - intros _. apply disconnectAll_keeps; [apply consistent_clear|apply consistent_scheduleCleanup].
  - intros st0 st1 H1 H2 H3 _ _. by apply consistent_same.
Qed.

Lemma settled_connect s sl ctx st : settled st → settled (connect s sl ctx st).2.
Proof.
  intros Hs. destruct (connect_cases s sl ctx st) as [(r & _ & ->)|Hf]; [done|].
  destruct (connect_fresh s sl ctx st Hf) as (st' & -> & _ & _ & _ & _ & _ & _ & Hcl & Hh).
  simpl. by apply (settled_same st).
Qed.

Lemma exec_settled depth (p : Prog U) st o st' :
  settled st → exec slotBody handlerBody depth p st = Some (o, st') → settled st'.
Proof.
  apply (exec_keeps settled false); try done.
  - apply settled_connect.
  - apply disconnect_keeps; [apply settled_clear|apply settled_scheduleCleanup].
  - apply disconnectBetween_keeps; [apply settled_clear|apply settled_scheduleCleanup].
  - apply disconnectSender_keeps; [apply settled_clear|apply settled_scheduleCleanup].
  - apply disconnectReceiver_keeps; [apply settled_clear|apply settled_scheduleCleanup].
  - intros _. apply disconnectAll_keeps; [apply settled_clear|apply settled_scheduleCleanup].
  - intros st0 st1 _ _ _ H4 H5. by apply settled_same.
Qed.

(** *** Cleared connections and the pending set *)

Lemma set_add_spec (x y : ArrayRef) (ds : list ArrayRef) :
  y ∈ set_add x ds ↔ y = x ∨ y ∈ ds.
Proof.
  unfold set_add. case_decide as Hin.
  - split; [tauto|]. by intros [->|?].
  - rewrite elem_of_app, list_elem_of_singleton. tauto.
Qed.

Lemma tidy_but_weaken D D' st :
  (∀ a, a ∈ D → a ∈ D') → tidy_but D st → tidy_but D' st.
Proof. intros Hsub Ht a l r Hl Hin Hd. destruct (Ht a l r Hl Hin Hd); auto. Qed.

Lemma tidy_but_same D st st' :
  connections st' = connections st →
  receiversForSender st' = receiversForSender st →
  sendersForReceiver st' = sendersForReceiver st →
  connectionCleaner st' = connectionCleaner st →
  tidy_but D st → tidy_but D st'.
Proof.
  intros Hc Hr Hs Hcl Ht a l r. rewrite (array_same st st') by done.
  rewrite Hc, Hcl. apply Ht.
Qed.

Lemma tidy_but_schedule a D st : tidy_but (a :: D) st → tidy_but D (scheduleCleanup a st).
Proof.
  destruct (scheduleCleanup_fields a st) as (Hc & Hr & Hs & Hd).
  intros Ht b l r. rewrite (array_same st) by done. rewrite Hc, Hd.
  intros Hl Hin Hdead. rewrite set_add_spec.
  destruct (Ht b l r Hl Hin Hdead) as [?|[->|?]%elem_of_cons]; auto.
Qed.

Lemma tidy_but_clear D r st :
  consistent st → tidy_but D st →
  (∀ c s, connections st !! r = Some c → signal c = Some s →
     (ReceiversOf (sender s) ∈ dirtySet (connectionCleaner st) ∨ ReceiversOf (sender s) ∈ D) ∧
     (SendersOf (receiverOf c) ∈ dirtySet (connectionCleaner st) ∨ SendersOf (receiverOf c) ∈ D)) →
  tidy_but D (clear r st).
Proof.
  intros Hcons Ht Hr a l r'. destruct (clear_fields r st) as (Hrs & Hss & Hcl & _).
  rewrite (array_same st) by done. rewrite Hcl. intros Hl Hin.
  rewrite isDead_iff, lookup_clear. intros (c' & Hc' & Hsig').
  destruct (decide (r' = r)) as [->|Hne].
  - destruct (connections st !! r) as [c|] eqn:Hc; [|done].
    destruct (signal c) as [s|] eqn:Hsig.
    + destruct (Hr c s eq_refl Hsig) as [H1 H2]. destruct a as [o|o]; simpl in Hl.
      * assert (sender s = o) as <-; [|done].
        apply (receivers_placed st Hcons o l r s Hl Hin). unfold signalOf.
        by rewrite Hc.
      * assert (receiverOf c = o) as <-; [|done].
        by apply (senders_placed st Hcons o l r c Hl Hin).
    + apply (Ht a l r Hl Hin). apply isDead_iff. by exists c.
  - apply (Ht a l r' Hl Hin). apply isDead_iff. by exists c'.
Qed.

Lemma tidy_initial (u : U) : tidy (initial u).
Proof. intros [o|o] l r Hl; simpl in Hl; by rewrite lookup_empty in Hl. Qed.

Lemma tidy_connect s sl ctx st :
  consistent st → tidy st → tidy (connect s sl ctx st).2.
Proof.
  intros Hcons Ht.
  destruct (connect_cases s sl ctx st) as [(r & _ & ->)|Hf]; [done|].
  destruct (connect_fresh s sl ctx st Hf)
    as (st' & -> & Hheap & Hrs & Hss & _ & _ & _ & Hcl & _). simpl.
  pose proof (proj1 (wf_iff st) (consistent_wf st Hcons)) as [Hwr Hws].
  intros a l' r Hl' Hin. rewrite Hcl. rewrite isDead_iff. intros (c & Hc & Hsig).
  assert (r < length (connections st)) as Hlt.
  { apply lookup_lt_Some in Hc as Hlen. rewrite Hheap, length_app in Hlen. simpl in Hlen.
    destruct (decide (r = length (connections st))) as [->|]; [|lia].
    rewrite Hheap, lookup_app_r, Nat.sub_diag in Hc by lia. simpl in Hc.
    injection Hc as <-. done. }
  rewrite Hheap, lookup_app_l in Hc by done.
  assert (isDeadConnection (connections st) r = true) as Hdead.
  { apply isDead_iff. by exists c. }
  assert (∃ l, array st a = Some l ∧ r ∈ l) as (l & Hl & Hin'); [|by eapply Ht].
  destruct a as [o|o]; simpl in Hl' |- *.
  - rewrite Hrs in Hl'. destruct (decide (o = sender s)) as [->|Hne].
    + rewrite lookup_insert_eq in Hl'. injection Hl' as <-.
      apply elem_of_app in Hin as [Hin|Hin%list_elem_of_singleton]; [|lia].
      destruct (receiversForSender st !! sender s) as [l|]; [by exists l|].
      by apply elem_of_nil in Hin.
    + rewrite lookup_insert_ne in Hl' by done. by exists l'.
  - rewrite Hss in Hl'. destruct (decide (o = default sl ctx)) as [->|Hne].
    + rewrite lookup_insert_eq in Hl'. injection Hl' as <-.
      apply elem_of_app in Hin as [Hin|Hin%list_elem_of_singleton]; [|lia].
      destruct (sendersForReceiver st !! default sl ctx) as [l|]; [by exists l|].
      by apply elem_of_nil in Hin.
    + rewrite lookup_insert_ne in Hl' by done. by exists l'.
Qed.

Lemma tidy_disconnect s sl ctx st :
  consistent st → tidy st → tidy (disconnect s sl ctx st).2.
Proof.
  intros Hcons Ht. unfold disconnect.
  destruct (receiversForSender st !! sender s) as [rs|]; [|done].
  case_decide; [done|].
  destruct (findConnection _ _ _ _ _) as [r|] eqn:Hf; [|done]. simpl.
  apply findConnection_Some in Hf as (Hin & c & Hc & Hm).
  apply (matches_true slotBody handlerBody) in Hm as (Hsig & Hsl & Hctx).
  do 2 apply tidy_but_schedule. apply tidy_but_clear; [done| |].
  - revert Ht. apply tidy_but_weaken. intros a Ha. by apply elem_of_nil in Ha.
  - intros c0 s0 Hc0 Hs0. rewrite Hc in Hc0. injection Hc0 as <-.
    rewrite Hsig in Hs0. injection Hs0 as <-. unfold receiverOf. rewrite Hsl, Hctx.
    split; right; [|apply list_elem_of_further]; apply list_elem_of_here.
Qed.

Lemma tidy_disconnectBetween o1 o2 st :
  consistent st → tidy st → tidy (disconnectBetween o1 o2 st).
Proof.
  intros Hcons Ht. unfold disconnectBetween.
  destruct (receiversForSender st !! o1) as [rs|]; [|done].
  case_decide; [done|].
  destruct (sendersForReceiver st !! o2) as [ss|] eqn:Hss; [|done].
  case_decide; [done|].
  do 2 apply tidy_but_schedule.
  apply (foldl_keeps (λ st', consistent st' ∧ sendersForReceiver st' !! o2 = Some ss ∧
           tidy_but [ReceiversOf o1; SendersOf o2] st')).
  - intros st' r Hin (Hc' & Hss' & Ht'). unfold clearIfFrom.
    destruct (connections st' !! r) as [c|] eqn:Hc; [|done].
    destruct (signal c) as [s|] eqn:Hsig; [|done]. case_decide as Hsend; [|done].
    destruct (clear_fields r st') as (_ & Hs & _ & _).
    split_and!; [by apply consistent_clear|by rewrite Hs|].
    apply tidy_but_clear; [done..|].
    intros c0 s0 Hc0 Hs0. rewrite Hc0 in Hc. injection Hc as <-.
    rewrite Hsig in Hs0. injection Hs0 as <-.
    rewrite Hsend, (senders_placed st' Hc' o2 ss r c0 Hss' Hin Hc0).
    split; right; [|apply list_elem_of_further]; apply list_elem_of_here.
  - split_and!; [done..|]. revert Ht. apply tidy_but_weaken.
    intros a Ha. by apply elem_of_nil in Ha.
Qed.

Lemma tidy_disconnectSender o st :
  consistent st → tidy st → tidy (disconnectSender o st).
Proof.
  intros Hcons Ht. unfold disconnectSender.
  destruct (receiversForSender st !! o) as [rs|] eqn:Hrs; [|done].
  case_decide; [done|].
  apply tidy_but_schedule.
  apply (foldl_keeps (λ st', consistent st' ∧ receiversForSender st' !! o = Some rs ∧
           tidy_but [ReceiversOf o] st')).
  - intros st' r Hin (Hc' & Hrs' & Ht'). unfold clearToReceiver.
    destruct (connections st' !! r) as [c|] eqn:Hc; [|done].
    destruct (signal c) as [s|] eqn:Hsig; [|done].
    destruct (clear_fields r st') as (Hr & _ & _ & _).
    destruct (scheduleCleanup_fields (SendersOf (default (slot c) (context c))) (clear r st'))
      as (_ & Hr2 & _ & _).
    split_and!.
    + by apply consistent_scheduleCleanup, consistent_clear.
    + by rewrite Hr2, Hr.
    + apply tidy_but_schedule. apply tidy_but_clear; [done| |].
      * revert Ht'. apply tidy_but_weaken. intros a Ha. by right.
      * intros c0 s0 Hc0 Hs0. rewrite Hc0 in Hc. injection Hc as <-.
        rewrite Hsig in Hs0. injection Hs0 as <-.
        assert (sender s = o) as ->.
        { apply (receivers_placed st' Hc' o rs r s Hrs' Hin). unfold signalOf.
          by rewrite Hc0. }
        split; right; [apply list_elem_of_further|]; apply list_elem_of_here.
  - split_and!; [done..|]. revert Ht. apply tidy_but_weaken.
    intros a Ha. by apply elem_of_nil in Ha.
Qed.

Lemma tidy_disconnectReceiver o st :
  consistent st → tidy st → tidy (disconnectReceiver o st).
Proof.
  intros Hcons Ht. unfold disconnectReceiver.
  destruct (sendersForReceiver st !! o) as [ss|] eqn:Hss; [|done].
  case_decide; [done|].
  apply tidy_but_schedule.
  apply (foldl_keeps (λ st', consistent st' ∧ sendersForReceiver st' !! o = Some ss ∧
           tidy_but [SendersOf o] st')).
  - intros st' r Hin (Hc' & Hss' & Ht'). unfold clearFromSender.
    destruct (connections st' !! r) as [c|] eqn:Hc; [|done].
    destruct (signal c) as [s|] eqn:Hsig; [|done].
    destruct (clear_fields r st') as (_ & Hs & _ & _).
    destruct (scheduleCleanup_fields (ReceiversOf (sender s)) (clear r st'))
      as (_ & _ & Hs2 & _).
    split_and!.
    + by apply consistent_scheduleCleanup, consistent_clear.
    + by rewrite Hs2, Hs.
    + apply tidy_but_schedule. apply tidy_but_clear; [done| |].
      * revert Ht'. apply tidy_but_weaken. intros a Ha. by right.
      * intros c0 s0 Hc0 Hs0. rewrite Hc0 in Hc. injection Hc as <-.
        rewrite Hsig in Hs0. injection Hs0 as <-.
        rewrite (senders_placed st' Hc' o ss r c0 Hss' Hin Hc0).
        split; right; [|apply list_elem_of_further]; apply list_elem_of_here.
  - split_and!; [done..|]. revert Ht. apply tidy_but_weaken.
    intros a Ha. by apply elem_of_nil in Ha.
Qed.

Lemma exec_tidy depth (p : Prog U) st o st' :
  (∀ sl ctx x args, selective (slotBody sl ctx x args)) →
  (∀ eh e, selective (handlerBody eh e)) → selective p →
  consistent st → tidy st →
  exec slotBody handlerBody depth p st = Some (o, st') → consistent st' ∧ tidy st'.
Proof.
  intros Hslots Hhandlers Hp Hc Ht.
  apply (exec_keeps (λ st, consistent st ∧ tidy st) true); try done.
  - intros s sl ctx st0 [? ?]. split; [by apply consistent_connect|by apply tidy_connect].
  - intros s sl ctx st0 [? ?]. split; [|by apply tidy_disconnect].
    by apply disconnect_keeps; [apply consistent_clear|apply consistent_scheduleCleanup|].
  - intros o1 o2 st0 [? ?]. split; [|by apply tidy_disconnectBetween].
    by apply disconnectBetween_keeps; [apply consistent_clear|apply consistent_scheduleCleanup|].
  - intros x st0 [? ?]. split; [|by apply tidy_disconnectSender].
    by apply disconnectSender_keeps; [apply consistent_clear|apply consistent_scheduleCleanup|].
  - intros x st0 [? ?]. split; [|by apply tidy_disconnectReceiver].
    by apply disconnectReceiver_keeps; [apply consistent_clear|apply consistent_scheduleCleanup|].
  - intros st0 st1 H1 H2 H3 H4 _ [? ?].
    split; [by apply (consistent_same st0)|by apply (tidy_but_same [] st0)].
  - intros sl ctx x args _. apply Hslots.
  - intros eh e _. apply Hhandlers.
  - by intros _.
Qed.

(** *** Which connections an operation clears *)

Lemma lookup_clearWhere (p : Signal → IConnection → bool) (heap : list IConnection) r :
  clearWhere p heap !! r
  = (λ c, match signal c with
          | Some s => if p s c then cleared c else c
          | None => c
          end) <$> heap !! r.
Proof. unfold clearWhere. apply list_lookup_fmap. Qed.

(** A walk over an array that clears the connections [q] holds of. *)
Lemma lookup_foldl_clear (f : Registry U → nat → Registry U)
    (q : IConnection → bool) l :
  (∀ st r r', connections (f st r) !! r'
     = if decide (r' = r)
       then (λ c, if q c then cleared c else c) <$> connections st !! r'
       else connections st !! r') →
  ∀ st r', connections (foldl f st l) !! r'
    = if decide (r' ∈ l)
      then (λ c, if q c then cleared c else c) <$> connections st !! r'
      else connections st !! r'.
Proof.
  intros Hf. induction l as [|x l IH]; intros st r'; simpl; [done|].
  rewrite IH, Hf. destruct (decide (r' = x)) as [->|Hne].
  - rewrite (decide_True (P := x ∈ x :: l)) by apply list_elem_of_here.
    case_decide; [|done]. destruct (connections st !! x) as [c|]; [|done]. simpl.
    f_equal. destruct (q c) eqn:Hq; [|by rewrite Hq].
    by destruct (q (cleared c)).
  - destruct (decide (r' ∈ l)) as [Hin|Hin].
    + rewrite decide_True; [done|]. by apply list_elem_of_further.
    + rewrite decide_False; [done|]. rewrite elem_of_cons. tauto.
Qed.

Lemma foldl_arrays (f : Registry U → nat → Registry U) l :
  (∀ st r, receiversForSender (f st r) = receiversForSender st ∧
           sendersForReceiver (f st r) = sendersForReceiver st) →
  ∀ st, receiversForSender (foldl f st l) = receiversForSender st ∧
        sendersForReceiver (foldl f st l) = sendersForReceiver st.
Proof.
  intros Hf st.
  apply (foldl_keeps (λ st', receiversForSender st' = receiversForSender st ∧
                              sendersForReceiver st' = sendersForReceiver st)); [|done].
  intros st' r _ [H1 H2]. destruct (Hf st' r) as [-> ->]. done.
Qed.

Lemma step_clear st r r' :
  connections (clear r st) !! r'
  = if decide (r' = r)
    then (λ c, if (λ _, true) c then cleared c else c) <$> connections st !! r'
    else connections st !! r'.
Proof. apply lookup_clear. Qed.

Lemma step_clearIfFrom o st r r' :
  connections (clearIfFrom o st r) !! r'
  = if decide (r' = r)
    then (λ c, if (λ c, match signal c with
                        | Some s => bool_decide (sender s = o)
                        | None => false
                        end) c
               then cleared c else c) <$> connections st !! r'
    else connections st !! r'.
Proof.
  unfold clearIfFrom. destruct (connections st !! r) as [c|] eqn:Hc.
  - destruct (signal c) as [s|] eqn:Hsig.
    + case_decide as Hs.
      * rewrite lookup_clear. case_decide as Heq; [|done]. subst r'. rewrite Hc. simpl.
        rewrite Hsig. by rewrite bool_decide_eq_true_2.
      * case_decide as Heq; [|done]. subst r'. rewrite Hc. simpl.
        rewrite Hsig. by rewrite bool_decide_eq_false_2.
    + case_decide as Heq; [|done]. subst r'. rewrite Hc. simpl. by rewrite Hsig.
  - case_decide as Heq; [|done]. subst r'. by rewrite Hc.
Qed.

Lemma step_clearToReceiver st r r' :
  connections (clearToReceiver st r) !! r'
  = if decide (r' = r)
    then (λ c, if (λ _, true) c then cleared c else c) <$> connections st !! r'
    else connections st !! r'.
Proof.
  unfold clearToReceiver. destruct (connections st !! r) as [c|] eqn:Hc.
  - destruct (signal c) as [s|] eqn:Hsig.
    + destruct (scheduleCleanup_fields (SendersOf (default (slot c) (context c)))
                  (clear r st)) as (-> & _). apply lookup_clear.
    + case_decide as Heq; [|done]. subst r'. rewrite Hc. simpl.
      by rewrite cleared_dead.
  - case_decide as Heq; [|done]. subst r'. by rewrite Hc.
Qed.

Lemma step_clearFromSender st r r' :
  connections (clearFromSender st r) !! r'
  = if decide (r' = r)
    then (λ c, if (λ _, true) c then cleared c else c) <$> connections st !! r'
    else connections st !! r'.
Proof.
  unfold clearFromSender. destruct (connections st !! r) as [c|] eqn:Hc.
  - destruct (signal c) as [s|] eqn:Hsig.
    + destruct (scheduleCleanup_fields (ReceiversOf (sender s)) (clear r st)) as (-> & _).
      apply lookup_clear.
    + case_decide as Heq; [|done]. subst r'. rewrite Hc. simpl.
      by rewrite cleared_dead.
  - case_decide as Heq; [|done]. subst r'. by rewrite Hc.
Qed.

Lemma arrays_clearIfFrom o st r :
  receiversForSender (clearIfFrom o st r) = receiversForSender st ∧
  sendersForReceiver (clearIfFrom o st r) = sendersForReceiver st.
Proof.
  unfold clearIfFrom. destruct (connections st !! r) as [c|]; [|done].
  destruct (signal c) as [s|]; [|done]. case_decide; [|done].
  destruct (clear_fields r st) as (-> & -> & _). done.
Qed.

Lemma arrays_clearToReceiver st r :
  receiversForSender (clearToReceiver st r) = receiversForSender st ∧
  sendersForReceiver (clearToReceiver st r) = sendersForReceiver st.
Proof.
  unfold clearToReceiver. destruct (connections st !! r) as [c|]; [|done].
  destruct (signal c) as [s|]; [|done].
  destruct (scheduleCleanup_fields (SendersOf (default (slot c) (context c))) (clear r st))
    as (_ & -> & -> & _).
  destruct (clear_fields r st) as (-> & -> & _). done.
Qed.

Lemma arrays_clearFromSender st r :
  receiversForSender (clearFromSender st r) = receiversForSender st ∧
  sendersForReceiver (clearFromSender st r) = sendersForReceiver st.
Proof.
  unfold clearFromSender. destruct (connections st !! r) as [c|]; [|done].
  destruct (signal c) as [s|]; [|done].
  destruct (scheduleCleanup_fields (ReceiversOf (sender s)) (clear r st))
    as (_ & -> & -> & _).
  destruct (clear_fields r st) as (-> & -> & _). done.
Qed.

Lemma arrays_clear st r :
  receiversForSender (clear r st) = receiversForSender st ∧
  sendersForReceiver (clear r st) = sendersForReceiver st.
Proof. destruct (clear_fields r st) as (-> & -> & _). done. Qed.

(** A pass of [emit] over an array none of whose connections is live for
    the signal calls no slot and changes nothing. *)
Lemma dispatch_nothing emit_rec s args n : ∀ k st,
  (∀ l r, receiversForSender st !! sender s = Some l → r ∈ l → signalOf st r ≠ Some s) →
  dispatch slotBody handlerBody emit_rec s args n k st = Some (Returned, st, []).
Proof.
  induction n as [|n IH]; intros k st Hnone; simpl; [done|].
  destruct (receiversForSender st !! sender s ≫= _) as [r|] eqn:Hk; [|by apply IH].
  destruct (connections st !! r) as [c|] eqn:Hc; [|by apply IH].
  case_decide as Hsig; [|by apply IH].
  apply bind_Some in Hk as (l & Hl & Hk).
  exfalso. apply (Hnone l r Hl); [by eapply list_elem_of_lookup_2|].
  unfold signalOf. by rewrite Hc.
Qed.

Lemma emit_nothing depth s args st :
  (∀ l r, receiversForSender st !! sender s = Some l → r ∈ l → signalOf st r ≠ Some s) →
  emit slotBody handlerBody (S depth) s args st = Some (Returned, st, []).
Proof.
  intros Hnone. simpl. unfold emit_body.
  destruct (receiversForSender st !! sender s) as [l|] eqn:Hl; [|done].
  case_decide; [done|]. apply dispatch_nothing. intros l' r. rewrite Hl.
  intros [= <-]. by apply Hnone.
Qed.

Lemma signalOf_clearWhere (p : Signal → IConnection → bool) st st' r s :
  connections st' = clearWhere p (connections st) →
  signalOf st' r = Some s →
  ∃ c, connections st !! r = Some c ∧ signal c = Some s ∧ p s c = false.
Proof.
  intros Hc. unfold signalOf. rewrite Hc, lookup_clearWhere.
  destruct (connections st !! r) as [c|]; [|done]. simpl.
  destruct (signal c) as [s'|] eqn:Hsig.
  - destruct (p s' c) eqn:Hp; simpl; [done|]. rewrite Hsig. intros [= <-]. by exists c.
  - by rewrite Hsig.
Qed.

Lemma filter_two (P : nat → Prop) `{∀ x, Decision (P x)} l x y :
  x ∈ l → y ∈ l → x ≠ y → P x → P y → 2 ≤ length (filter P l).
Proof.
  intros Hx Hy Hne HPx HPy. induction l as [|z l IH]; [by apply elem_of_nil in Hx|].
  assert (∀ w, w ∈ l → P w → 1 ≤ length (filter P l)) as Hone.
  { intros w Hw HPw. assert (w ∈ filter P l) as Hin by by apply list_elem_of_filter.
    destruct (filter P l); [by apply elem_of_nil in Hin|simpl; lia]. }
  apply elem_of_cons in Hx as [->|Hx]; apply elem_of_cons in Hy as [->|Hy].
  - done.
  - rewrite filter_cons_True by done. simpl. specialize (Hone y Hy HPy). lia.
  - rewrite filter_cons_True by done. simpl. specialize (Hone x Hx HPx). lia.
  - rewrite filter_cons. specialize (IH Hx Hy). destruct (decide (P z)); simpl; lia.
Qed.

Lemma heap_clearWhere st st' (p : Signal → IConnection → bool)
    (l : list nat) (q : IConnection → bool) :
  (∀ r, connections st' !! r
     = if decide (r ∈ l)
       then (λ c, if q c then cleared c else c) <$> connections st !! r
       else connections st !! r) →
  (∀ r c s, connections st !! r = Some c → signal c = Some s →
     (p s c = true ↔ r ∈ l ∧ q c = true)) →
  connections st' = clearWhere p (connections st).
Proof.
  intros Hheap Hp. apply list_eq. intros r. rewrite Hheap, lookup_clearWhere.
  destruct (connections st !! r) as [c|] eqn:Hc; [|by case_decide].
  destruct (signal c) as [s|] eqn:Hsig.
  - specialize (Hp r c s Hc Hsig). case_decide as Hin; simpl; rewrite Hsig; f_equal.
    + destruct (q c) eqn:Hq.
      * by rewrite (proj2 Hp).
      * destruct (p s c); [|done]. by destruct Hp as [[_ ?] _].
    + destruct (p s c); [|done]. by destruct Hp as [[? _] _].
  - case_decide; simpl; rewrite Hsig; [|done]. f_equal.
    destruct (q c); [|done]. by apply cleared_dead.
Qed.

Lemma heap_unchanged st (p : Signal → IConnection → bool) :
  (∀ r c s, connections st !! r = Some c → signal c = Some s → p s c = false) →
  connections st = clearWhere p (connections st).
Proof.
  intros Hp. apply (heap_clearWhere st st p [] (λ _, true)).
  - intros r. by rewrite decide_False by apply not_elem_of_nil.
  - intros r c s Hc Hsig. rewrite (Hp r c s Hc Hsig). split; [done|].
    intros [Hin _]. by apply elem_of_nil in Hin.
Qed.

Lemma no_match_after s sl ctx st st' r c :
  connections st' = clearWhere (λ _ c, matches s sl ctx c) (connections st) →
  connections st' !! r = Some c → matches s sl ctx c = false.
Proof.
  intros ->. rewrite lookup_clearWhere.
  destruct (connections st !! r) as [c0|]; [|done]. simpl.
  destruct (signal c0) as [s0|] eqn:Hsig.
  - destruct (matches s sl ctx c0) eqn:Hm; intros [= <-]; [|done].
    by unfold matches.
  - intros [= <-]. unfold matches. by rewrite Hsig.
Qed.

(** X9. [disconnect] returns [true] exactly when a live connection has the
    binding; it then clears that connection, the only one there is, and a
    [connect] for the binding succeeds again. When it returns [false] the
    state is as it was. Either way no array changes. *)
Theorem disconnect_clears_the_binding s sl ctx st :
  consistent st →
  let b := (disconnect s sl ctx st).1 in
  let st' := (disconnect s sl ctx st).2 in
  (b = true ↔ ∃ r c, connections st !! r = Some c ∧ matches s sl ctx c = true) ∧
  (b = false → st' = st) ∧
  connections st' = clearWhere (λ _ c, matches s sl ctx c) (connections st) ∧
  receiversForSender st' = receiversForSender st ∧
  sendersForReceiver st' = sendersForReceiver st ∧
  (b = true → (connect s sl ctx st').1 = true).
Proof.
  intros Hcons. cbv zeta.
  assert (Hreconnect : ∀ st',
    connections st' = clearWhere (λ _ c, matches s sl ctx c) (connections st) →
    (connect s sl ctx st').1 = true).
  { intros st' Hheap.
    destruct (connect_cases s sl ctx st') as [(r & Hf & _)|Hf].
    - apply findConnection_Some in Hf as (_ & c & Hc & Hm).
      by rewrite (no_match_after s sl ctx st st' r c Hheap Hc) in Hm.
    - by destruct (connect_fresh s sl ctx st' Hf) as (st2 & -> & _). }
  assert (Hnone : (∀ l, receiversForSender st !! sender s = Some l →
                     findConnection (connections st) l s sl ctx = None) →
    ∀ r c, connections st !! r = Some c → matches s sl ctx c = false).
  { intros Hl r c Hc. destruct (matches s sl ctx c) eqn:Hm; [|done].
    pose proof Hm as (Hsig & _)%(matches_true slotBody handlerBody).
    destruct (live_registered st Hcons r c s Hc Hsig) as [(l & Hrs & Hin) _].
    specialize (Hl l Hrs). rewrite findConnection_None in Hl.
    by rewrite (Hl r c Hin Hc) in Hm. }
  assert (Hfalse : (∀ r c, connections st !! r = Some c → matches s sl ctx c = false) →
    (false = true ↔ ∃ r c, connections st !! r = Some c ∧ matches s sl ctx c = true) ∧
    (false = false → st = st) ∧
    connections st = clearWhere (λ _ c, matches s sl ctx c) (connections st) ∧
    receiversForSender st = receiversForSender st ∧
    sendersForReceiver st = sendersForReceiver st ∧
    (false = true → (connect s sl ctx st).1 = true)).
  { intros Hno. split_and!; try done.
    - split; [done|]. intros (r & c & Hc & Hm). by rewrite (Hno r c Hc) in Hm.
    - apply heap_unchanged. intros r c _ Hc _. by apply (Hno r c). }
  unfold disconnect.
  destruct (receiversForSender st !! sender s) as [rs|] eqn:Hrs; simpl;
    [|apply Hfalse, Hnone; by intros l].
  case_decide as Hlen.
  { simpl. apply Hfalse, Hnone. intros l [= <-].
    apply nil_length_inv in Hlen. by subst rs. }
  destruct (findConnection _ _ _ _ _) as [r|] eqn:Hf; simpl;
    [|apply Hfalse, Hnone; by intros l [= <-]].
  apply findConnection_Some in Hf as (Hin & c & Hc & Hm).
  pose proof Hm as (Hsig & Hsl & Hctx)%(matches_true slotBody handlerBody).
  set (st1 := clear r st).
  set (st2 := scheduleCleanup (ReceiversOf (sender s)) st1).
  destruct (scheduleCleanup_fields (SendersOf (default sl ctx)) st2) as (Hc3 & Hr3 & Hs3 & _).
  destruct (scheduleCleanup_fields (ReceiversOf (sender s)) st1) as (Hc2 & Hr2 & Hs2 & _).
  destruct (clear_fields r st) as (Hr1 & Hs1 & _).
  assert (Hheap : connections (scheduleCleanup (SendersOf (default sl ctx)) st2)
                  = clearWhere (λ _ c, matches s sl ctx c) (connections st)).
  { rewrite Hc3. fold st2 in Hc2. rewrite Hc2.
    apply (heap_clearWhere st st1 _ [r] (λ _, true)).
    - intros r'. subst st1. rewrite lookup_clear.
      destruct (decide (r' = r)) as [->|Hne].
      + by rewrite decide_True by apply list_elem_of_here.
      + rewrite decide_False; [done|]. by rewrite list_elem_of_singleton.
    - intros r' c' s' Hc' Hsig'. rewrite list_elem_of_singleton. split; [|by intros [-> _]; congruence].
      intros Hm'. split; [|done]. destruct (decide (r' = r)) as [|Hne]; [done|]. exfalso.
      pose proof Hm' as (Hsig2 & _)%(matches_true slotBody handlerBody).
      destruct (live_registered st Hcons r' c' s Hc' Hsig2) as [(l & Hl & Hin') _].
      rewrite Hrs in Hl. injection Hl as <-.
      pose proof (bindings_unique st Hcons (sender s) rs s sl ctx Hrs) as Hle.
      assert (2 ≤ length (bindings st rs s sl ctx)); [|lia].
      unfold bindings. apply (filter_two _ rs r r'); [done|done|congruence|..].
      + unfold binds. by rewrite Hc.
      + unfold binds. by rewrite Hc'. }
  split_and!; try done.
  - split; [|done]. intros _. by exists r, c.
  - subst st2 st1. by rewrite Hr3, Hr2, Hr1.
  - subst st2 st1. by rewrite Hs3, Hs2, Hs1.
  - intros _. by apply Hreconnect.
Qed.

Lemma live_in_receivers st r c s :
  consistent st → connections st !! r = Some c → signal c = Some s →
  ∀ o, sender s = o ↔ ∃ l, receiversForSender st !! o = Some l ∧ r ∈ l.
Proof.
  intros Hcons Hc Hsig o. split.
  - intros <-. by destruct (live_registered st Hcons r c s Hc Hsig) as [? _].
  - intros (l & Hl & Hin). apply (receivers_placed st Hcons o l r s Hl Hin).
    unfold signalOf. by rewrite Hc.
Qed.

Lemma live_in_senders st r c s :
  consistent st → connections st !! r = Some c → signal c = Some s →
  ∀ o, receiverOf c = o ↔ ∃ l, sendersForReceiver st !! o = Some l ∧ r ∈ l.
Proof.
  intros Hcons Hc Hsig o. split.
  - intros <-. by destruct (live_registered st Hcons r c s Hc Hsig) as [_ ?].
  - intros (l & Hl & Hin). by apply (senders_placed st Hcons o l r c Hl Hin).
Qed.

(** X11. [disconnectSender] clears exactly the live connections whose
    signal belongs to the sender and leaves every array as it is; an
    [emit] of a signal of that sender then calls no slot. *)
Theorem disconnectSender_clears_the_sender o st :
  consistent st →
  let st' := disconnectSender o st in
  connections st' = clearWhere (λ s _, bool_decide (sender s = o)) (connections st) ∧
  receiversForSender st' = receiversForSender st ∧
  sendersForReceiver st' = sendersForReceiver st ∧
  ∀ depth s args, sender s = o →
    emit slotBody handlerBody (S depth) s args st' = Some (Returned, st', []).
Proof.
  intros Hcons. cbv zeta.
  assert (Hemit : ∀ st',
    connections st' = clearWhere (λ s _, bool_decide (sender s = o)) (connections st) →
    ∀ depth s args, sender s = o →
      emit slotBody handlerBody (S depth) s args st' = Some (Returned, st', [])).
  { intros st' Hheap depth s args Hs. apply emit_nothing. intros l r _ _ Hsig.
    destruct (signalOf_clearWhere _ st st' r s Hheap Hsig) as (c & _ & _ & Hp).
    by rewrite bool_decide_eq_true_2 in Hp. }
  assert (Hsame : (∀ l r, receiversForSender st !! o = Some l → r ∉ l) →
    connections st = clearWhere (λ s _, bool_decide (sender s = o)) (connections st)).
  { intros Hno. apply heap_unchanged. intros r c s Hc Hsig.
    apply bool_decide_eq_false. intros Hs.
    apply (live_in_receivers st r c s Hcons Hc Hsig) in Hs as (l & Hl & Hin).
    by apply (Hno l r). }
  unfold disconnectSender.
  destruct (receiversForSender st !! o) as [rs|] eqn:Hrs.
  2:{ assert (Hh := Hsame ltac:(by intros l r)). split_and!; [done..|by apply Hemit]. }
  case_decide as Hlen.
  { apply nil_length_inv in Hlen. subst rs.
    assert (Hh := Hsame ltac:(intros l r [= <-]; apply not_elem_of_nil)).
    split_and!; [done..|by apply Hemit]. }
  destruct (scheduleCleanup_fields (ReceiversOf o) (foldl clearToReceiver st rs))
    as (Hc1 & Hr1 & Hs1 & _).
  destruct (foldl_arrays clearToReceiver rs arrays_clearToReceiver st) as [Hr2 Hs2].
  assert (Hheap : connections (scheduleCleanup (ReceiversOf o) (foldl clearToReceiver st rs))
                  = clearWhere (λ s _, bool_decide (sender s = o)) (connections st)).
  { rewrite Hc1. apply (heap_clearWhere st _ _ rs (λ _, true)).
    - intros r. apply (lookup_foldl_clear clearToReceiver (λ _, true) rs step_clearToReceiver).
    - intros r c s Hc Hsig. rewrite bool_decide_eq_true.
      rewrite (live_in_receivers st r c s Hcons Hc Hsig o). split.
      + intros (l & Hl & Hin). rewrite Hrs in Hl. by injection Hl as <-.
      + intros [Hin _]. by exists rs. }
  split_and!; [done|congruence|congruence|by apply Hemit].
Qed.

(** X12. [disconnectReceiver] clears exactly the live connections whose
    receiver (the context, or the slot when there is no context) is the
    object, and leaves every array as it is. *)
Theorem disconnectReceiver_clears_the_receiver o st :
  consistent st →
  let st' := disconnectReceiver o st in
  connections st' = clearWhere (λ _ c, bool_decide (receiverOf c = o)) (connections st) ∧
  receiversForSender st' = receiversForSender st ∧
  sendersForReceiver st' = sendersForReceiver st.
Proof.
  intros Hcons. cbv zeta.
  assert (Hsame : (∀ l r, sendersForReceiver st !! o = Some l → r ∉ l) →
    connections st = clearWhere (λ _ c, bool_decide (receiverOf c = o)) (connections st)).
  { intros Hno. apply heap_unchanged. intros r c s Hc Hsig.
    apply bool_decide_eq_false. intros Hs.
    apply (live_in_senders st r c s Hcons Hc Hsig) in Hs as (l & Hl & Hin).
    by apply (Hno l r). }
  unfold disconnectReceiver.
  destruct (sendersForReceiver st !! o) as [ss|] eqn:Hss.
  2:{ assert (Hh := Hsame ltac:(by intros l r)). by split_and!. }
  case_decide as Hlen.
  { apply nil_length_inv in Hlen. subst ss.
    assert (Hh := Hsame ltac:(intros l r [= <-]; apply not_elem_of_nil)).
    by split_and!. }
  destruct (scheduleCleanup_fields (SendersOf o) (foldl clearFromSender st ss))
    as (Hc1 & Hr1 & Hs1 & _).
  destruct (foldl_arrays clearFromSender ss arrays_clearFromSender st) as [Hr2 Hs2].
  split_and!; [|congruence|congruence].
  rewrite Hc1. apply (heap_clearWhere st _ _ ss (λ _, true)).
  - intros r. apply (lookup_foldl_clear clearFromSender (λ _, true) ss step_clearFromSender).
  - intros r c s Hc Hsig. rewrite bool_decide_eq_true.
    rewrite (live_in_senders st r c s Hcons Hc Hsig o). split.
    + intros (l & Hl & Hin). rewrite Hss in Hl. by injection Hl as <-.
    + intros [Hin _]. by exists ss.
Qed.

(** X10. [disconnectBetween] clears exactly the live connections from the
    sender to the receiver and leaves every array as it is. *)
Theorem disconnectBetween_clears_the_pair o1 o2 st :
  consistent st →
  let st' := disconnectBetween o1 o2 st in
  connections st'
    = clearWhere (λ s c, bool_decide (sender s = o1) && bool_decide (receiverOf c = o2))
        (connections st) ∧
  receiversForSender st' = receiversForSender st ∧
  sendersForReceiver st' = sendersForReceiver st.
Proof.
  intros Hcons. cbv zeta.
  assert (Hsame :
    ((∀ l r, receiversForSender st !! o1 = Some l → r ∉ l) ∨
     (∀ l r, sendersForReceiver st !! o2 = Some l → r ∉ l)) →
    connections st
    = clearWhere (λ s c, bool_decide (sender s = o1) && bool_decide (receiverOf c = o2))
        (connections st)).
  { intros Hno. apply heap_unchanged. intros r c s Hc Hsig.
    apply andb_false_iff. destruct Hno as [Hno|Hno]; [left|right];
      apply bool_decide_eq_false; intros Hs.
    - apply (live_in_receivers st r c s Hcons Hc Hsig) in Hs as (l & Hl & Hin).
      by apply (Hno l r).
    - apply (live_in_senders st r c s Hcons Hc Hsig) in Hs as (l & Hl & Hin).
      by apply (Hno l r). }
  unfold disconnectBetween.
  destruct (receiversForSender st !! o1) as [rs|] eqn:Hrs.
  2:{ assert (Hh := Hsame ltac:(left; by intros l r)). by split_and!. }
  case_decide as Hlen.
  { apply nil_length_inv in Hlen. subst rs.
    assert (Hh := Hsame ltac:(left; intros l r [= <-]; apply not_elem_of_nil)).
    by split_and!. }
  destruct (sendersForReceiver st !! o2) as [ss|] eqn:Hss.
  2:{ assert (Hh := Hsame ltac:(right; by intros l r)). by split_and!. }
  case_decide as Hlen2.
  { apply nil_length_inv in Hlen2. subst ss.
    assert (Hh := Hsame ltac:(right; intros l r [= <-]; apply not_elem_of_nil)).
    by split_and!. }
  set (st1 := foldl (clearIfFrom o1) st ss).
  destruct (scheduleCleanup_fields (SendersOf o2) (scheduleCleanup (ReceiversOf o1) st1))
    as (Hc1 & Hr1 & Hs1 & _).
  destruct (scheduleCleanup_fields (ReceiversOf o1) st1) as (Hc2 & Hr2 & Hs2 & _).
  destruct (foldl_arrays (clearIfFrom o1) ss (arrays_clearIfFrom o1) st) as [Hr3 Hs3].
  fold st1 in Hr3, Hs3.
  split_and!; [|congruence|congruence].
  rewrite Hc1, Hc2.
  apply (heap_clearWhere st _ _ ss
           (λ c, match signal c with
                 | Some s => bool_decide (sender s = o1)
                 | None => false
                 end)).
  - intros r. apply (lookup_foldl_clear (clearIfFrom o1) _ ss (step_clearIfFrom o1)).
  - intros r c s Hc Hsig. rewrite Hsig, andb_true_iff, !bool_decide_eq_true.
    rewrite (live_in_senders st r c s Hcons Hc Hsig o2). split.
    + intros (Hs & l & Hl & Hin). rewrite Hss in Hl. by injection Hl as <-.
    + intros [Hin Hs]. split; [done|]. by exists ss.
Qed.

(** X13. [disconnectAll], which is also [Signal.clearData], clears exactly
    the live connections that the object sends or receives and leaves every
    array as it is; an [emit] of a signal of the object then calls no
    slot. *)
Theorem disconnectAll_clears_both o st :
  consistent st →
  let st' := disconnectAll o st in
  connections st'
    = clearWhere (λ s c, bool_decide (sender s = o) || bool_decide (receiverOf c = o))
        (connections st) ∧
  receiversForSender st' = receiversForSender st ∧
  sendersForReceiver st' = sendersForReceiver st ∧
  ∀ depth s args, sender s = o →
    emit slotBody handlerBody (S depth) s args st' = Some (Returned, st', []).
Proof.
  intros Hcons. cbv zeta.
  assert (Hemit : ∀ st',
    connections st'
    = clearWhere (λ s c, bool_decide (sender s = o) || bool_decide (receiverOf c = o))
        (connections st) →
    ∀ depth s args, sender s = o → emit slotBody handlerBody (S depth) s args st' = Some (Returned, st', [])).
  { intros st' Hheap depth s args Hs. apply emit_nothing. intros l r _ _ Hsig.
    destruct (signalOf_clearWhere _ st st' r s Hheap Hsig) as (c & _ & _ & Hp).
    by rewrite bool_decide_eq_true_2 in Hp. }
  set (rs := default [] (receiversForSender st !! o)).
  set (ss := default [] (sendersForReceiver st !! o)).
  assert (Hwipe : ∀ st0 l,
    receiversForSender (foldl (λ (acc : Registry U) r, clear r acc) st0 l) = receiversForSender st0 ∧
    sendersForReceiver (foldl (λ (acc : Registry U) r, clear r acc) st0 l) = sendersForReceiver st0 ∧
    ∀ r, connections (foldl (λ (acc : Registry U) r, clear r acc) st0 l) !! r
         = if decide (r ∈ l) then cleared <$> connections st0 !! r
           else connections st0 !! r).
  { intros st0 l.
    destruct (foldl_arrays (λ acc r, clear r acc) l (λ st r, arrays_clear st r) st0)
      as [H1 H2].
    split_and!; [done..|]. intros r.
    apply (lookup_foldl_clear (λ acc r, clear r acc) (λ _, true)).
    intros st2 r1 r2. apply step_clear. }
  assert (Hfirst : ∃ st1,
    match receiversForSender st !! o with
    | Some receivers =>
        if decide (length receivers = 0) then st
        else scheduleCleanup (ReceiversOf o) (foldl (λ (acc : Registry U) r, clear r acc) st receivers)
    | None => st
    end = st1 ∧
    receiversForSender st1 = receiversForSender st ∧
    sendersForReceiver st1 = sendersForReceiver st ∧
    ∀ r, connections st1 !! r
         = if decide (r ∈ rs) then cleared <$> connections st !! r
           else connections st !! r).
  { eexists. split; [done|]. subst rs.
    destruct (receiversForSender st !! o) as [l|]; simpl.
    - case_decide as Hlen.
      + apply nil_length_inv in Hlen. subst l. by split_and!.
      + destruct (scheduleCleanup_fields (ReceiversOf o) (foldl (λ (acc : Registry U) r, clear r acc) st l)) as (-> & -> & -> & _).
        apply Hwipe.
    - by split_and!. }
  destruct Hfirst as (st1 & Hst1 & Hr1 & Hs1 & Hh1).
  unfold disconnectAll. cbv zeta. rewrite Hst1.
  assert (Hsecond : ∃ st2,
    match sendersForReceiver st1 !! o with
    | Some senders =>
        if decide (length senders = 0) then st1
        else scheduleCleanup (SendersOf o) (foldl (λ (acc : Registry U) r, clear r acc) st1 senders)
    | None => st1
    end = st2 ∧
    receiversForSender st2 = receiversForSender st1 ∧
    sendersForReceiver st2 = sendersForReceiver st1 ∧
    ∀ r, connections st2 !! r
         = if decide (r ∈ ss) then cleared <$> connections st1 !! r
           else connections st1 !! r).
  { eexists. split; [done|]. subst ss. rewrite <- Hs1.
    destruct (sendersForReceiver st1 !! o) as [l|]; simpl.
    - case_decide as Hlen.
      + apply nil_length_inv in Hlen. subst l. by split_and!.
      + destruct (scheduleCleanup_fields (SendersOf o) (foldl (λ (acc : Registry U) r, clear r acc) st1 l)) as (-> & -> & -> & _).
        apply Hwipe.
    - by split_and!. }
  destruct Hsecond as (st2 & -> & Hr2 & Hs2 & Hh2).
  assert (Hheap : connections st2
    = clearWhere (λ s c, bool_decide (sender s = o) || bool_decide (receiverOf c = o))
        (connections st)).
  { apply (heap_clearWhere st st2 _ (rs ++ ss) (λ _, true)).
    - intros r. rewrite Hh2, Hh1.
      destruct (decide (r ∈ rs)) as [Hin1|Hin1], (decide (r ∈ ss)) as [Hin2|Hin2].
      + rewrite decide_True by (apply elem_of_app; by left).
        destruct (connections st !! r) as [c|]; [|done]. done.
      + by rewrite decide_True by (apply elem_of_app; by left).
      + by rewrite decide_True by (apply elem_of_app; by right).
      + rewrite decide_False; [done|]. rewrite elem_of_app. tauto.
    - intros r c s Hc Hsig. rewrite orb_true_iff, !bool_decide_eq_true, elem_of_app.
      rewrite (live_in_receivers st r c s Hcons Hc Hsig o).
      rewrite (live_in_senders st r c s Hcons Hc Hsig o). subst rs ss. split.
      + intros [(l & Hl & Hin)|(l & Hl & Hin)]; rewrite Hl; simpl; tauto.
      + intros [[Hin|Hin] _]; [left|right].
        * destruct (receiversForSender st !! o) as [l|]; [by exists l|].
          by apply elem_of_nil in Hin.
        * destruct (sendersForReceiver st !! o) as [l|]; [by exists l|].
          by apply elem_of_nil in Hin. }
  split_and!; [done|congruence|congruence|by apply Hemit].
Qed.

(** *** The invariants, the cleanup and [emit] *)

(** X5. The two indexes and the connection objects stay consistent: if
    every index names a connection object, every live connection is held by
    the receivers array of its sender and by the senders array of its
    receiver and by no other array, and no receivers array holds a binding
    twice, then the same holds after any client program, whatever the
    slots and the exception handlers do and however the program ends, and
    after the cleanup that the host runs. *)
Theorem indexes_stay_consistent depth (p : Prog U) st o st' :
  consistent st → exec slotBody handlerBody depth p st = Some (o, st') →
  consistent st' ∧ consistent (runCleanup st').
Proof.
  intros Hc He. assert (consistent st') as Hc' by by eapply exec_consistent.
  split; [done|]. by apply consistent_runCleanup.
Qed.

(** X6. The registry never cancels its cleaner, so after any client
    program, whatever the slots and the exception handlers do and however
    the program ends, the host holds exactly one callback of the cleaner if
    an array is registered for cleanup and none otherwise; once the host has
    run the callback nothing is registered and nothing is pending. *)
Theorem registry_keeps_one_callback depth (p : Prog U) st o st' :
  settled st → exec slotBody handlerBody depth p st = Some (o, st') →
  scheduled CleanupTask (host st')
    = (if decide (dirtySet (connectionCleaner st') = []) then 0 else 1) ∧
  dirtySet (connectionCleaner (runCleanup st')) = [] ∧
  pending (host (runCleanup st')) = [].
Proof.
  intros Hs He. assert (settled st') as Hs' by by eapply exec_settled.
  split.
  - unfold scheduled. rewrite Hs'. case_decide; [done|]. by rewrite filter_cons_True.
  - destruct (runCleanup_cases st' Hs') as [[Hd ->]|(_ & _ & Hds & Hp & _)]; [|done].
    split; [done|]. unfold settled in Hs'. by rewrite Hs', decide_True.
Qed.

(** X7. The cleanup that the host runs removes the cleared connections, and
    nothing else, from the arrays that are registered, keeps the order of
    the others, and leaves the connection objects and the other arrays as
    they are: the connections that an [emit] finds live in the receivers
    array of a sender are the same before and after. *)
Theorem cleanup_removes_cleared_connections st :
  settled st →
  let st' := runCleanup st in
  connections st' = connections st ∧
  (∀ a, array st' a
        = if decide (a ∈ dirtySet (connectionCleaner st))
          then filter (λ r, isDeadConnection (connections st) r = false) <$> array st a
          else array st a) ∧
  (∀ o s, audience st' s (default [] (receiversForSender st' !! o))
          = audience st s (default [] (receiversForSender st !! o))).
Proof.
  intros Hs. cbv zeta.
  destruct (runCleanup_cases st Hs) as [[Hd ->]|(Hd & Hheap & _ & _ & Harr)].
  { split_and!; [done| |done]. intros a. by rewrite Hd, decide_False by apply not_elem_of_nil. }
  split_and!; [done..|]. intros o s. specialize (Harr (ReceiversOf o)). simpl in Harr.
  rewrite Harr. unfold audience, signalOf. rewrite Hheap.
  case_decide; [|done]. destruct (receiversForSender st !! o) as [l|]; [|done]. simpl.
  rewrite list_filter_filter. apply list_filter_iff. intros r. split; [tauto|].
  intros Hsig. split; [done|]. unfold isDeadConnection.
  destruct (connections st !! r) as [c|]; [|done]. simpl in Hsig.
  apply bool_decide_eq_false. congruence.
Qed.

(** X8. When neither the client nor a slot nor an exception handler calls
    [disconnectAll], every array that holds a cleared connection is
    registered with the cleaner, so that after the cleanup that the host
    runs no array holds a cleared connection. *)
Theorem cleanup_leaves_no_cleared_connection depth (p : Prog U) st o st' :
  (∀ sl ctx x args, selective (slotBody sl ctx x args)) →
  (∀ eh e, selective (handlerBody eh e)) → selective p →
  consistent st → settled st → tidy st →
  exec slotBody handlerBody depth p st = Some (o, st') →
  tidy st' ∧ compact (runCleanup st').
Proof.
  intros Hslots Hhandlers Hp Hc Hs Ht He.
  destruct (exec_tidy depth p st o st' Hslots Hhandlers Hp Hc Ht He) as [Hc' Ht'].
  assert (settled st') as Hs' by by eapply exec_settled.
  split; [done|].
  assert (Hclean : ∀ a l r, array st' a = Some l → r ∈ l →
            a ∉ dirtySet (connectionCleaner st') →
            isDeadConnection (connections st') r = false).
  { intros a l r Hl Hin Ha.
    destruct (isDeadConnection (connections st') r) eqn:Hd; [|done].
    destruct (Ht' a l r Hl Hin Hd) as [?|Hnil]; [done|by apply elem_of_nil in Hnil]. }
  destruct (runCleanup_cases st' Hs') as [[Hd ->]|(Hd & Hheap & _ & _ & Harr)].
  - intros a l r Hl Hin. apply (Hclean a l r Hl Hin). rewrite Hd. apply not_elem_of_nil.
  - intros a l r. rewrite Harr, Hheap. case_decide as Ha.
    + destruct (array st' a) as [l0|]; [|done]. simpl. intros [= <-].
      rewrite list_elem_of_filter. tauto.
    + intros Hl Hin. by apply (Hclean a l r Hl Hin).
Qed.

Lemma pending_scheduleCleanup a st :
  ∃ more, pending (host (scheduleCleanup a st)) = pending (host st) ++ more.
Proof.
  unfold scheduleCleanup, clean. case_decide; simpl.
  - by eexists.
  - exists []. by rewrite app_nil_r.
Qed.

(** X14. Compaction is deferred: while [emit] runs, whatever the slots and
    the exception handlers do and however [emit] ends, no array loses or
    moves an entry (arrays only grow at the end), the slot and the context
    of a connection object stay as they are, its signal is at most cleared,
    and no callback that the host holds is run. *)
Theorem emit_leaves_entries_in_place depth s args st fin st' d :
  emit slotBody handlerBody depth s args st = Some (fin, st', d) →
  (∀ o l, receiversForSender st !! o = Some l →
     ∃ l', receiversForSender st' !! o = Some (l ++ l')) ∧
  (∀ o l, sendersForReceiver st !! o = Some l →
     ∃ l', sendersForReceiver st' !! o = Some (l ++ l')) ∧
  (∀ r c, connections st !! r = Some c →
     ∃ c', connections st' !! r = Some c' ∧ slot c' = slot c ∧ context c' = context c ∧
           (signal c' = signal c ∨ signal c' = None)) ∧
  ∃ more, pending (host st') = pending (host st) ++ more.
Proof.
  intros He. destruct (preserving_emit slotBody handlerBody depth s args st fin st' d He)
    as [Hconn Hrec Hsend _ _].
  split_and!; [done..|].
  set (Inv := λ st1 : Registry U, ∃ more, pending (host st1) = pending (host st) ++ more).
  assert (Hclear : ∀ r st1, Inv st1 → Inv (clear r st1)).
  { intros r st1. unfold Inv. destruct (clear_fields r st1) as (_ & _ & _ & ->). done. }
  assert (Hsched : ∀ a st1, Inv st1 → Inv (scheduleCleanup a st1)).
  { intros a st1 [more Hm]. destruct (pending_scheduleCleanup a st1) as [more' Hm'].
    exists (more ++ more'). by rewrite Hm', Hm, app_assoc. }
  apply (emit_keeps Inv false) with (depth := depth) (s := s) (args := args) (st := st)
    (fin := fin) (d := d); try done.
  - intros s0 sl ctx st1 [more Hm].
    destruct (connect_cases s0 sl ctx st1) as [(r & _ & ->)|Hf]; [by exists more|].
    destruct (connect_fresh s0 sl ctx st1 Hf) as (st2 & -> & _ & _ & _ & _ & _ & _ & _ & Hh).
    exists more. simpl. by rewrite Hh.
  - intros s0 sl ctx. by apply disconnect_keeps.
  - intros o1 o2. by apply disconnectBetween_keeps.
  - intros x. by apply disconnectSender_keeps.
  - intros x. by apply disconnectReceiver_keeps.
  - intros _ x. by apply disconnectAll_keeps.
  - intros st1 st2 _ _ _ _ Hh [more Hm]. exists more. by rewrite Hh.
  - exists []. by rewrite app_nil_r.
Qed.
End Registry.

(** *** The scenarios of the test suite *)
Section Tests.
Import SignalingTests WiringTests.

Lemma body_selective sl ctx o a : selective (body sl ctx o a).
Proof. unfold body. repeat case_decide; repeat constructor. Qed.

Lemma onError_selective eh e : selective (onError eh e).
Proof. unfold onError. case_decide; constructor. Qed.

Lemma after_consistent (p : Prog Names) : consistent (after p).
Proof.
  unfold after. destruct (exec body onError 1 p (initial [])) as [[o st]|] eqn:He.
  - eapply exec_consistent; [apply consistent_initial|exact He].
  - apply consistent_initial.
Qed.

Lemma after_settled (p : Prog Names) : settled (after p).
Proof.
  unfold after. destruct (exec body onError 1 p (initial [])) as [[o st]|] eqn:He.
  - eapply exec_settled; [apply settled_initial|exact He].
  - apply settled_initial.
Qed.

(** The client of 'should handle connect after disconnect and emit'. *)
Lemma indexes_stay_consistent_witness :
  consistent (initial ([] : Names)) ∧
  exec body onError 1 rewire (initial []) = Some (Returned, rewired) ∧
  consistent rewired ∧ consistent (runCleanup rewired).
Proof.
  split; [apply consistent_initial|]. split; [vm_compute; reflexivity|].
  apply (indexes_stay_consistent body onError 1 rewire (initial []) Returned rewired).
  - apply consistent_initial.
  - vm_compute. reflexivity.
Defined.

(** After the same client two arrays are registered and one callback is
    pending. *)
Lemma registry_keeps_one_callback_witness :
  dirtySet (connectionCleaner rewired) = [ReceiversOf obj; SendersOf handler2] ∧
  pending (host rewired) = [(1, CleanupTask)] ∧
  scheduled CleanupTask (host rewired) = 1 ∧
  dirtySet (connectionCleaner (runCleanup rewired)) = [] ∧
  pending (host (runCleanup rewired)) = [].
Proof.
  do 2 (split; [reflexivity|]).
  apply (registry_keeps_one_callback body onError 1 rewire (initial []) Returned rewired).
  - reflexivity.
  - vm_compute. reflexivity.
Defined.

(** The cleanup after the same client: the cleared connection [1] leaves
    the two arrays that hold it. *)
Lemma cleanup_removes_cleared_connections_witness :
  receiversForSender rewired !! obj = Some [0; 1; 2] ∧
  signalOf rewired 1 = None ∧
  receiversForSender (runCleanup rewired) !! obj = Some [0; 2] ∧
  sendersForReceiver (runCleanup rewired) !! handler2 = Some [] ∧
  connections (runCleanup rewired) = connections rewired ∧
  audience (runCleanup rewired) three [0; 2] = audience rewired three [0; 1; 2].
Proof.
  do 4 (split; [vm_compute; reflexivity|]).
  destruct (cleanup_removes_cleared_connections body onError rewired (after_settled rewire))
    as (Hheap & _ & Haud).
  split; [exact Hheap|]. apply (Haud obj three).
Defined.

Lemma cleanup_leaves_no_cleared_connection_witness :
  tidy rewired ∧ compact (runCleanup rewired).
Proof.
  apply (cleanup_leaves_no_cleared_connection body onError 1 rewire (initial []) Returned rewired).
  - apply body_selective.
  - apply onError_selective.
  - repeat constructor.
  - apply consistent_initial.
  - reflexivity.
  - apply tidy_initial.
  - vm_compute. reflexivity.
Defined.

(** 'should return true on success' and 'should return false on failure'
    of [disconnect]. *)
Lemma disconnect_clears_the_binding_witness :
  (disconnect one onOne (Some handler1) connected_once).1 = true ∧
  signalOf (disconnect one onOne (Some handler1) connected_once).2 0 = None ∧
  (connect one onOne (Some handler1)
     (disconnect one onOne (Some handler1) connected_once).2).1 = true ∧
  (disconnect one onThrow (Some handler1) connected_once).2 = connected_once.
Proof.
  pose proof (disconnect_clears_the_binding body onError one onOne (Some handler1) connected_once
                (after_consistent (Connect one onOne (Some handler1) (λ _, Return))))
    as (Hb & _ & Hheap & _ & _ & Hre).
  pose proof (disconnect_clears_the_binding body onError one onThrow (Some handler1) connected_once
                (after_consistent (Connect one onOne (Some handler1) (λ _, Return))))
    as (_ & Hfalse & _).
  assert ((disconnect one onOne (Some handler1) connected_once).1 = true) as Htrue.
  { apply Hb. eexists 0, _. split; reflexivity. }
  split_and!; [exact Htrue| |by apply Hre|by apply Hfalse].
  unfold signalOf. rewrite Hheap. reflexivity.
Defined.

(** 'should clear all connections between a sender and receiver' *)
Lemma disconnectBetween_clears_the_pair_witness :
  signalOf (disconnectBetween obj handler1 connected_pairs) <$> [0; 1; 2; 3]
  = [None; Some one; None; Some two].
Proof.
  destruct (disconnectBetween_clears_the_pair body onError obj handler1 connected_pairs
              (after_consistent (Connect one onOne (Some handler1) (λ _,
                 Connect one onOne (Some handler2) (λ _,
                 Connect two onTwo (Some handler1) (λ _,
                 Connect two onTwo (Some handler2) (λ _, Return)))))))
    as (Hheap & _ & _).
  unfold signalOf. rewrite Hheap. reflexivity.
Defined.

(** 'should disconnect all signals from a specific sender' *)
Lemma disconnectSender_clears_the_sender_witness :
  signalOf (disconnectSender obj two_senders) <$> [0; 1; 2; 3; 4; 5]
  = [None; None; Some one2; Some one2; Some two2; Some two2] ∧
  emit body onError 1 one 0 (disconnectSender obj two_senders)
  = Some (Returned, disconnectSender obj two_senders, []).
Proof.
  destruct (disconnectSender_clears_the_sender body onError obj two_senders
              (after_consistent wire_two_senders)) as (Hheap & _ & _ & Hemit).
  split; [|by apply Hemit]. unfold signalOf. rewrite Hheap. reflexivity.
Defined.

(** 'should disconnect all signals from a specific receiver' *)
Lemma disconnectReceiver_clears_the_receiver_witness :
  signalOf (disconnectReceiver handler1 two_senders) <$> [0; 1; 2; 3; 4; 5]
  = [None; Some one; None; Some one2; None; Some two2].
Proof.
  destruct (disconnectReceiver_clears_the_receiver body onError handler1 two_senders
              (after_consistent wire_two_senders)) as (Hheap & _ & _).
  unfold signalOf. rewrite Hheap. reflexivity.
Defined.

(** 'should clear all connections for an object' *)
Lemma disconnectAll_clears_both_witness :
  signalOf (disconnectAll ext1 connected_ext) <$> [0; 1; 2; 3; 4; 5]
  = [None; None; None; None; Some ext2_one; Some ext2_one] ∧
  emit body onError 1 ext1_one 0 (disconnectAll ext1 connected_ext)
  = Some (Returned, disconnectAll ext1 connected_ext, []).
Proof.
  destruct (disconnectAll_clears_both body onError ext1 connected_ext
              (after_consistent (Connect ext1_one onNotify (Some ext1) (λ _,
                 Connect ext1_one onNotify (Some ext2) (λ _,
                 Connect ext1_one onCount None (λ _,
                 Connect ext2_one onNotify (Some ext1) (λ _,
                 Connect ext2_one onNotify (Some ext2) (λ _,
                 Connect ext2_one onCount None (λ _, Return)))))))))
    as (Hheap & _ & _ & Hemit).
  split; [|by apply Hemit]. unfold signalOf. rewrite Hheap. reflexivity.
Defined.

(** [adder.add] connects while [three] is emitted: the array of [obj] gets
    the new connection at its end. *)
Lemma emit_leaves_entries_in_place_witness :
  ∃ st' d,
    emit body onError 1 three 0 connected_with_adder = Some (Returned, st', d) ∧
    receiversForSender connected_with_adder !! obj = Some [0; 1; 2] ∧
    (∃ l', receiversForSender st' !! obj = Some ([0; 1; 2] ++ l')) ∧
    ∃ more, pending (host st') = pending (host connected_with_adder) ++ more.
Proof.
  eexists _, _. split; [vm_compute; reflexivity|]. split; [reflexivity|].
  destruct (emit_leaves_entries_in_place body onError 1 three 0 connected_with_adder _ _ _
              eq_refl)
    as (Hrec & _ & _ & Hpend).
  split; [|exact Hpend]. by apply Hrec.
Defined.
End Tests.

End WiringLaws.

(** ** The message loop at work *)
Module LoopingLaws.
Import Schedule Messaging Conflatable Looping MessagingFacts.

Section Loop.
Context {U : Type}.
Variable conflate : Message → Message → bool * Message.
Variable processMessage : Obj → Message → Prog U unit.
Variable messageHook : Obj → Obj → Message → Prog U bool.
Variable handlerBody : Obj → Err → Prog U unit.

Implicit Types (st : Loop U) (h hook : Obj) (m : Message) (hooks : list (option Obj)).

(** *** Conflatable messages *)

Lemma with_queue_same st : with_queue (messageQueue st) st = st.
Proof. by destruct st. Qed.

Lemma conflateSome_accepted h m q :
  accepted conflate h m q →
  (conflateSome conflate h m q).1 = (existsb (candidate h (type m)) q, q).
Proof.
  induction q as [|posted q IH]; intros Hq; [done|]. simpl.
  assert (Hq' : accepted conflate h m q).
  { intros posted' pm Hin. apply Hq. by right. }
  specialize (IH Hq').
  destruct (conflateSome conflate h m q) as [[b q'] calls].
  simpl in IH. injection IH as -> ->.
  pose proof (Hq posted) as Hhead.
  destruct posted as [i ho mo]. unfold candidate in Hhead |- *. simpl in Hhead |- *.
  destruct (decide (ho ≠ Some h)) as [Hh|Hh].
  { destruct ho as [h'|], mo as [pm|]; simpl; try done.
    rewrite bool_decide_eq_false_2; [done|]. congruence. }
  assert (ho = Some h) as -> by (by destruct (decide (ho = Some h))).
  destruct mo as [pm|]; simpl; [|done].
  rewrite bool_decide_eq_true_2 in Hhead by done.
  rewrite bool_decide_eq_true_2 by done. simpl.
  destruct (decide (type pm ≠ type m)) as [Ht|Ht].
  { by rewrite bool_decide_eq_false_2. }
  assert (type pm = type m) as Ht' by (by destruct (decide (type pm = type m))).
  rewrite bool_decide_eq_true_2 in Hhead by done.
  rewrite bool_decide_eq_true_2 by done. simpl.
  destruct (isConflatable pm); simpl; [|done].
  by rewrite (Hhead pm ltac:(left) eq_refl eq_refl).
Qed.

Lemma post_conflatable h t st :
  accepted conflate h (ConflatableMessage t) (messageQueue st) →
  let st' := postMessage conflate h (ConflatableMessage t) st in
  (existsb (candidate h t) (messageQueue st) = true → st' = st) ∧
  (existsb (candidate h t) (messageQueue st) = false →
     st' = enqueueMessage h (ConflatableMessage t) st).
Proof.
  intros Hq. cbv zeta. unfold postMessage. simpl.
  pose proof (conflateSome_accepted h (ConflatableMessage t) (messageQueue st) Hq) as Hc.
  destruct (conflateSome _ _ _ _) as [[b q] calls]. simpl in Hc.
  injection Hc as -> ->. rewrite with_queue_same.
  split; by intros ->.
Qed.

(** X15. A [ConflatableMessage] is posted to a handler whose queued
    conflatable messages of the same type are instances of
    [ConflatableMessage] too: what decides is the [conflate] of the queued
    message, and the one of the class answers [true] and changes nothing.
    The message is dropped when the queue holds a conflatable message of the
    same type for that handler that is not cleared, and is put at the end of
    the queue otherwise; so posting it any number of times leaves the loop
    as posting it once. *)
Theorem conflatable_messages_collapse h (t : string) st (n : nat) :
  let m := ConflatableMessage t in
  let post := postMessage conflate h m in
  accepted conflate h m (messageQueue st) →
  conflate m m = Conflatable.conflate m m →
  (existsb (candidate h t) (messageQueue st) = true → post st = st) ∧
  (existsb (candidate h t) (messageQueue st) = false →
     messageQueue (post st)
     = messageQueue st ++ [{| ident := allocated st; handler := Some h; msg := Some m |}]) ∧
  postAll conflate (replicate (S n) (h, m)) st = post st.
Proof.
  cbv zeta. intros Hq Hm. destruct (post_conflatable h t st Hq) as [Hyes Hno]. split_and!.
  - exact Hyes.
  - intros Hnone. rewrite (Hno Hnone). apply enqueueMessage_queue.
  - assert (Hthere :
      existsb (candidate h t)
        (messageQueue (postMessage conflate h (ConflatableMessage t) st)) = true ∧
      accepted conflate h (ConflatableMessage t)
        (messageQueue (postMessage conflate h (ConflatableMessage t) st))).
    { destruct (existsb (candidate h t) (messageQueue st)) eqn:He.
      - by rewrite (Hyes eq_refl).
      - rewrite (Hno eq_refl), enqueueMessage_queue, existsb_app. simpl.
        unfold candidate at 2. simpl. rewrite !bool_decide_eq_true_2 by done.
        split; [apply orb_true_r|].
        intros posted pm [Hin|Hin%list_elem_of_singleton]%elem_of_app.
        + by apply Hq.
        + subst posted. simpl. by intros _ [= <-]. }
    simpl. unfold postAll. simpl. clear Hyes Hno.
    generalize dependent (postMessage conflate h (ConflatableMessage t) st).
    intros st1 [Hst1 Hq1]. induction n as [|n IH]; [done|]. simpl.
    destruct (post_conflatable h t st1 Hq1) as [-> _]; done.
Qed.

(** *** The hooks of a handler *)

Lemma chain_app hooks1 hooks2 : chain (hooks1 ++ hooks2) = chain hooks2 ++ chain hooks1.
Proof. unfold chain. by rewrite reverse_app, omap_app. Qed.

Lemma chain_cons_None hooks : chain (None :: hooks) = chain hooks.
Proof. unfold chain. rewrite reverse_cons, omap_app. simpl. by rewrite app_nil_r. Qed.

Lemma chain_cons_Some hook hooks : chain (Some hook :: hooks) = chain hooks ++ [hook].
Proof. unfold chain. by rewrite reverse_cons, omap_app. Qed.

Lemma indexOf_Some hook hooks i :
  indexOf hook hooks = Some i →
  ∃ hooks1 hooks2, hooks = hooks1 ++ Some hook :: hooks2 ∧ length hooks1 = i ∧
                   Some hook ∉ hooks1.
Proof.
  unfold indexOf. intros Hf. apply fmap_Some in Hf as ([j x] & Hf & ->). simpl.
  apply list_find_Some in Hf as (Hj & -> & Hbefore).
  exists (take j hooks), (drop (S j) hooks). split_and!.
  - by rewrite <- (take_drop_middle hooks j (Some hook)) at 1.
  - rewrite length_take. apply lookup_lt_Some in Hj. lia.
  - intros Hin. apply list_elem_of_lookup in Hin as (k & Hk).
    apply lookup_take_Some in Hk as [Hk Hlt]. by apply (Hbefore k (Some hook)).
Qed.

Lemma insert_None_chain hooks1 hook hooks2 :
  <[length hooks1 := None]> (hooks1 ++ Some hook :: hooks2) = hooks1 ++ None :: hooks2.
Proof.
  rewrite insert_app_r_alt by lia. by rewrite Nat.sub_diag.
Qed.

Lemma filter_absent (x : Obj) (l : list Obj) : x ∉ l → filter (λ y, y ≠ x) l = l.
Proof.
  intros Hx. induction l as [|y l IH]; [done|].
  rewrite filter_cons_True by (intros ->; apply Hx; left).
  f_equal. apply IH. intros Hin. apply Hx. by right.
Qed.

(** X16. [installMessageHook] changes nothing when the hook is installed
    for the handler; otherwise the hook becomes the first of the chain of
    the handler, in front of the others in their order. The hooks of other
    handlers stay as they are, and a second call for the same hook does
    nothing. *)
Theorem installMessageHook_puts_first h hook st :
  let st' := installMessageHook h hook st in
  (hook ∈ chainOf st h → st' = st) ∧
  (hook ∉ chainOf st h → chainOf st' h = hook :: chainOf st h) ∧
  (∀ h', h' ≠ h → messageHooks st' !! h' = messageHooks st !! h') ∧
  installMessageHook h hook st' = st'.
Proof.
  cbv zeta.
  assert (Hin : ∀ st0, hook ∈ chainOf st0 h → installMessageHook h hook st0 = st0).
  { intros st0. unfold chainOf. rewrite chain_elem. unfold installMessageHook.
    destruct (messageHooks st0 !! h) as [hooks|]; simpl.
    - intros Hin. destruct (indexOf hook hooks) eqn:Hi; [done|].
      by apply indexOf_None in Hi.
    - intros Hin. by apply elem_of_nil in Hin. }
  assert (Hout : hook ∉ chainOf st h →
            chainOf (installMessageHook h hook st) h = hook :: chainOf st h).
  { unfold chainOf. rewrite chain_elem. apply installMessageHook_chain. }
  split_and!; [apply Hin|exact Hout| |].
  - intros h' Hne. unfold installMessageHook.
    destruct (messageHooks st !! h) as [hooks|]; simpl.
    + destruct (indexOf hook hooks); [done|]. simpl. by rewrite lookup_insert_ne.
    + by rewrite lookup_insert_ne.
  - apply Hin. destruct (decide (hook ∈ chainOf st h)) as [Hh|Hh].
    + by rewrite (Hin st Hh).
    + rewrite (Hout Hh). left.
Qed.

(** X17. [removeMessageHook] takes the hook out of the chain of the handler
    and leaves the other hooks in their order; the array keeps its length,
    the place of the hook being cleared, and is registered with the
    cleaner. When the hook is not installed for the handler the call
    changes nothing. *)
Theorem removeMessageHook_takes_out h hook st :
  NoDup (chainOf st h) →
  let st' := removeMessageHook h hook st in
  chainOf st' h = filter (λ x, x ≠ hook) (chainOf st h) ∧
  (hook ∉ chainOf st h → st' = st) ∧
  (hook ∈ chainOf st h →
     h ∈ dirtySet (hookCleaner st') ∧
     length (default [] (messageHooks st' !! h))
     = length (default [] (messageHooks st !! h))) ∧
  (∀ h', h' ≠ h → messageHooks st' !! h' = messageHooks st !! h') ∧
  messageQueue st' = messageQueue st.
Proof.
  intros Hnd. cbv zeta. unfold chainOf in *. unfold removeMessageHook.
  destruct (messageHooks st !! h) as [hooks|] eqn:Hh; simpl in *.
  2:{ rewrite Hh. simpl. split_and!; try done. intros Hin. by apply elem_of_nil in Hin. }
  destruct (indexOf hook hooks) as [i|] eqn:Hi.
  2:{ rewrite Hh. simpl. apply indexOf_None in Hi.
      assert (hook ∉ chain hooks) as Hout by by rewrite chain_elem.
      split_and!; try done. by rewrite filter_absent. }
  apply indexOf_Some in Hi as (hooks1 & hooks2 & -> & <- & Hfirst).
  rewrite insert_None_chain.
  rewrite chain_app, chain_cons_Some in Hnd.
  apply NoDup_app in Hnd as (Hnd2 & Hdisj & Hnd1).
  apply NoDup_app in Hnd2 as (_ & Hnot2 & _).
  assert (hook ∉ chain hooks2) as Hout2.
  { intros Hin. apply (Hnot2 hook Hin). left. }
  assert (hook ∉ chain hooks1) as Hout1 by by rewrite chain_elem.
  unfold cleanHooks, clean. simpl.
  assert (Hlook : ∀ (c : ScheduledCleaner Obj) (s : Scheduler Task) st0,
    messageHooks (with_cleaner c s st0) = messageHooks st0) by done.
  split_and!.
  - case_decide; simpl; rewrite lookup_insert_eq; simpl;
      rewrite !chain_app, chain_cons_None, chain_cons_Some, !filter_app;
      rewrite (filter_absent hook (chain hooks2)), (filter_absent hook (chain hooks1)) by done.
    all: rewrite filter_cons_False by (intros Hne; by apply Hne).
    all: by rewrite filter_nil, app_nil_r.
  - intros Hnot. exfalso. apply Hnot. rewrite chain_app, chain_cons_Some.
    apply elem_of_app. left. apply elem_of_app. right. left.
  - intros _. split.
    + case_decide; simpl.
      * unfold set_add. case_decide; [done|]. apply elem_of_app. right. left.
      * unfold set_add. case_decide; [done|]. apply elem_of_app. right. left.
    + case_decide; simpl; rewrite lookup_insert_eq; simpl; by rewrite !length_app.
  - intros h' Hne. case_decide; simpl; by rewrite lookup_insert_ne.
  - by case_decide.
Qed.

(** *** [clearData] *)

Lemma chain_replicate_None n : chain (replicate n None) = [].
Proof.
  induction n as [|n IH]; [done|]. simpl. by rewrite chain_cons_None.
Qed.

Lemma filter_uncleared_clearPosted h (q : list PostedMessage) :
  filter (λ p, uncleared p = true) (clearPosted h <$> q)
  = filter (λ p, uncleared p = true ∧ handler p ≠ Some h) q.
Proof.
  induction q as [|posted q IH]; [done|]. rewrite fmap_cons.
  destruct (decide (handler posted = Some h)) as [Heq|Hne].
  - assert (clearPosted h posted
            = {| ident := ident posted; handler := None; msg := None |}) as ->.
    { unfold clearPosted. by rewrite decide_True. }
    rewrite filter_cons_False by done.
    rewrite (filter_cons_False _ posted) by tauto. exact IH.
  - assert (clearPosted h posted = posted) as ->.
    { unfold clearPosted. by rewrite decide_False. }
    rewrite !filter_cons, IH.
    destruct (decide (uncleared posted = true)) as [Hu|Hu].
    + by rewrite decide_True by tauto.
    + by rewrite decide_False by tauto.
Qed.

Lemma clearData_queue h st :
  messageQueue (clearData h st) = clearPosted h <$> messageQueue st ∧
  allocated (clearData h st) = allocated st.
Proof.
  unfold clearData. destruct (messageHooks st !! h) as [hooks|]; [|done].
  case_decide; [done|]. unfold cleanHooks, clean. simpl. by case_decide.
Qed.

(** X18. [clearData] leaves the handler without hooks and clears every
    entry of the queue that is for the handler, the other entries and the
    hooks of other handlers staying as they are; with handlers and hooks
    that make no call into the loop and exception handlers that return, the
    next run of the loop then delivers the entries of the other handlers
    that were not cleared, in their order, and nothing to the handler. *)
Theorem clearData_forgets_the_handler call_rec h st n :
  (∀ h m, quiet (processMessage h m)) →
  (∀ hook h m, quiet (messageHook hook h m)) →
  (∀ eh e, calm (handlerBody eh e)) →
  fresh st → length (messageQueue st) < n →
  let st' := clearData h st in
  chainOf st' h = [] ∧
  (∀ h', h' ≠ h → messageHooks st' !! h' = messageHooks st !! h') ∧
  messageQueue st' = clearPosted h <$> messageQueue st ∧
  ∃ st2 ds,
    runMessageLoop conflate processMessage messageHook handlerBody call_rec n st'
      = Some (Returned (), st2, ds) ∧
    messageQueue st2 = [] ∧
    ds.*1 = filter (λ p, uncleared p = true ∧ handler p ≠ Some h) (messageQueue st).
Proof.
  intros Hp Hh Hx Hfresh Hn. cbv zeta. destruct (clearData_queue h st) as [Hq Ha].
  split_and!; [| |done|].
  - unfold chainOf, clearData.
    destruct (messageHooks st !! h) as [hooks|] eqn:Hhooks; simpl.
    + case_decide as Hlen; simpl.
      * rewrite Hhooks. simpl. apply nil_length_inv in Hlen. by subst hooks.
      * unfold cleanHooks, clean. simpl.
        case_decide; simpl; rewrite lookup_insert_eq; simpl; apply chain_replicate_None.
    + by rewrite Hhooks.
  - intros h' Hne. unfold clearData.
    destruct (messageHooks st !! h) as [hooks|]; [|done]. case_decide; [done|].
    unfold cleanHooks, clean. simpl. case_decide; simpl; by rewrite lookup_insert_ne.
  - destruct (runMessageLoop_quiet conflate processMessage messageHook handlerBody call_rec n
                (clearData h st) Hp Hh Hx) as (st2 & ds & Hrun & Hempty & Hds & _).
    + unfold fresh. rewrite Hq, Ha. apply Forall_fmap. unfold fresh in Hfresh.
      eapply Forall_impl; [exact Hfresh|]. intros posted. unfold clearPosted.
      simpl. by case_decide.
    + by rewrite Hq, length_fmap.
    + exists st2, ds. split_and!; [done..|].
      by rewrite Hds, Hq, filter_uncleared_clearPosted.
Qed.

(** *** [flush] *)

Lemma loopBody_quiet_frame call_rec n : ∀ sentinel st r st' ds,
  (∀ h m, quiet (processMessage h m)) →
  (∀ hook h m, quiet (messageHook hook h m)) →
  (∀ eh e, calm (handlerBody eh e)) →
  loopBody conflate processMessage messageHook handlerBody call_rec n sentinel st
    = Some (r, st', ds) →
  host st' = host st ∧ loopTaskID st' = loopTaskID st ∧ flushGuard st' = flushGuard st ∧
  messageHooks st' = messageHooks st ∧ hookCleaner st' = hookCleaner st.
Proof.
  induction n as [|n IH]; intros sentinel st r st' ds Hp Hh Hx; [done|]. simpl.
  destruct (messageQueue st) as [|posted rest]; [by intros [= _ <- _]|].
  case_decide; [by intros [= _ <- _]|].
  assert (Hskip :
    loopBody conflate processMessage messageHook handlerBody call_rec n sentinel
      (with_queue rest st) = Some (r, st', ds) →
    host st' = host st ∧ loopTaskID st' = loopTaskID st ∧ flushGuard st' = flushGuard st ∧
    messageHooks st' = messageHooks st ∧ hookCleaner st' = hookCleaner st).
  { intros Hl. by apply (IH _ _ _ _ _ Hp Hh Hx) in Hl. }
  destruct (handler posted) as [h|]; [|exact Hskip].
  destruct (msg posted) as [m|]; [|exact Hskip].
  destruct (sendMessage_quiet conflate processMessage messageHook handlerBody call_rec Hx h m
              (with_queue rest st) (Hp h m) (λ hook, Hh hook h m))
    as (dl & st2 & -> & (_ & _ & H3 & H4 & H5 & H6 & H7)).
  destruct (loopBody _ _ _ _ _ n sentinel st2) as [[[r2 st3] ds2]|] eqn:Hl; [|done].
  intros [= <- <- <-]. apply (IH _ _ _ _ _ Hp Hh Hx) in Hl as (-> & -> & -> & -> & ->).
  by rewrite H3, H4, H5, H6, H7.
Qed.

(** X19. [flush] does nothing under its guard or when no run of the loop
    is scheduled. Otherwise, with handlers and hooks that make no call into
    the loop and exception handlers that make none either and return, it
    delivers at once every entry of the queue that is not cleared, in the
    order of the queue, and leaves the queue empty, no run scheduled and the
    guard down; the run that was scheduled is taken back from the host. *)
Theorem flush_delivers_at_once call_rec n st :
  (flushGuard st = true ∨ loopTaskID st = 0 →
   flush conflate processMessage messageHook handlerBody call_rec n st
   = Some (Returned (), st, [])) ∧
  ((∀ h m, quiet (processMessage h m)) →
   (∀ hook h m, quiet (messageHook hook h m)) →
   (∀ eh e, calm (handlerBody eh e)) →
   flushGuard st = false → loopTaskID st ≠ 0 → fresh st → length (messageQueue st) < n →
   ∃ st' ds,
     flush conflate processMessage messageHook handlerBody call_rec n st
     = Some (Returned (), st', ds) ∧
     ds.*1 = filter (λ p, uncleared p = true) (messageQueue st) ∧
     messageQueue st' = [] ∧ loopTaskID st' = 0 ∧ flushGuard st' = false ∧
     host st' = unschedule (loopTaskID st) (host st)).
Proof.
  split.
  - unfold flush. intros [Hg|Hid].
    + by rewrite Hg.
    + rewrite Hid. simpl. by rewrite orb_true_r.
  - intros Hp Hh Hx Hg Hid Hfresh Hn. unfold flush. rewrite Hg. simpl.
    rewrite bool_decide_eq_false_2 by done.
    set (st1 := with_flushGuard true _).
    destruct (runMessageLoop_quiet conflate processMessage messageHook handlerBody call_rec
                n st1 Hp Hh Hx)
      as (st2 & ds & Hrun & Hempty & Hds & _); [done..|].
    rewrite Hrun. exists (with_flushGuard false st2), ds.
    split_and!; try done.
    + simpl. revert Hrun. unfold runMessageLoop. case_decide; [by intros [= <- _]|].
      intros Hl. apply (loopBody_quiet_frame _ _ _ _ _ _ _ Hp Hh Hx) in Hl as (_ & Hid' & _).
      by rewrite Hid'.
    + simpl. revert Hrun. unfold runMessageLoop. case_decide; [by intros [= <- _]|].
      intros Hl. apply (loopBody_quiet_frame _ _ _ _ _ _ _ Hp Hh Hx) in Hl as (Hh' & _).
      by rewrite Hh'.
Qed.

(** X20. [flush] is not re-entrant: a call of [flush] made while [flush]
    runs returns at once and changes nothing. So whatever the handlers,
    hooks and exception handlers do, a [flush] of the client that ends has
    handed to [sendMessage] only entries that were in the queue when it
    began, in the order of the queue and none that was cleared by then.
    When it returns, every entry it leaves in the queue was created after it
    began, and the guard is down. It ends by an exception only when an
    exception handler throws; the guard is then left up, so that every later
    call of [flush] does nothing. *)
Theorem flush_is_not_reentrant fuel n st r st' ds :
  flushGuard st = false → loopTaskID st ≠ 0 → fresh st →
  flush conflate processMessage messageHook handlerBody
    (call conflate processMessage messageHook handlerBody fuel) n st = Some (r, st', ds) →
  (∀ st0, flushGuard st0 = true →
     call conflate processMessage messageHook handlerBody (S fuel) CallFlush st0
     = Some (Returned (), st0)) ∧
  (ident <$> ds.*1) `sublist_of` (ident <$> messageQueue st) ∧
  Forall (λ x, uncleared x.1 = true) ds ∧
  (r = Returned () →
     Forall (λ posted, allocated st < ident posted) (messageQueue st') ∧
     flushGuard st' = false) ∧
  (∀ e, r = Threw e → flushGuard st' = true) ∧
  (never_rethrows handlerBody → r = Returned ()).
Proof.
  intros Hg Hid Hfresh Hf. split.
  - intros st0 Hg0. simpl. unfold flush. by rewrite Hg0.
  - by eapply flush_runs_once.
Qed.

(** *** A run of the loop that the host starts *)

Lemma shallow_flush_free {R} (p : Prog U R) : shallow p → flush_free p.
Proof. induction 1; by constructor. Qed.

Section Total.
Variable call_rec : Call → Loop U → option (Result unit * Loop U).
Hypothesis call_rec_tame : tame processMessage messageHook handlerBody call_rec.
Hypothesis handlers_shallow : ∀ h m, shallow (processMessage h m).
Hypothesis hooks_shallow : ∀ hook h m, shallow (messageHook hook h m).
Hypothesis exception_handlers_shallow : ∀ eh e, shallow (handlerBody eh e).

Lemma shallow_never_flushes : never_flushes processMessage messageHook handlerBody.
Proof. split_and!; intros; by apply shallow_flush_free. Qed.

Lemma loopBody_total n : ∀ st sentinel (qi ri : list nat),
  ident <$> messageQueue st = qi ++ sentinel :: ri →
  Forall (λ i, i < sentinel) qi →
  length qi < n →
  is_Some (loopBody conflate processMessage messageHook handlerBody call_rec n sentinel st).
Proof.
  induction n as [|n IH]; intros st sentinel qi ri Hq Hqi Hn; [lia|]. simpl.
  destruct (messageQueue st) as [|posted rest] eqn:Hmq; [by destruct qi|].
  destruct qi as [|i qi]; simpl in Hq; injection Hq as Hid Hrest.
  { by rewrite decide_True. }
  apply Forall_cons in Hqi as [Hi Hqi]. rewrite decide_False by lia.
  simpl in Hn.
  assert (Hskip : is_Some (loopBody conflate processMessage messageHook handlerBody call_rec n
                             sentinel (with_queue rest st))).
  { apply (IH _ sentinel qi ri); [done|done|lia]. }
  destruct (handler posted) as [h|]; [|exact Hskip].
  destruct (msg posted) as [m|]; [|exact Hskip].
  destruct (sendMessage_shallow conflate processMessage messageHook handlerBody call_rec h m
              (with_queue rest st) (handlers_shallow h m) (λ hook, hooks_shallow hook h m)
              exception_handlers_shallow)
    as [[[r1 dl] st2] Hs].
  rewrite Hs. destruct r1 as [[]|e1]; [|done].
  pose proof (grows_sendMessage conflate processMessage messageHook handlerBody call_rec
                call_rec_tame h m _ _ dl st2 (or_intror shallow_never_flushes) Hs)
    as [[_ _ (added & Q & _)] _].
  simpl in Q. assert (Hrest' : ident <$> rest = qi ++ sentinel :: ri) by exact Hrest.
  rewrite Hrest', <- app_assoc in Q. simpl in Q.
  destruct (IH st2 sentinel qi (ri ++ added) Q Hqi ltac:(lia)) as [[[r3 st3] ds3] Hl].
  rewrite Hl. done.
Qed.

Lemma runMessageLoop_total n st :
  fresh st → length (messageQueue st) < n →
  is_Some (runMessageLoop conflate processMessage messageHook handlerBody call_rec n st).
Proof.
  intros Hfresh Hn. unfold runMessageLoop. simpl. case_decide; [done|].
  apply (loopBody_total n _ (allocated st) (ident <$> messageQueue st) []).
  - simpl. by rewrite fmap_app.
  - unfold fresh in Hfresh. by rewrite Forall_fmap.
  - by rewrite length_fmap.
Qed.
End Total.

(** X21. When no handler, no hook and no exception handler calls [flush],
    a run of the loop that the host starts stops at its own sentinel,
    whatever else they do: a run that ends has handed to [sendMessage] only
    entries that were in the queue when it began, in the order of the queue
    and none that was cleared by then; when it returns, every entry it
    leaves in the queue was created after it began; and it ends by an
    exception only when an exception handler throws. With handlers, hooks
    and exception handlers that call neither [sendMessage] nor [flush] the
    run does end. *)
Theorem scheduled_run_stops_at_its_sentinel fuel st s :
  never_flushes processMessage messageHook handlerBody → fresh st →
  next_task (host st) = Some (LoopTask, s) →
  (∀ r st' ds,
     turn conflate processMessage messageHook handlerBody fuel st = Some (r, st', ds) →
     (ident <$> ds.*1) `sublist_of` (ident <$> messageQueue st) ∧
     Forall (λ x, uncleared x.1 = true) ds ∧
     (r = Returned () →
        Forall (λ posted, allocated st < ident posted) (messageQueue st')) ∧
     (never_rethrows handlerBody → r = Returned ())) ∧
  ((∀ h m, shallow (processMessage h m)) →
   (∀ hook h m, shallow (messageHook hook h m)) →
   (∀ eh e, shallow (handlerBody eh e)) →
   length (messageQueue st) < fuel →
   is_Some (turn conflate processMessage messageHook handlerBody fuel st)).
Proof.
  intros Hnf Hfresh Hnext. unfold turn. rewrite Hnext. split.
  - intros r st' ds Hrun.
    destruct (run_ends_at_its_sentinel conflate processMessage messageHook handlerBody
                fuel fuel (with_host s st) r st' ds) as (H1 & H2 & _ & H4 & H5); try done.
    by right.
  - intros Hp Hh Hx Hn. apply runMessageLoop_total; try done. apply tame_call.
Qed.

(** *** What user code keeps *)

Section Lifting.
Variable Inv : Loop U → Prop.
Hypothesis Inv_frame : ∀ st st',
  messageHooks st' = messageHooks st → hookCleaner st' = hookCleaner st →
  host st' = host st → loopTaskID st' = loopTaskID st → Inv st → Inv st'.
Hypothesis Inv_enqueue : ∀ h m st, Inv st → Inv (enqueueMessage h m st).
Hypothesis Inv_install : ∀ h hook st, Inv st → Inv (installMessageHook h hook st).
Hypothesis Inv_remove : ∀ h hook st, Inv st → Inv (removeMessageHook h hook st).
Hypothesis Inv_clearData : ∀ h st, Inv st → Inv (clearData h st).
Hypothesis Inv_begin : ∀ st, Inv st → loopTaskID st ≠ 0 →
  Inv (with_loopTaskID 0 (with_host (unschedule (loopTaskID st) (host st)) st)).

Lemma postMessage_keeps h m st : Inv st → Inv (postMessage conflate h m st).
Proof.
  intros Hst. unfold postMessage. destruct (isConflatable m); simpl; [|by apply Inv_enqueue].
  destruct (conflateSome conflate h m (messageQueue st)) as [[[|] q] calls].
  - by apply (Inv_frame st).
  - apply Inv_enqueue. by apply (Inv_frame st).
Qed.

Section Step.
Variable call_rec : Call → Loop U → option (Result unit * Loop U).
Hypothesis call_rec_keeps : ∀ c st r st',
  Inv st → call_rec c st = Some (r, st') → Inv st'.

Lemma prog_keeps {R} (p : Prog U R) : ∀ st r st',
  Inv st → run conflate call_rec p st = Some (r, st') → Inv st'.
Proof.
  induction p as [r0|e|h m k IH|h m k IH|h hook k IH|h hook k IH|h k IH|k IH|h k IH
    |k IH|u k IH]; intros st r st' Hst; simpl.
  - by intros [= _ <-].
  - by intros [= _ <-].
  - destruct (call_rec (CallSend h m) st) as [[[[]|e] st1]|] eqn:Hc; [| |done].
    + apply IH. by eapply call_rec_keeps.
    + intros [= _ <-]. by eapply call_rec_keeps.
  - apply IH. by apply postMessage_keeps.
  - apply IH. by apply Inv_install.
  - apply IH. by apply Inv_remove.
  - apply IH. by apply Inv_clearData.
  - destruct (call_rec CallFlush st) as [[[[]|e] st1]|] eqn:Hc; [| |done].
    + apply IH. by eapply call_rec_keeps.
    + intros [= _ <-]. by eapply call_rec_keeps.
  - apply IH. by apply (Inv_frame st).
  - by apply IH.
  - apply IH. by apply (Inv_frame st).
Qed.

Lemma exception_handler_keeps e st r st' :
  Inv st → handleException conflate handlerBody call_rec e st = Some (r, st') → Inv st'.
Proof.
  intros Hst. unfold handleException.
  assert (Inv (report e st)) as Hrep by by apply (Inv_frame st).
  case_decide; [by intros [= _ <-]|]. by apply prog_keeps.
Qed.

Lemma invokeHook_keeps hook h m st b st' :
  Inv st →
  invokeHook conflate messageHook handlerBody call_rec hook h m st = Some (b, st') →
  Inv st'.
Proof.
  intros Hst. unfold invokeHook.
  destruct (run _ _ _ _) as [[[b0|e] st1]|] eqn:Hr; [| |done].
  - intros [= _ <-]. by eapply prog_keeps.
  - destruct (handleException _ _ _ _ _) as [[r2 st2]|] eqn:Hh; [|done].
    assert (Inv st2) as Hst2.
    { eapply exception_handler_keeps; [|exact Hh]. by eapply prog_keeps. }
    by destruct r2 as [[]|e2]; intros [= _ <-].
Qed.

Lemma invokeHandler_keeps h m st r st' :
  Inv st →
  invokeHandler conflate processMessage handlerBody call_rec h m st = Some (r, st') →
  Inv st'.
Proof.
  intros Hst. unfold invokeHandler.
  destruct (run _ _ _ _) as [[[[]|e] st1]|] eqn:Hr; [| |done].
  - intros [= _ <-]. by eapply prog_keeps.
  - apply exception_handler_keeps. by eapply prog_keeps.
Qed.

Lemma everyHook_keeps hooks h m : ∀ st x st',
  Inv st →
  everyHook conflate messageHook handlerBody call_rec hooks h m st = Some (x, st') →
  Inv st'.
Proof.
  induction hooks as [|[hook|] hooks IH]; intros st x st' Hst; simpl.
  - by intros [= _ <-].
  - destruct (invokeHook _ _ _ _ _ _ _ _) as [[[[|]|e] st1]|] eqn:Hi; [| | |done].
    + destruct (everyHook _ _ _ _ _ _ _ st1) as [[[p c] st2]|] eqn:He; [|done].
      intros [= _ <-]. eapply IH; [|exact He]. by eapply invokeHook_keeps.
    + intros [= _ <-]. by eapply invokeHook_keeps.
    + intros [= _ <-]. by eapply invokeHook_keeps.
  - by apply IH.
Qed.

Lemma sendMessage_keeps h m st r dl st' :
  Inv st →
  sendMessage conflate processMessage messageHook handlerBody call_rec h m st
    = Some (r, dl, st') →
  Inv st'.
Proof.
  intros Hst. unfold sendMessage.
  assert (Hd : ∀ called st0, Inv st0 →
    match invokeHandler conflate processMessage handlerBody call_rec h m st0 with
    | Some (r, st1) => Some (r, {| consulted := called; delivered := true |}, st1)
    | None => None
    end = Some (r, dl, st') → Inv st').
  { intros called st0 Hst0.
    destruct (invokeHandler _ _ _ _ _ _ st0) as [[r1 st1]|] eqn:Hi; [|done].
    intros [= _ _ <-]. by eapply invokeHandler_keeps. }
  destruct (messageHooks st !! h) as [hooks|]; [|by apply Hd].
  case_decide; [by apply Hd|].
  destruct (everyHook _ _ _ _ _ _ _ _) as [[[[[|]|e] c] st1]|] eqn:He; [| | |done].
  - apply Hd. by eapply everyHook_keeps.
  - intros [= _ _ <-]. by eapply everyHook_keeps.
  - intros [= _ _ <-]. by eapply everyHook_keeps.
Qed.

Lemma loopBody_keeps n : ∀ sentinel st r st' ds,
  Inv st →
  loopBody conflate processMessage messageHook handlerBody call_rec n sentinel st
    = Some (r, st', ds) →
  Inv st'.
Proof.
  induction n as [|n IH]; intros sentinel st r st' ds Hst; [done|]. simpl.
  destruct (messageQueue st) as [|posted rest]; [by intros [= _ <- _]|].
  assert (Inv (with_queue rest st)) as Hst1 by by apply (Inv_frame st).
  case_decide; [by intros [= _ <- _]|].
  destruct (handler posted) as [h|]; [|by apply IH].
  destruct (msg posted) as [m|]; [|by apply IH].
  destruct (sendMessage _ _ _ _ _ _ _ _) as [[[[[]|e1] dl] st2]|] eqn:Hs; [| |done].
  - destruct (loopBody _ _ _ _ _ n sentinel st2) as [[[r2 st3] ds2]|] eqn:Hl; [|done].
    intros [= _ <- _]. eapply IH; [|exact Hl]. by eapply sendMessage_keeps.
  - intros [= _ <- _]. by eapply sendMessage_keeps.
Qed.

(** A run of the loop, once it has given up its handle. *)
Lemma runMessageLoop_keeps n st r st' ds :
  Inv (with_loopTaskID 0 st) →
  runMessageLoop conflate processMessage messageHook handlerBody call_rec n st
    = Some (r, st', ds) →
  Inv st'.
Proof.
  intros Hst. unfold runMessageLoop. case_decide; [by intros [= _ <- _]|].
  apply loopBody_keeps. by apply (Inv_frame (with_loopTaskID 0 st)).
Qed.

Lemma flush_keeps n st r st' ds :
  Inv st →
  flush conflate processMessage messageHook handlerBody call_rec n st = Some (r, st', ds) →
  Inv st'.
Proof.
  intros Hst. unfold flush.
  destruct (flushGuard st || bool_decide (loopTaskID st = 0)) eqn:Hg.
  { by intros [= _ <- _]. }
  apply orb_false_iff in Hg as [_ Hid%bool_decide_eq_false].
  destruct (runMessageLoop _ _ _ _ _ _ _) as [[[[[]|e] st2] ds2]|] eqn:Hr; [| |done].
  - intros [= _ <- _]. apply (Inv_frame st2); [done..|].
    eapply runMessageLoop_keeps; [|exact Hr].
    apply (Inv_frame (with_loopTaskID 0
             (with_host (unschedule (loopTaskID st) (host st)) st))); [done..|].
    by apply Inv_begin.
  - intros [= _ <- _]. eapply runMessageLoop_keeps; [|exact Hr].
    apply (Inv_frame (with_loopTaskID 0
             (with_host (unschedule (loopTaskID st) (host st)) st))); [done..|].
    by apply Inv_begin.
Qed.
End Step.

Lemma call_keeps fuel : ∀ c st r st',
  Inv st →
  call conflate processMessage messageHook handlerBody fuel c st = Some (r, st') → Inv st'.
Proof.
  induction fuel as [|fuel IH]; [done|]. intros [h m|] st r st' Hst; simpl.
  - destruct (sendMessage _ _ _ _ _ _ _ _) as [[[r1 dl] st1]|] eqn:Hs; [|done].
    intros [= _ <-]. by eapply sendMessage_keeps.
  - destruct (flush _ _ _ _ _ _ _) as [[[r1 st1] ds1]|] eqn:Hf; [|done].
    intros [= _ <-]. by eapply flush_keeps.
Qed.

Lemma program_keeps {R} fuel (p : Prog U R) st r st' :
  Inv st → exec conflate processMessage messageHook handlerBody fuel p st = Some (r, st') → Inv st'.
Proof. apply prog_keeps, call_keeps. Qed.
End Lifting.

(** *** The callbacks that the host holds *)

Lemma punctual_same st st' :
  hookCleaner st' = hookCleaner st → host st' = host st →
  loopTaskID st' = loopTaskID st → punctual st → punctual st'.
Proof.
  intros Hc Hh Hl [H1 H2 H3 H4]. split; rewrite ?Hc, ?Hh, ?Hl; done.
Qed.

Lemma punctual_initial (u : U) : punctual (initial u).
Proof. split; simpl; [done|apply NoDup_nil_2|done|done]. Qed.

(** The host is asked for one more callback. *)
Lemma schedule_facts (t : Task) (s : Scheduler Task) :
  Forall (λ p, p.1 ≤ counter s) (pending s) → NoDup (pending s).*1 →
  Forall (λ p, p.1 ≤ counter (schedule t s).2) (pending (schedule t s).2) ∧
  NoDup (pending (schedule t s).2).*1 ∧
  (schedule t s).1 = S (counter s) ∧
  ∀ t', filter (λ p, p.2 = t') (pending (schedule t s).2)
        = filter (λ p, p.2 = t') (pending s)
          ++ (if decide (t = t') then [(S (counter s), t)] else []).
Proof.
  intros Hle Hnd. unfold schedule. simpl. split_and!.
  - apply Forall_app. split.
    + eapply Forall_impl; [exact Hle|]. simpl. intros. lia.
    + by repeat constructor.
  - rewrite fmap_app. apply NoDup_app. split_and!; [done| |].
    + intros i Hi [->|Hnil%elem_of_nil]%elem_of_cons; [|done].
      simpl in Hi. apply list_elem_of_fmap in Hi as ([i' t'] & Heq & Hin). simpl in *.
      rewrite Forall_forall in Hle. specialize (Hle _ Hin). simpl in Hle. lia.
    + simpl. apply NoDup_singleton.
  - done.
  - intros t'. by rewrite filter_app.
Qed.

Lemma punctual_enqueue h m st : punctual st → punctual (enqueueMessage h m st).
Proof.
  intros Hst. pose proof Hst as [H1 H2 H3 H4]. unfold enqueueMessage. cbv zeta.
  set (st1 := with_allocated _ _).
  change (loopTaskID st1) with (loopTaskID st). change (host st1) with (host st).
  destruct (decide (loopTaskID st ≠ 0)) as [Hid|Hid].
  { by apply (punctual_same st). }
  assert (loopTaskID st = 0) as Hz by (destruct (decide (loopTaskID st = 0)); tauto).
  destruct (schedule_facts LoopTask (host st) H1 H2) as (G1 & G2 & G3 & G4).
  destruct (schedule LoopTask (host st)) as [id s] eqn:Hs. simpl in G1, G2, G3, G4.
  subst id. split; simpl; [done|done| |].
  - rewrite G4, H3, Hz. simpl. done.
  - rewrite G4, H4. simpl. by rewrite app_nil_r.
Qed.

Lemma punctual_cleanHooks h st : punctual st → punctual (cleanHooks h st).
Proof.
  intros [H1 H2 H3 H4]. unfold cleanHooks, clean.
  destruct (schedule_facts HookCleanupTask (host st) H1 H2) as (G1 & G2 & _ & G4).
  unfold schedule in G1, G2, G4. simpl in G1, G2, G4.
  destruct (dirtySet (hookCleaner st)) as [|d ds] eqn:Hd; simpl in *.
  - split; simpl; [done|done| |].
    + rewrite G4, H3. simpl. by rewrite app_nil_r.
    + rewrite G4, H4. simpl. done.
  - split; simpl; [done|done|done|]. rewrite H4.
    rewrite decide_False; [done|]. unfold set_add.
    by destruct (decide (h ∈ d :: ds)).
Qed.

Lemma punctual_install h hook st : punctual st → punctual (installMessageHook h hook st).
Proof.
  apply punctual_same; unfold installMessageHook;
    destruct (messageHooks st !! h) as [hooks|]; try done;
    by destruct (indexOf hook hooks).
Qed.

Lemma punctual_remove h hook st : punctual st → punctual (removeMessageHook h hook st).
Proof.
  intros Hst. unfold removeMessageHook.
  destruct (messageHooks st !! h) as [hooks|]; [|done].
  destruct (indexOf hook hooks); [|done].
  apply punctual_cleanHooks. by apply (punctual_same st).
Qed.

Lemma punctual_clearData h st : punctual st → punctual (clearData h st).
Proof.
  intros Hst. unfold clearData.
  apply (punctual_same
           match messageHooks st !! h with
           | Some hooks =>
               if decide (length hooks = 0) then st
               else cleanHooks h
                      (with_hooks (<[h := replicate (length hooks) None]> (messageHooks st)) st)
           | None => st
           end); [done..|].
  destruct (messageHooks st !! h) as [hooks|]; [|done]. case_decide; [done|].
  apply punctual_cleanHooks. by apply (punctual_same st).
Qed.

Lemma ids_agree (l : list (nat * Task)) i t1 t2 :
  NoDup l.*1 → (i, t1) ∈ l → (i, t2) ∈ l → t1 = t2.
Proof.
  induction l as [|[j t] l IH]; intros Hnd H1 H2; [by apply elem_of_nil in H1|].
  rewrite fmap_cons in Hnd. apply NoDup_cons in Hnd as [Hj Hnd]. simpl in Hj.
  apply elem_of_cons in H1 as [E1|H1]; apply elem_of_cons in H2 as [E2|H2].
  - congruence.
  - exfalso. apply Hj. apply list_elem_of_fmap. exists (i, t2). split; [simpl; congruence|done].
  - exfalso. apply Hj. apply list_elem_of_fmap. exists (i, t1). split; [simpl; congruence|done].
  - by apply IH.
Qed.

Lemma filter_filter_comm {X} (P Q : X → Prop) `{∀ x, Decision (P x)} `{∀ x, Decision (Q x)}
    (l : list X) :
  filter P (filter Q l) = filter Q (filter P l).
Proof.
  rewrite !list_filter_filter. apply list_filter_iff. intros x. tauto.
Qed.

(** [flush] takes the scheduled run back from the host. *)
Lemma punctual_begin st :
  punctual st → loopTaskID st ≠ 0 →
  punctual (with_loopTaskID 0 (with_host (unschedule (loopTaskID st) (host st)) st)).
Proof.
  intros [H1 H2 H3 H4] Hid. rewrite decide_False in H3 by done.
  assert (Hin : (loopTaskID st, LoopTask) ∈ pending (host st)).
  { assert ((loopTaskID st, LoopTask) ∈ filter (λ p, p.2 = LoopTask) (pending (host st)))
      as Hf by (rewrite H3; left).
    by apply list_elem_of_filter in Hf as [_ ?]. }
  split; simpl.
  - apply Forall_forall. intros x Hx%list_elem_of_filter.
    rewrite Forall_forall in H1. apply H1. tauto.
  - apply (NoDup_fmap_2_strong fst); [|by apply NoDup_filter, (NoDup_fmap_1 fst)].
    intros [i t1] [j t2] Hi%list_elem_of_filter Hj%list_elem_of_filter Heq.
    simpl in Heq. subst j. destruct Hi as [_ Hi], Hj as [_ Hj].
    by rewrite (ids_agree _ _ _ _ H2 Hi Hj).
  - rewrite filter_filter_comm, H3. by rewrite filter_cons_False by (simpl; tauto).
  - rewrite filter_filter_comm, H4. case_decide; [done|].
    rewrite filter_cons_True; [done|]. simpl. intros Heq.
    assert ((scheduleId (hookCleaner st), HookCleanupTask) ∈ pending (host st)) as Hin2.
    { assert ((scheduleId (hookCleaner st), HookCleanupTask)
              ∈ filter (λ p, p.2 = HookCleanupTask) (pending (host st))) as Hf.
      { rewrite H4. left. }
      by apply list_elem_of_filter in Hf as [_ ?]. }
    rewrite Heq in Hin2. by pose proof (ids_agree _ _ _ _ H2 Hin Hin2).
Qed.

(** The host runs its oldest callback. *)
Lemma punctual_pop st (t : Task) s :
  punctual st → next_task (host st) = Some (t, s) →
  Forall (λ p, p.1 ≤ counter s) (pending s) ∧ NoDup (pending s).*1 ∧
  (∀ t', t' ≠ t →
     filter (λ p, p.2 = t') (pending s) = filter (λ p, p.2 = t') (pending (host st))) ∧
  filter (λ p, p.2 = t) (pending s) = [] ∧
  filter (λ p, p.2 = t) (pending (host st)) ≠ [].
Proof.
  intros [H1 H2 H3 H4]. unfold next_task.
  destruct (pending (host st)) as [|[i t0] rest] eqn:Hp; [done|].
  intros [= -> <-]. simpl.
  apply Forall_cons in H1 as [_ H1]. rewrite fmap_cons in H2.
  apply NoDup_cons in H2 as [_ H2].
  split_and!; [done|done| | |].
  - intros t' Hne. by rewrite (filter_cons_False _ (i, t)) by (simpl; congruence).
  - destruct t.
    + rewrite filter_cons_True in H3 by done.
      destruct (decide (loopTaskID st = 0)); [done|]. by injection H3.
    + rewrite filter_cons_True in H4 by done.
      destruct (decide (dirtySet (hookCleaner st) = [])); [done|]. by injection H4.
  - by rewrite filter_cons_True.
Qed.

Ltac keep_punctual :=
  first [ apply punctual_enqueue | apply punctual_install | apply punctual_remove
        | apply punctual_clearData | apply punctual_begin
        | (intros ? ? _; apply punctual_same) ].

Lemma punctual_call fuel c st r st' :
  punctual st →
  call conflate processMessage messageHook handlerBody fuel c st = Some (r, st') → punctual st'.
Proof. apply (call_keeps punctual); keep_punctual. Qed.

Lemma punctual_turn fuel st r st' ds :
  punctual st →
  turn conflate processMessage messageHook handlerBody fuel st = Some (r, st', ds) → punctual st'.
Proof.
  intros Hst. unfold turn. destruct (next_task (host st)) as [[[] s]|] eqn:Hn.
  - destruct (punctual_pop st LoopTask s Hst Hn) as (G1 & G2 & G3 & G4 & _).
    apply (runMessageLoop_keeps punctual); try solve [keep_punctual].
    + intros c st0 r0 st1. apply punctual_call.
    + split; simpl; [done|done|by rewrite G4|].
      rewrite (G3 HookCleanupTask) by done. by destruct Hst.
  - destruct (punctual_pop st HookCleanupTask s Hst Hn) as (G1 & G2 & G3 & G4 & _).
    unfold dump. simpl. intros [= _ <- _]. split; simpl; [done|done| |by rewrite G4].
    rewrite (G3 LoopTask) by done.
    assert (Hl : ∀ (ds0 : list Obj) st0,
      loopTaskID (foldl (λ acc a, remove_null a acc) st0 ds0) = loopTaskID st0).
    { induction ds0 as [|x ds0 IH]; intros st0; [done|]. simpl. by rewrite IH. }
    rewrite Hl. by destruct Hst.
  - by intros [= _ <- _].
Qed.

(** X22. At most one run of the loop is scheduled: if the host holds the
    callback of the loop exactly while [loopTaskID] is not zero, under that
    handle and once, and the callback of the hook cleaner exactly while an
    array is registered, then the same holds after any client program,
    whatever the handlers, hooks and exception handlers do and however the
    program ends, and after the host has run its oldest callback. *)
Theorem loop_is_scheduled_once {R} fuel (p : Prog U R) st r st' :
  punctual st →
  exec conflate processMessage messageHook handlerBody fuel p st = Some (r, st') →
  punctual st' ∧
  length (filter (λ p, p.2 = LoopTask) (pending (host st'))) ≤ 1 ∧
  ∀ r2 st2 ds,
    turn conflate processMessage messageHook handlerBody fuel st' = Some (r2, st2, ds) →
    punctual st2.
Proof.
  intros Hst He.
  assert (punctual st') as Hst'.
  { revert He. apply (program_keeps punctual); try solve [keep_punctual]. done. }
  split_and!; [done| |].
  - rewrite (one_run st' Hst'). case_decide; simpl; lia.
  - intros r2 st2 ds. by apply punctual_turn.
Qed.

(** *** The hook arrays *)

Lemma hooks_ok_same st st' :
  messageHooks st' = messageHooks st → hookCleaner st' = hookCleaner st →
  hooks_ok st → hooks_ok st'.
Proof. intros Hh Hc [H1 H2]. split; rewrite ?Hh, ?Hc; done. Qed.

Lemma hooks_ok_initial (u : U) : hooks_ok (initial u).
Proof. split; intros h hooks Hl; simpl in Hl; by rewrite lookup_empty in Hl. Qed.

Lemma hooks_ok_enqueue h m st : hooks_ok st → hooks_ok (enqueueMessage h m st).
Proof.
  apply hooks_ok_same.
  - apply enqueueMessage_hooks.
  - unfold enqueueMessage, schedule. simpl.
    by destruct (decide (loopTaskID st ≠ 0)).
Qed.

Lemma hooks_ok_install h hook st : hooks_ok st → hooks_ok (installMessageHook h hook st).
Proof.
  intros [H1 H2]. unfold installMessageHook.
  destruct (messageHooks st !! h) as [hooks|] eqn:Hh.
  - destruct (indexOf hook hooks) eqn:Hi; [done|]. apply indexOf_None in Hi.
    split; simpl; intros h' hooks'.
    + destruct (decide (h' = h)) as [->|Hne].
      * rewrite lookup_insert_eq. intros [= <-] [Hin|Hin%list_elem_of_singleton]%elem_of_app;
          [by apply (H1 h hooks)|done].
      * rewrite lookup_insert_ne by done. apply H1.
    + destruct (decide (h' = h)) as [->|Hne].
      * rewrite lookup_insert_eq. intros [= <-]. rewrite chain_snoc.
        apply NoDup_cons. split; [by rewrite chain_elem|by apply (H2 h)].
      * rewrite lookup_insert_ne by done. apply H2.
  - split; simpl; intros h' hooks'.
    + destruct (decide (h' = h)) as [->|Hne].
      * rewrite lookup_insert_eq. by intros [= <-] Hin%list_elem_of_singleton.
      * rewrite lookup_insert_ne by done. apply H1.
    + destruct (decide (h' = h)) as [->|Hne].
      * rewrite lookup_insert_eq. intros [= <-]. apply NoDup_singleton.
      * rewrite lookup_insert_ne by done. apply H2.
Qed.

Lemma cleanHooks_fields h st :
  messageHooks (cleanHooks h st) = messageHooks st ∧
  dirtySet (hookCleaner (cleanHooks h st)) = set_add h (dirtySet (hookCleaner st)).
Proof. unfold cleanHooks, clean. by destruct (decide (length _ = 0)). Qed.

Lemma set_add_Obj (x y : Obj) (ds : list Obj) : y ∈ set_add x ds ↔ y = x ∨ y ∈ ds.
Proof.
  unfold set_add. destruct (decide (x ∈ ds)) as [Hin|Hin].
  - split; [tauto|]. by intros [->|?].
  - rewrite elem_of_app, list_elem_of_singleton. tauto.
Qed.

(** An array of a handler is changed, with no new hook and the handler
    registered with the cleaner. *)
Lemma hooks_ok_change h hooks hooks' st :
  messageHooks st !! h = Some hooks →
  chain hooks' `sublist_of` chain hooks →
  hooks_ok st →
  hooks_ok (cleanHooks h (with_hooks (<[h := hooks']> (messageHooks st)) st)).
Proof.
  intros Hh Hsub [H1 H2].
  destruct (cleanHooks_fields h (with_hooks (<[h := hooks']> (messageHooks st)) st))
    as [Hm Hd].
  split; rewrite Hm, ?Hd; simpl; intros h' hooks0.
  - rewrite set_add_Obj. destruct (decide (h' = h)) as [->|Hne]; [by left|].
    rewrite lookup_insert_ne by done. intros Hl Hin. right. by apply (H1 h' hooks0).
  - destruct (decide (h' = h)) as [->|Hne].
    + rewrite lookup_insert_eq. intros [= <-].
      eapply sublist_NoDup; [|exact Hsub]. by apply (H2 h).
    + rewrite lookup_insert_ne by done. apply H2.
Qed.

Lemma hooks_ok_remove h hook st : hooks_ok st → hooks_ok (removeMessageHook h hook st).
Proof.
  intros Hst. unfold removeMessageHook.
  destruct (messageHooks st !! h) as [hooks|] eqn:Hh; [|done].
  destruct (indexOf hook hooks) as [i|] eqn:Hi; [|done].
  apply (hooks_ok_change h hooks); [done| |done].
  apply indexOf_Some in Hi as (hooks1 & hooks2 & -> & <- & _).
  rewrite insert_None_chain, !chain_app, chain_cons_None, chain_cons_Some.
  apply sublist_app; [|done]. by apply sublist_inserts_r.
Qed.

Lemma hooks_ok_clearData h st : hooks_ok st → hooks_ok (clearData h st).
Proof.
  intros Hst. unfold clearData.
  apply (hooks_ok_same
           match messageHooks st !! h with
           | Some hooks =>
               if decide (length hooks = 0) then st
               else cleanHooks h
                      (with_hooks (<[h := replicate (length hooks) None]> (messageHooks st)) st)
           | None => st
           end); [done..|].
  destruct (messageHooks st !! h) as [hooks|] eqn:Hh; [|done].
  destruct (decide (length hooks = 0)); [done|].
  apply (hooks_ok_change h hooks); [done| |done].
  rewrite chain_replicate_None. apply sublist_nil_l.
Qed.

Ltac keep_hooks :=
  first [ apply hooks_ok_enqueue | apply hooks_ok_install | apply hooks_ok_remove
        | apply hooks_ok_clearData
        | (intros ? ? ? ? _ _; by apply hooks_ok_same)
        | (let st0 := fresh "st" in intros st0 ? _; by apply (hooks_ok_same st0)) ].

Lemma chain_filter hooks : chain (filter (λ x, x ≠ None) hooks) = chain hooks.
Proof.
  induction hooks as [|[hook|] hooks IH].
  - done.
  - rewrite filter_cons_True by done. by rewrite !chain_cons_Some, IH.
  - rewrite filter_cons_False by (by intros ?). by rewrite chain_cons_None.
Qed.

Lemma lookup_foldl_remove_null (ds : list Obj) : ∀ st h,
  messageHooks (foldl (λ acc a, remove_null a acc) st ds) !! h
  = if decide (h ∈ ds) then filter (λ x, x ≠ None) <$> messageHooks st !! h
    else messageHooks st !! h.
Proof.
  induction ds as [|x ds IH]; intros st h; simpl; [done|].
  rewrite IH. unfold remove_null. simpl.
  destruct (decide (h = x)) as [->|Hne].
  - rewrite lookup_alter_eq. rewrite (decide_True (P := x ∈ x :: ds)) by apply list_elem_of_here.
    destruct (decide (x ∈ ds)); [|done].
    destruct (messageHooks st !! x) as [hooks|]; [|done]. simpl. f_equal.
    by apply list_filter_filter_l.
  - rewrite lookup_alter_ne by done.
    destruct (decide (h ∈ ds)) as [Hin|Hin].
    + rewrite decide_True; [done|]. by apply list_elem_of_further.
    + rewrite decide_False; [done|]. rewrite elem_of_cons. tauto.
Qed.

Lemma foldl_remove_null_queue (ds : list Obj) : ∀ st,
  messageQueue (foldl (λ acc a, remove_null a acc) st ds) = messageQueue st.
Proof. induction ds as [|x ds IH]; intros st; [done|]. simpl. by rewrite IH. Qed.

(** X23. The hook arrays are kept in order: if every array that holds a
    removed hook is registered with the cleaner and no hook is in an array
    twice, the same holds after any client program, whatever the handlers,
    hooks and exception handlers do and however the program ends; and when
    the host then runs the callback of the cleaner,
    no array holds a removed hook any more, while the chain of every
    handler and the queue are as they were. *)
Theorem hook_arrays_are_compacted {R} fuel (p : Prog U R) st r st' :
  hooks_ok st →
  exec conflate processMessage messageHook handlerBody fuel p st = Some (r, st') →
  hooks_ok st' ∧
  ∀ s, next_task (host st') = Some (HookCleanupTask, s) →
    ∃ st2,
      turn conflate processMessage messageHook handlerBody fuel st' = Some (Returned (), st2, []) ∧
      (∀ h hooks, messageHooks st2 !! h = Some hooks → None ∉ hooks) ∧
      (∀ h, chainOf st2 h = chainOf st' h) ∧
      messageQueue st2 = messageQueue st'.
Proof.
  intros Hst He.
  assert (hooks_ok st') as Hst'.
  { revert He. apply (program_keeps hooks_ok); try solve [keep_hooks]. done. }
  split; [done|]. intros s Hn. unfold turn. rewrite Hn. unfold dump. simpl.
  eexists. split; [done|]. simpl.
  destruct Hst' as [H1 H2]. split_and!.
  - intros h hooks. rewrite lookup_foldl_remove_null.
    destruct (decide (h ∈ dirtySet (hookCleaner st'))) as [Hin|Hin].
    + destruct (messageHooks st' !! h) as [hooks0|]; [|done]. simpl. intros [= <-].
      rewrite list_elem_of_filter. tauto.
    + intros Hl Hnone. by apply Hin, (H1 h hooks).
  - intros h. unfold chainOf. simpl. rewrite lookup_foldl_remove_null.
    destruct (decide (h ∈ dirtySet (hookCleaner st'))); [|done].
    destruct (messageHooks st' !! h) as [hooks0|]; [|done]. simpl. apply chain_filter.
  - apply foldl_remove_null_queue.
Qed.
End Loop.

(** *** The scenarios of the test suite *)
Section Tests.
Import MessagingTests LoopingTests.

Lemma echo_relay_never_flush : never_flushes echoMessage relayHook onError.
Proof.
  split_and!.
  - intros h m. unfold echoMessage, record. destruct (String.eqb (type m) "one");
      repeat constructor.
  - intros hook h m. unfold relayHook. destruct (String.eqb (type m) "two");
      repeat constructor.
  - intros eh e. constructor.
Qed.

Lemma posted_with_hook_fresh : fresh posted_with_hook.
Proof. unfold fresh. vm_compute. repeat constructor. Qed.

(** 'should remove a previously installed hook' *)
Lemma removeMessageHook_takes_out_witness :
  chainOf three_hooks handler1 = [logHook3; logHook2; logHook1] ∧
  chainOf (removeMessageHook handler1 logHook2 three_hooks) handler1
  = [logHook3; logHook1] ∧
  messageHooks (removeMessageHook handler1 logHook2 three_hooks) !! handler1
  = Some [Some logHook1; None; Some logHook3] ∧
  removeMessageHook handler1 spy three_hooks = three_hooks.
Proof.
  assert (Hnd : NoDup (chainOf three_hooks handler1)).
  { vm_compute. repeat constructor; intros Hin; repeat (apply elem_of_cons in Hin as [Hin|Hin]; [discriminate|]); by apply elem_of_nil in Hin. }
  destruct (removeMessageHook_takes_out handler1 logHook2 three_hooks Hnd)
    as (Hchain & _).
  destruct (removeMessageHook_takes_out handler1 spy three_hooks Hnd)
    as (_ & Hnot & _).
  split; [reflexivity|]. split; [rewrite Hchain; reflexivity|].
  split; [reflexivity|]. apply Hnot. vm_compute.
  intros Hin; repeat (apply elem_of_cons in Hin as [Hin|Hin]; [discriminate|]);
    by apply elem_of_nil in Hin.
Defined.

(** 'should remove all messages and hooks data associated with a handler' *)
Lemma clearData_forgets_the_handler_witness :
  chainOf (clearData handler1 posted_with_hook) handler1 = [] ∧
  ∃ st2 ds,
    runMessageLoop conflate logMessage logHook onError (call conflate logMessage logHook onError 7) 7
      (clearData handler1 posted_with_hook) = Some (Returned (), st2, ds) ∧
    user st2 = [(handler2, "one"); (handler2, "two"); (handler2, "three")] ∧
    messageQueue st2 = [].
Proof.
  destruct (clearData_forgets_the_handler conflate logMessage logHook onError
              (call conflate logMessage logHook onError 7) handler1 posted_with_hook 7
              logMessage_quiet logHook_quiet onError_calm posted_with_hook_fresh
              ltac:(vm_compute; lia))
    as (Hchain & _ & _ & st2 & ds & Hrun & Hq & _).
  split; [exact Hchain|]. exists st2, ds. split; [exact Hrun|]. split; [|exact Hq].
  vm_compute in Hrun. injection Hrun as <- _. reflexivity.
Defined.

(** 'should conflate a conflatable message': the four posts of the
    conflatable message leave one entry behind the two plain messages. *)
Lemma conflatable_messages_collapse_witness :
  (λ posted, type <$> msg posted)
    <$> messageQueue (postAll conflate conflating_posts two_posted)
  = [Some "one"; Some "two"; Some "three"].
Proof.
  destruct (conflatable_messages_collapse conflate handler1 "three" two_posted 3)
    as (_ & Hnew & Hsame).
  - intros posted pm Hin Hc. exfalso. revert Hin Hc. vm_compute.
    intros Hin. repeat (apply elem_of_cons in Hin as [->|Hin]; [done|]).
    by apply elem_of_nil in Hin.
  - reflexivity.
  - unfold conflating_posts. rewrite Hsame, Hnew by (vm_compute; reflexivity).
    vm_compute. reflexivity.
Defined.

(** 'should immediately process all posted messages' *)
Lemma flush_delivers_at_once_witness :
  ∃ st' ds,
    flush conflate logMessage logHook onError (call conflate logMessage logHook onError 7) 7
      (postAll conflate six_posts (initial [])) = Some (Returned (), st', ds) ∧
    user st' = [(handler3, "one"); (handler1, "two"); (handler2, "three");
                (handler1, "A"); (handler2, "B"); (handler3, "C")] ∧
    messageQueue st' = [] ∧ loopTaskID st' = 0 ∧ pending (host st') = [] ∧
    flush conflate logMessage logHook onError (call conflate logMessage logHook onError 7) 7 st'
    = Some (Returned (), st', []).
Proof.
  destruct (flush_delivers_at_once conflate logMessage logHook onError
              (call conflate logMessage logHook onError 7) 7
              (postAll conflate six_posts (initial ([] : Log)))) as [_ Hrun].
  destruct Hrun as (st' & ds & Hrun & _ & Hq & Hid & Hg & Hh);
    [apply logMessage_quiet|apply logHook_quiet|apply onError_calm|reflexivity|by vm_compute
    |unfold fresh; vm_compute; repeat constructor|vm_compute; lia|].
  exists st', ds. split; [exact Hrun|].
  split; [vm_compute in Hrun; injection Hrun as <- _; reflexivity|].
  split; [exact Hq|]. split; [exact Hid|]. split; [rewrite Hh; reflexivity|].
  apply (flush_delivers_at_once conflate logMessage logHook onError
           (call conflate logMessage logHook onError 7) 7 st'). by right.
Defined.

(** 'should ignore recursive calls': the hook of [handler1] posts three
    messages and calls [flush] while [flush] runs; the six messages posted
    before are delivered, and the three stay in the queue. *)
Lemma flush_is_not_reentrant_witness :
  ∃ st' ds,
    flush conflate logMessage flushingHook onError (call conflate logMessage flushingHook onError 3) 10
      posted_with_hook = Some (Returned (), st', ds) ∧
    user st' = [(handler1, "one"); (handler2, "one"); (handler1, "two");
                (handler2, "two"); (handler1, "three"); (handler2, "three")] ∧
    (λ posted, type <$> msg posted) <$> messageQueue st' = [Some "four"; Some "five"; Some "six"] ∧
    Forall (λ posted, allocated posted_with_hook < ident posted) (messageQueue st') ∧
    flushGuard st' = false.
Proof.
  eexists _, _. split; [vm_compute; reflexivity|]. do 2 (split; [reflexivity|]).
  eapply (flush_is_not_reentrant conflate logMessage flushingHook onError 3 10
            posted_with_hook); [| | | |reflexivity].
  - reflexivity.
  - by vm_compute.
  - exact posted_with_hook_fresh.
  - vm_compute. reflexivity.
Defined.

(** A run that the host starts, with a hook that sends a message and a
    handler that posts one: what is posted during the run stays in the
    queue. *)
Lemma scheduled_run_stops_at_its_sentinel_witness :
  ∃ st' ds,
    turn conflate echoMessage relayHook onError 10 posted_with_hook = Some (Returned (), st', ds) ∧
    user st' = [(handler1, "one"); (handler2, "one"); (handler2, "relayed");
                (handler1, "two"); (handler2, "two"); (handler1, "three");
                (handler2, "three")] ∧
    (λ posted, type <$> msg posted) <$> messageQueue st' = [Some "echo"; Some "echo"] ∧
    Forall (λ posted, allocated posted_with_hook < ident posted) (messageQueue st').
Proof.
  eexists _, _. split; [vm_compute; reflexivity|]. do 2 (split; [reflexivity|]).
  eapply (proj1 (scheduled_run_stops_at_its_sentinel conflate echoMessage relayHook onError 10
                   posted_with_hook _ echo_relay_never_flush posted_with_hook_fresh eq_refl));
    [|reflexivity].
  vm_compute. reflexivity.
Defined.

(** The client of 'should remove all messages and hooks data associated
    with a handler', up to [clearData]: one run of the loop is scheduled
    for the six posts, and none is left once the host has run it. *)
Lemma loop_is_scheduled_once_witness :
  punctual (initial ([] : Log)) ∧
  exec conflate logMessage logHook onError 10 posts_and_hook (initial [])
    = Some (Returned (), posted_with_hook) ∧
  pending (host posted_with_hook) = [(1, LoopTask)] ∧
  punctual posted_with_hook ∧
  ∃ st2 ds,
    turn conflate logMessage logHook onError 10 posted_with_hook = Some (Returned (), st2, ds) ∧
    punctual st2 ∧ loopTaskID st2 = 0 ∧ pending (host st2) = [].
Proof.
  split; [apply punctual_initial|]. split; [vm_compute; reflexivity|].
  split; [reflexivity|].
  destruct (loop_is_scheduled_once conflate logMessage logHook onError 10 posts_and_hook
              (initial ([] : Log)) (Returned ()) posted_with_hook
              (punctual_initial []) ltac:(vm_compute; reflexivity)) as (H1 & _ & H2).
  split; [exact H1|]. eexists _, _. split; [vm_compute; reflexivity|].
  split; [|split; reflexivity]. eapply H2. vm_compute. reflexivity.
Defined.

(** 'should remove a previously installed hook': after the removal the
    array of the handler holds a cleared entry; the callback of the cleaner
    takes it out. *)
Lemma hook_arrays_are_compacted_witness :
  messageHooks one_hook_removed !! handler1 = Some [Some logHook1; None] ∧
  hooks_ok one_hook_removed ∧
  ∃ st2,
    turn conflate logMessage logHook onError 1 one_hook_removed = Some (Returned (), st2, []) ∧
    messageHooks st2 !! handler1 = Some [Some logHook1] ∧
    (∀ h hooks, messageHooks st2 !! h = Some hooks → None ∉ hooks) ∧
    chainOf st2 handler1 = chainOf one_hook_removed handler1.
Proof.
  split; [reflexivity|].
  destruct (hook_arrays_are_compacted conflate logMessage logHook onError 1 hooks_removed
              (initial ([] : Log)) (Returned ()) one_hook_removed
              (hooks_ok_initial []) ltac:(vm_compute; reflexivity)) as (Hok & Hturn).
  split; [exact Hok|].
  destruct (Hturn _ eq_refl) as (st2 & Hrun & Hnone & Hchain & _).
  exists st2. split; [exact Hrun|].
  split; [vm_compute in Hrun; injection Hrun as <-; reflexivity|].
  split; [exact Hnone|apply Hchain].
Defined.
End Tests.

End LoopingLaws.
